(** * jsplumb-react-wrapper: the canvas core, embedded and verified

    A shallow embedding of the parts of the wrapper that carry its
    behaviour: the helper functions of [utils/jsPlumbHelpers] and
    [utils/array], the selection manager ([useSelectionManager]), the
    pan/zoom controller ([usePanZoom]) and the connection reconciler and
    engine event handlers of [useJsPlumbCanvas] (the same code is inlined
    in the [FlowCanvas] component); further the drag gesture and
    [focusNode], the node registry ([useNodeRegistry]), the endpoint
    synchronizer and the selection effect of [useJsPlumbCanvas], and the
    connection callbacks of the playground application.

    Conventions.
    - A JavaScript [string] is a [string]; [undefined]/[null] is [None].
    - A JavaScript [Map<string, T>] whose iteration order is not observable
      is a [gmap string T]; a [Set<string>] whose order is observable
      (it is turned back into an array) is a duplicate-free list in
      insertion order.
    - Engine objects (connections) are mutable and shared between the
      engine and the wrapper's lookup tables: they live in a store, a list
      indexed by handle, and the tables hold handles.
    - The class string of an engine component is the list of its class
      names, in order and with their repetitions.
    - JavaScript numbers are modelled by exact rationals [Q] where the
      property at hand is one of order or of geometry, which rounding
      does not touch in the cases stated; where the digits of a result
      matter (the zoom after a number of steps) they are IEEE 754
      binary64 values, Rocq's primitive floats (module [Binary64]). *)

From Stdlib Require Import Ascii String QArith Qminmax.
From Stdlib Require Floats.
From stdpp Require Import base option strings list gmap fin_maps pretty.

Local Open Scope string_scope.

(* ===================================================================== *)
(** * 1. Data model ([types.ts])                                          *)
(* ===================================================================== *)

Inductive PortMode := ModeSource | ModeTarget | ModeBidirectional.

Record NodePort := {
  port_id : string;
  port_mode : option PortMode
}.

Record FlowNode := {
  node_id : string;
  node_ports : option (list NodePort)
}.

(** [{ nodeId: string; portId?: string }] *)
Record PortRef := {
  nodeId : string;
  portId : option string
}.

Record FlowConnection := {
  fc_id : string;
  fc_source : PortRef;
  fc_target : PortRef;
  fc_label : option string;
  fc_className : option string;
  fc_editable : option bool
}.

Record DraftConnection := {
  draft_source : PortRef;
  draft_target : PortRef
}.

Record CanvasSelection := {
  nodes : list string;
  connections : list string
}.

(* ===================================================================== *)
(** * 2. Helpers ([utils/jsPlumbHelpers], [utils/array])                  *)
(* ===================================================================== *)

Definition DEFAULT_PORT_ID : string := "default".
Definition NODE_ID_ATTRIBUTE : string := "data-node-id".

(** JavaScript truthiness of a possibly absent string: [undefined],
    [null] and the empty string are falsy. *)
Definition truthy (o : option string) : bool :=
  match o with
  | Some s => negb (bool_decide (s = EmptyString))
  | None => false
  end.

(** [portId ?? DEFAULT_PORT_ID] *)
Definition portOrDefault (p : option string) : string :=
  default DEFAULT_PORT_ID p.

(** [getEndpointUuid = (nodeId, portId?) => `${nodeId}:${portId ?? DEFAULT_PORT_ID}`] *)
Definition getEndpointUuid (n : string) (p : option string) : string :=
  n +:+ ":" +:+ portOrDefault p.

(** The effective port list of a node, as [synchronizeEndpoints] and the
    renderer compute it:
    [node.ports && node.ports.length > 0 ? node.ports : [{ id: DEFAULT_PORT_ID }]]. *)
Definition effectivePorts (n : FlowNode) : list NodePort :=
  match node_ports n with
  | Some (p :: ps) => p :: ps
  | _ => [ {| port_id := DEFAULT_PORT_ID; port_mode := None |} ]
  end.

(** The endpoint identities [synchronizeEndpoints] computes for a node
    list: [getEndpointUuid(node.id, port.id)] for every effective port. *)
Definition endpointUuids (ns : list FlowNode) : list string :=
  n ← ns; (λ p, getEndpointUuid (node_id n) (Some (port_id p))) <$> effectivePorts n.

(** A JavaScript [Set<string>], as the list of its members in insertion
    order. *)
Definition setAdd (s : list string) (v : string) : list string :=
  if bool_decide (v ∈ s) then s else s ++ [v].

Definition setDelete (s : list string) (v : string) : list string :=
  filter (λ x, x ≠ v) s.

Definition setHas (s : list string) (v : string) : bool :=
  bool_decide (v ∈ s).

(** [new Set(values)] adds the values from left to right. *)
Definition newSet (values : list string) : list string :=
  fold_left setAdd values [].

(** [uniqueList = (values) => Array.from(new Set(values))] *)
Definition uniqueList (values : list string) : list string :=
  newSet values.

(** Does a string contain the character [c]? *)
Fixpoint contains (c : ascii) (s : string) : bool :=
  match s with
  | EmptyString => false
  | String a s' => bool_decide (a = c) || contains c s'
  end.

(* ===================================================================== *)
(** * 3. Selection manager ([useSelectionManager])                        *)
(* ===================================================================== *)

(** The modifier keys of a pointer event. *)
Record MouseEvent := {
  metaKey : bool;
  ctrlKey : bool;
  shiftKey : bool
}.

(** The inputs of the hook: a selection set that is supplied ([Some]) is
    externally controlled. *)
Record SelectionProps := {
  selectedNodes : option (list string);
  selectedConnections : option (list string);
  allowMultiSelect : bool
}.

Definition initialSelection : CanvasSelection :=
  {| nodes := []; connections := [] |}.

(** [selection]: [selectedNodes ?? internalSelection.nodes], and likewise
    for connections. [selectionRef.current] holds this value. *)
Definition selection (p : SelectionProps) (internal : CanvasSelection) : CanvasSelection :=
  {| nodes := default (nodes internal) (selectedNodes p);
     connections := default (connections internal) (selectedConnections p) |}.

(** [emitSelection(nextNodes, nextConnections)]: the new internal state
    and the value handed to [onSelectionChange]. *)
Definition emitSelection (p : SelectionProps) (nextNodes nextConnections : list string)
    (previous : CanvasSelection) : CanvasSelection * CanvasSelection :=
  ({| nodes := match selectedNodes p with None => nextNodes | Some _ => nodes previous end;
      connections :=
        match selectedConnections p with None => nextConnections | Some _ => connections previous end |},
   {| nodes := default nextNodes (selectedNodes p);
      connections := default nextConnections (selectedConnections p) |}).

(** [allowMultiSelectRef.current && (event.metaKey || event.ctrlKey || event.shiftKey)] *)
Definition isMulti (p : SelectionProps) (ev : MouseEvent) : bool :=
  allowMultiSelect p && (metaKey ev || ctrlKey ev || shiftKey ev).

(** [if (s.has(v)) s.delete(v) else s.add(v)] *)
Definition setToggle (s : list string) (v : string) : list string :=
  if setHas s v then setDelete s v else setAdd s v.

Definition updateNodeSelection (p : SelectionProps) (id : string) (ev : MouseEvent)
    (internal : CanvasSelection) : CanvasSelection * CanvasSelection :=
  let multi := isMulti p ev in
  let current := selection p internal in
  let currentNodes := newSet (nodes current) in
  let nextNodes := if multi then setToggle currentNodes id else [id] in
  let nextConnections := if multi then connections current else [] in
  emitSelection p (uniqueList nextNodes) (uniqueList nextConnections) internal.

(** The [EVENT_CLICK] handler bound by [attachConnectionHandlers] for the
    connection whose declared identity is [id]; without an original event
    the handler returns before doing anything. *)
Definition connectionClick (p : SelectionProps) (id : string) (originalEvent : option MouseEvent)
    (internal : CanvasSelection) : CanvasSelection * option CanvasSelection :=
  match originalEvent with
  | None => (internal, None)
  | Some ev =>
      let multi := isMulti p ev in
      let current := selection p internal in
      let currentConnections := newSet (connections current) in
      let nextConnections := if multi then setToggle currentConnections id else setAdd [] id in
      let nextNodes := if multi then nodes current else [] in
      let '(internal', emitted) :=
        emitSelection p (uniqueList nextNodes) (uniqueList nextConnections) internal in
      (internal', Some emitted)
  end.

(** [clearSelection = () => emitSelection([], [])] *)
Definition clearSelection (p : SelectionProps) (internal : CanvasSelection)
    : CanvasSelection * CanvasSelection :=
  emitSelection p [] [] internal.

(** [handleCanvasClick]: a click whose target lies inside a node, a port or
    a connection delete button is ignored, any other click clears. *)
Definition handleCanvasClick (p : SelectionProps) (insideNodePortOrDelete : bool)
    (internal : CanvasSelection) : CanvasSelection * option CanvasSelection :=
  if insideNodePortOrDelete then (internal, None)
  else let '(internal', emitted) := clearSelection p internal in (internal', Some emitted).

(** The internal transitions of the selection state. *)
Inductive SelectionEvent :=
  | NodeClick (id : string) (ev : MouseEvent)
  | ConnectionClick (id : string) (originalEvent : option MouseEvent)
  | CanvasClick (insideNodePortOrDelete : bool).

Definition selectionStep (p : SelectionProps) (e : SelectionEvent) (internal : CanvasSelection)
    : CanvasSelection * option CanvasSelection :=
  match e with
  | NodeClick id ev =>
      let '(internal', emitted) := updateNodeSelection p id ev internal in (internal', Some emitted)
  | ConnectionClick id oev => connectionClick p id oev internal
  | CanvasClick inside => handleCanvasClick p inside internal
  end.

(** The node list and the connection list that the handler of an event
    computes before it hands them over for emission, when it emits at
    all: [nextNodes] and [nextConnections] on a click on a node or on a
    connection, the two empty lists of [clearSelection] on a click on
    the canvas. *)
Definition nextLists (p : SelectionProps) (e : SelectionEvent) (internal : CanvasSelection)
    : option (list string * list string) :=
  match e with
  | NodeClick id ev =>
      let multi := isMulti p ev in
      let current := selection p internal in
      Some (if multi then setToggle (newSet (nodes current)) id else [id],
            if multi then connections current else [])
  | ConnectionClick id (Some ev) =>
      let multi := isMulti p ev in
      let current := selection p internal in
      Some (if multi then nodes current else [],
            if multi then setToggle (newSet (connections current)) id else setAdd [] id)
  | ConnectionClick id None => None
  | CanvasClick inside => if inside then None else Some ([], [])
  end.

(** A run of the component: every event arrives under the props of the
    render it happens in. The result is the final internal state and the
    emissions, oldest first, each with the props it was emitted under. *)
Fixpoint selectionRun (steps : list (SelectionProps * SelectionEvent)) (internal : CanvasSelection)
    : CanvasSelection * list (SelectionProps * CanvasSelection) :=
  match steps with
  | [] => (internal, [])
  | (p, e) :: rest =>
      let '(internal', emitted) := selectionStep p e internal in
      let '(final, out) := selectionRun rest internal' in
      (final, match emitted with Some s => (p, s) :: out | None => out end)
  end.

(* ===================================================================== *)
(** * 4. Pan/zoom controller ([usePanZoom])                               *)
(* ===================================================================== *)

Record ZoomConfig := {
  minZoom : Q;
  maxZoom : Q;
  zoomStep : Q
}.

(** The defaults of [FlowCanvas]: [minZoom = 0.25, maxZoom = 2, zoomStep = 0.1]. *)
Definition defaultZoomConfig : ZoomConfig :=
  {| minZoom := (1 # 4)%Q; maxZoom := 2%Q; zoomStep := (1 # 10)%Q |}.

Record Point := {
  pt_x : Q;
  pt_y : Q
}.

(** [zoomState] is the React state, [zoomRef] the ref read by the
    handlers, [pan] the pan offset and [instanceZoom] the zoom of the
    engine instance, when there is one. *)
Record PanZoom := {
  zoomState : Q;
  zoomRef : Q;
  pan : Point;
  instanceZoom : option Q
}.

(** [useState(zoomProp ?? 1)], [useState({ x: 0, y: 0 })] *)
Definition initialPanZoom (zoomProp : option Q) (instance : option Q) : PanZoom :=
  {| zoomState := default 1%Q zoomProp; zoomRef := default 1%Q zoomProp;
     pan := {| pt_x := 0%Q; pt_y := 0%Q |}; instanceZoom := instance |}.

(** [clampZoom = (value) => Math.min(maxZoom, Math.max(minZoom, value))] *)
Definition clampZoom (cfg : ZoomConfig) (value : Q) : Q :=
  Qmin (maxZoom cfg) (Qmax (minZoom cfg) value).

(** The zoom [z] lies within the configured bounds. *)
Definition inZoomRange (cfg : ZoomConfig) (z : Q) : Prop :=
  (minZoom cfg <= z)%Q ∧ (z <= maxZoom cfg)%Q.

(** [setZoomInternal(value)] returns the clamped value. *)
Definition setZoomInternal (cfg : ZoomConfig) (value : Q) (st : PanZoom) : PanZoom * Q :=
  let clamped := clampZoom cfg value in
  ({| zoomState := if Qeq_bool (zoomState st) clamped then zoomState st else clamped;
      zoomRef := clamped;
      pan := pan st;
      instanceZoom := (λ _, clamped) <$> instanceZoom st |},
   clamped).

Definition setZoom (cfg : ZoomConfig) (value : Q) (st : PanZoom) : PanZoom :=
  fst (setZoomInternal cfg value st).

Definition zoomIn (cfg : ZoomConfig) (st : PanZoom) : PanZoom :=
  fst (setZoomInternal cfg (zoomRef st + zoomStep cfg)%Q st).

Definition zoomOut (cfg : ZoomConfig) (st : PanZoom) : PanZoom :=
  fst (setZoomInternal cfg (zoomRef st - zoomStep cfg)%Q st).

Record WheelEvent := {
  wheel_ctrlKey : bool;
  wheel_metaKey : bool;
  clientX : Q;
  clientY : Q;
  deltaY : Q
}.

(** The part of [getBoundingClientRect()] the handler reads. *)
Record Rect := {
  rect_left : Q;
  rect_top : Q
}.

(** The pointer position relative to the canvas. *)
Definition pointerOf (r : Rect) (ev : WheelEvent) : Point :=
  {| pt_x := (clientX ev - rect_left r)%Q; pt_y := (clientY ev - rect_top r)%Q |}.

(** [handleWheel]; [canvasRect] is [None] when [canvasRef.current] is. *)
Definition handleWheel (cfg : ZoomConfig) (canvasRect : option Rect) (ev : WheelEvent)
    (st : PanZoom) : PanZoom :=
  match canvasRect with
  | None => st
  | Some r =>
      if negb (wheel_ctrlKey ev || wheel_metaKey ev) then st
      else
        let pointerX := (clientX ev - rect_left r)%Q in
        let pointerY := (clientY ev - rect_top r)%Q in
        let graphX := ((pointerX - pt_x (pan st)) / zoomRef st)%Q in
        let graphY := ((pointerY - pt_y (pan st)) / zoomRef st)%Q in
        let direction := if Qlt_le_dec 0%Q (deltaY ev) then (-1)%Q else 1%Q in
        let '(st', nextZoom) := setZoomInternal cfg (zoomRef st + direction * zoomStep cfg)%Q st in
        let nextPanX := (pointerX - graphX * nextZoom)%Q in
        let nextPanY := (pointerY - graphY * nextZoom)%Q in
        {| zoomState := zoomState st'; zoomRef := zoomRef st';
           pan := {| pt_x := nextPanX; pt_y := nextPanY |};
           instanceZoom := instanceZoom st' |}
  end.

(** The graph-space point shown at viewport pixel [p]. *)
Definition graphPoint (p : Point) (st : PanZoom) : Point :=
  {| pt_x := ((pt_x p - pt_x (pan st)) / zoomRef st)%Q;
     pt_y := ((pt_y p - pt_y (pan st)) / zoomRef st)%Q |}.

(* ===================================================================== *)
(** * 5. The diagramming engine                                           *)
(* ===================================================================== *)

(** The engine is an external collaborator. Its state is modelled as far
    as the wrapper observes it: endpoints registered under their uuid, and
    a store of connection objects indexed by handle. A deleted connection
    stays in the store, marked as deleted: the wrapper may still hold it. *)

(** The element carrying class [jr-node], with its attributes. *)
Record NodeElement := {
  attributes : gmap string string
}.

(** A DOM element, with the result of [closest('.jr-node')]. *)
Record DomElement := {
  closest_jr_node : option NodeElement
}.

Record Endpoint := {
  ep_portId : option string;
  ep_element : option DomElement
}.

Record EngineConnection := {
  conn_sourceUuid : string;              (* getUuids()[0] *)
  conn_targetUuid : string;              (* getUuids()[1] *)
  conn_deleted : bool;
  conn_idParam : option string;          (* parameter 'jr-connection-id' *)
  conn_classParam : option string;       (* parameter 'jr-connection-class' *)
  conn_handlersParam : bool;             (* parameter 'jr-connection-handlers' *)
  conn_clickData : option FlowConnection; (* the [data] captured by the bound handlers *)
  conn_overlays : list string;
  conn_detachable : bool;
  conn_label : string;
  conn_classes : list string
}.

Record Engine := {
  eng_endpoints : gmap string Endpoint;
  eng_connections : list EngineConnection
}.

(** The payload of the engine's connection and detachment events. *)
Record ConnectionInfo := {
  info_connection : nat;
  info_sourceEndpoint : option Endpoint;
  info_targetEndpoint : option Endpoint
}.

Definition markDeleted (c : EngineConnection) : EngineConnection :=
  {| conn_sourceUuid := conn_sourceUuid c; conn_targetUuid := conn_targetUuid c;
     conn_deleted := true;
     conn_idParam := conn_idParam c; conn_classParam := conn_classParam c;
     conn_handlersParam := conn_handlersParam c; conn_clickData := conn_clickData c;
     conn_overlays := conn_overlays c; conn_detachable := conn_detachable c;
     conn_label := conn_label c; conn_classes := conn_classes c |}.

(** The state change of [deleteConnection(connection, ...)]. *)
Definition engineDelete (h : nat) (eng : Engine) : Engine :=
  {| eng_endpoints := eng_endpoints eng;
     eng_connections := alter markDeleted h (eng_connections eng) |}.

Definition newConnection (s t : string) (detachable : bool) : EngineConnection :=
  {| conn_sourceUuid := s; conn_targetUuid := t; conn_deleted := false;
     conn_idParam := None; conn_classParam := None;
     conn_handlersParam := false; conn_clickData := None;
     conn_overlays := []; conn_detachable := detachable;
     conn_label := EmptyString; conn_classes := [] |}.

(** [connect({ uuids: [s, t], detachable, deleteEndpointsOnDetach: false })]:
    a new connection between the endpoints registered under the two
    uuids, or nothing when one of them is not registered. *)
Definition engineConnect (s t : string) (detachable : bool) (eng : Engine) : Engine * option nat :=
  match eng_endpoints eng !! s, eng_endpoints eng !! t with
  | Some _, Some _ =>
      ({| eng_endpoints := eng_endpoints eng;
          eng_connections := eng_connections eng ++ [newConnection s t detachable] |},
       Some (length (eng_connections eng)))
  | _, _ => (eng, None)
  end.

(** [flattenConnections(instance)]: the live connections, with their handles. *)
Definition flattenConnections (eng : Engine) : list (nat * EngineConnection) :=
  filter (λ hc, conn_deleted hc.2 = false) (imap (λ h c, (h, c)) (eng_connections eng)).

Definition connectionInfo (eng : Engine) (h : nat) (c : EngineConnection) : ConnectionInfo :=
  {| info_connection := h;
     info_sourceEndpoint := eng_endpoints eng !! conn_sourceUuid c;
     info_targetEndpoint := eng_endpoints eng !! conn_targetUuid c |}.

(* ===================================================================== *)
(** * 6. Engine event handlers ([useJsPlumbCanvas], instance effect)      *)
(* ===================================================================== *)

(** [element?.closest('.jr-node')?.getAttribute(NODE_ID_ATTRIBUTE)] *)
Definition endpointNodeId (e : option Endpoint) : option string :=
  match e with
  | Some ep =>
      match ep_element ep with
      | Some el =>
          match closest_jr_node el with
          | Some n => attributes n !! NODE_ID_ATTRIBUTE
          | None => None
          end
      | None => None
      end
  | None => None
  end.

(** [endpoint?.portId ?? undefined] *)
Definition endpointPortId (e : option Endpoint) : option string :=
  match e with
  | Some ep => ep_portId ep
  | None => None
  end.

(** [portId === DEFAULT_PORT_ID ? undefined : portId] *)
Definition normalizePortId (p : option string) : option string :=
  if bool_decide (p = Some DEFAULT_PORT_ID) then None else p.

Definition toDraftConnection (info : ConnectionInfo) : option DraftConnection :=
  let sourcePortId := endpointPortId (info_sourceEndpoint info) in
  let targetPortId := endpointPortId (info_targetEndpoint info) in
  let sourceNodeId := endpointNodeId (info_sourceEndpoint info) in
  let targetNodeId := endpointNodeId (info_targetEndpoint info) in
  if negb (truthy sourceNodeId) || negb (truthy targetNodeId) then None
  else
    match sourceNodeId, targetNodeId with
    | Some s, Some t =>
        Some {| draft_source := {| nodeId := s; portId := normalizePortId sourcePortId |};
                draft_target := {| nodeId := t; portId := normalizePortId targetPortId |} |}
    | _, _ => None
    end.

(** What [onLinkCreate] returns: [boolean | void]. *)
Inductive CreateResult := ReturnsTrue | ReturnsFalse | ReturnsNothing.

(** The callbacks of the embedding application that the handlers read
    through their refs; [None]/[false] when the callback is not supplied. *)
Record Callbacks := {
  onLinkCreate : option (DraftConnection → CreateResult);
  onLinkDetached : bool
}.

Inductive Notification :=
  | LinkCreate (d : DraftConnection)
  | LinkDetached (d : DraftConnection).

(** The draft a notification delivers. *)
Definition deliveredDraft (n : Notification) : DraftConnection :=
  match n with LinkCreate d | LinkDetached d => d end.

(** The draft names no port by the reserved default identity. *)
Definition noDefaultPort (d : DraftConnection) : Prop :=
  portId (draft_source d) ≠ Some DEFAULT_PORT_ID
  ∧ portId (draft_target d) ≠ Some DEFAULT_PORT_ID.

(** The canvas: the engine, [syncingRef.current] and the notifications
    delivered to the application so far, oldest first. *)
Record Canvas := {
  cv_engine : Engine;
  cv_syncing : bool;
  cv_notifications : list Notification
}.

Definition notify (n : Notification) (cv : Canvas) : Canvas :=
  {| cv_engine := cv_engine cv; cv_syncing := cv_syncing cv;
     cv_notifications := cv_notifications cv ++ [n] |}.

(** The [EVENT_CONNECTION_DETACHED] handler. *)
Definition onConnectionDetached (cb : Callbacks) (info : ConnectionInfo) (cv : Canvas) : Canvas :=
  if cv_syncing cv then cv
  else
    match toDraftConnection info with
    | None => cv
    | Some draft => if onLinkDetached cb then notify (LinkDetached draft) cv else cv
    end.

(** [jp.deleteConnection(connection, { fireEvent })]: a live connection is
    removed and, when [fireEvent] is set, the engine fires its detachment
    event, which runs the bound handler. *)
Definition jpDeleteConnection (cb : Callbacks) (h : nat) (fireEvent : bool) (cv : Canvas) : Canvas :=
  match eng_connections (cv_engine cv) !! h with
  | Some c =>
      if conn_deleted c then cv
      else
        let cv' := {| cv_engine := engineDelete h (cv_engine cv); cv_syncing := cv_syncing cv;
                      cv_notifications := cv_notifications cv |} in
        if fireEvent then onConnectionDetached cb (connectionInfo (cv_engine cv) h c) cv' else cv'
  | None => cv
  end.

(** The [EVENT_CONNECTION] handler. *)
Definition onConnection (cb : Callbacks) (info : ConnectionInfo) (originalEvent : option MouseEvent)
    (cv : Canvas) : Canvas :=
  if cv_syncing cv || negb (bool_decide (is_Some originalEvent)) then cv
  else
    match toDraftConnection info with
    | None => cv
    | Some draft =>
        match onLinkCreate cb with
        | None => cv
        | Some handler =>
            let cv' := notify (LinkCreate draft) cv in
            match handler draft with
            | ReturnsFalse => jpDeleteConnection cb (info_connection info) false cv'
            | _ => cv'
            end
        end
    end.

(* ===================================================================== *)
(** * 7. Connection reconciler ([useJsPlumbCanvas], connection effect)    *)
(* ===================================================================== *)

(** The class string of an engine component ([Component.cssClass]) is
    held as the list of the class names it is made of, in order and with
    their repetitions (a class name is taken to hold no space). The
    engine's [addClass] splits the string at the spaces, pushes the name
    and joins again, without looking whether the name is there already;
    its [removeClass] filters every occurrence of the name out. *)
Definition addClass (cls : string) (c : list string) : list string := c ++ [cls].
Definition removeClass (cls : string) (c : list string) : list string :=
  filter (λ x, x ≠ cls) c.

(** [attachConnectionHandlers]: guarded by the handlers marker; the bound
    handlers close over the [data] of the first attachment. *)
Definition attachConnectionHandlers (data : FlowConnection) (c : EngineConnection) : EngineConnection :=
  if conn_handlersParam c then c
  else
    {| conn_sourceUuid := conn_sourceUuid c; conn_targetUuid := conn_targetUuid c;
       conn_deleted := conn_deleted c;
       conn_idParam := conn_idParam c; conn_classParam := conn_classParam c;
       conn_handlersParam := true; conn_clickData := Some data;
       conn_overlays := conn_overlays c; conn_detachable := conn_detachable c;
       conn_label := conn_label c; conn_classes := conn_classes c |}.

(** [ensureDeleteOverlay]: guarded by the existence of the overlay id. *)
Definition ensureDeleteOverlay (data : FlowConnection) (c : EngineConnection) : EngineConnection :=
  let overlayId := "delete-" +:+ fc_id data in
  if bool_decide (overlayId ∈ conn_overlays c) then c
  else
    {| conn_sourceUuid := conn_sourceUuid c; conn_targetUuid := conn_targetUuid c;
       conn_deleted := conn_deleted c;
       conn_idParam := conn_idParam c; conn_classParam := conn_classParam c;
       conn_handlersParam := conn_handlersParam c; conn_clickData := conn_clickData c;
       conn_overlays := conn_overlays c ++ [overlayId]; conn_detachable := conn_detachable c;
       conn_label := conn_label c; conn_classes := conn_classes c |}.

(** [updateConnectionMetadata]; [selected] is [selection.connections]. *)
Definition updateConnectionMetadata (selected : list string) (data : FlowConnection)
    (c : EngineConnection) : EngineConnection :=
  let previousClass := conn_classParam c in
  let classes1 :=
    if truthy previousClass && bool_decide (previousClass ≠ fc_className data)
    then removeClass (default EmptyString previousClass) (conn_classes c) else conn_classes c in
  let classes2 :=
    if truthy (fc_className data) then addClass (default EmptyString (fc_className data)) classes1
    else classes1 in
  let classes3 := removeClass "jr-selected" (addClass "jr-connection" classes2) in
  let classes4 :=
    if bool_decide (fc_id data ∈ selected) then addClass "jr-selected" classes3 else classes3 in
  {| conn_sourceUuid := conn_sourceUuid c; conn_targetUuid := conn_targetUuid c;
     conn_deleted := conn_deleted c;
     conn_idParam := Some (fc_id data);
     conn_classParam := Some (default EmptyString (fc_className data));
     conn_handlersParam := conn_handlersParam c; conn_clickData := conn_clickData c;
     conn_overlays := conn_overlays c;
     conn_detachable := negb (bool_decide (fc_editable data = Some false));
     conn_label := default EmptyString (fc_label data);
     conn_classes := classes4 |}.

(** The identity tag a pass sees on a connection: the id parameter, when
    it is truthy. *)
Definition tagOf (c : EngineConnection) : option string :=
  if truthy (conn_idParam c) then conn_idParam c else None.

(** [`${sourceUuid}|${targetUuid}`] *)
Definition pairKey (s t : string) : string := s +:+ "|" +:+ t.

Definition connKey (c : EngineConnection) : string :=
  pairKey (conn_sourceUuid c) (conn_targetUuid c).

(** [isSameUuid(conn, source, target)] *)
Definition isSameUuid (c : EngineConnection) (s t : string) : bool :=
  bool_decide (conn_sourceUuid c = s) && bool_decide (conn_targetUuid c = t).

(** The resolved endpoint identities of a declared connection. *)
Definition sourceUuidOf (data : FlowConnection) : string :=
  getEndpointUuid (nodeId (fc_source data)) (portId (fc_source data)).
Definition targetUuidOf (data : FlowConnection) : string :=
  getEndpointUuid (nodeId (fc_target data)) (portId (fc_target data)).

(** Both endpoints are in the endpoint table of the hook. *)
Definition resolvable (endpointMap : gmap string Endpoint) (data : FlowConnection) : bool :=
  bool_decide (is_Some (endpointMap !! sourceUuidOf data))
  && bool_decide (is_Some (endpointMap !! targetUuidOf data)).

(** The two lookup tables built at the start of a pass. *)
Definition indexConnection (acc : gmap string nat * gmap string nat) (hc : nat * EngineConnection)
    : gmap string nat * gmap string nat :=
  (match tagOf hc.2 with
   | Some identifier => <[identifier := hc.1]> acc.1
   | None => acc.1
   end,
   <[connKey hc.2 := hc.1]> acc.2).

Definition indexConnections (eng : Engine) : gmap string nat * gmap string nat :=
  fold_left indexConnection (flattenConnections eng) (∅, ∅).

(** The state of a pass: the engine, the two tables of the pass and
    [connectionMapRef.current]. *)
Record PassState := {
  ps_engine : Engine;
  ps_existing : gmap string nat;
  ps_byUuid : gmap string nat;
  ps_connectionMap : gmap string nat
}.

(** Apply [f] to the connection object behind handle [h]. *)
Definition updateConnection (f : EngineConnection → EngineConnection) (h : nat) (eng : Engine) : Engine :=
  {| eng_endpoints := eng_endpoints eng;
     eng_connections := alter f h (eng_connections eng) |}.

(** The tail of the loop body once a connection object is at hand:
    handlers, overlay, [connectionMapRef] entry, metadata, and
    [existing.delete(data.id)]. *)
Definition claimConnection (selected : list string) (data : FlowConnection) (h : nat)
    (st : PassState) : PassState :=
  {| ps_engine :=
       updateConnection (updateConnectionMetadata selected data) h
         (updateConnection (ensureDeleteOverlay data) h
            (updateConnection (attachConnectionHandlers data) h (ps_engine st)));
     ps_existing := delete (fc_id data) (ps_existing st);
     ps_byUuid := ps_byUuid st;
     ps_connectionMap := <[fc_id data := h]> (ps_connectionMap st) |}.

(** The identity-tag lookup: a connection tagged with [data.id] whose
    endpoints differ from the resolved pair is deleted, silently. *)
Definition lookupByTag (data : FlowConnection) (st : PassState) : PassState * option nat :=
  match ps_existing st !! fc_id data with
  | Some h =>
      match eng_connections (ps_engine st) !! h with
      | Some c =>
          if isSameUuid c (sourceUuidOf data) (targetUuidOf data) then (st, Some h)
          else
            ({| ps_engine := engineDelete h (ps_engine st);
                ps_existing := ps_existing st;
                ps_byUuid := ps_byUuid st;
                ps_connectionMap := delete (fc_id data) (ps_connectionMap st) |}, None)
      | None => (st, None)
      end
  | None => (st, None)
  end.

(** The endpoint-pair lookup, tried when the tag lookup gave nothing. *)
Definition lookupByPair (data : FlowConnection) (st : PassState) : PassState * option nat :=
  let key := pairKey (sourceUuidOf data) (targetUuidOf data) in
  match ps_byUuid st !! key with
  | Some reused =>
      ({| ps_engine := ps_engine st;
          ps_existing := ps_existing st;
          ps_byUuid := delete key (ps_byUuid st);
          ps_connectionMap := ps_connectionMap st |}, Some reused)
  | None => (st, None)
  end.

(** The creation branch: [jp.connect(...)], and when the engine returns a
    connection, the tail of the loop body on it. When it returns nothing
    the body returns at once (and [existing] keeps its entry). *)
Definition connectAndClaim (selected : list string) (data : FlowConnection) (st : PassState)
    : PassState :=
  let '(eng, created) :=
    engineConnect (sourceUuidOf data) (targetUuidOf data)
      (negb (bool_decide (fc_editable data = Some false))) (ps_engine st) in
  match created with
  | None => st
  | Some h =>
      claimConnection selected data h
        {| ps_engine := eng; ps_existing := ps_existing st;
           ps_byUuid := ps_byUuid st; ps_connectionMap := ps_connectionMap st |}
  end.

(** The body from the first [if (!connection)] on, when the tag lookup
    left [connection] undefined: endpoint-pair reuse, else creation. *)
Definition reuseOrCreate (selected : list string) (data : FlowConnection) (st : PassState)
    : PassState :=
  let '(st', reused) := lookupByPair data st in
  match reused with
  | Some h => claimConnection selected data h st'
  | None => connectAndClaim selected data st'
  end.

(** The body of [connections.forEach((data) => ...)]. A connection found
    by its tag skips both [if (!connection)] blocks. *)
Definition reconcileOne (endpointMap : gmap string Endpoint) (selected : list string)
    (st : PassState) (data : FlowConnection) : PassState :=
  if negb (resolvable endpointMap data) then st
  else
    let '(st', byTag) := lookupByTag data st in
    match byTag with
    | Some h => claimConnection selected data h st'
    | None => reuseOrCreate selected data st'
    end.

(** [existing.forEach((connection, id) => ...)]: what is left in
    [existing] is deleted, silently. *)
Definition sweepOne (id : string) (h : nat) (acc : Engine * gmap string nat)
    : Engine * gmap string nat :=
  (engineDelete h acc.1, delete id acc.2).

Definition sweep (st : PassState) : Engine * gmap string nat :=
  map_fold sweepOne (ps_engine st, ps_connectionMap st) (ps_existing st).

(** The state with which the loop over the declared connections starts. *)
Definition startPass (connectionMap : gmap string nat) (eng : Engine) : PassState :=
  {| ps_engine := eng;
     ps_existing := (indexConnections eng).1;
     ps_byUuid := (indexConnections eng).2;
     ps_connectionMap := connectionMap |}.

(** One reconciliation pass: the engine and [connectionMapRef.current]
    after it. *)
Definition reconcileConnections (endpointMap : gmap string Endpoint) (selected : list string)
    (declared : list FlowConnection) (connectionMap : gmap string nat) (eng : Engine)
    : Engine * gmap string nat :=
  sweep (fold_left (reconcileOne endpointMap selected) declared (startPass connectionMap eng)).

(** The three updates of a claimed connection, in the order of the loop
    body. *)
Definition touch (selected : list string) (data : FlowConnection) (c : EngineConnection)
    : EngineConnection :=
  updateConnectionMetadata selected data (ensureDeleteOverlay data (attachConnectionHandlers data c)).

(** ** Conditions on the input of a pass *)

(** The identity tags carried by the live connections. *)
Definition liveTags (eng : Engine) : list string :=
  omap (λ hc, tagOf hc.2) (flattenConnections eng).

(** No two live connections carry the same identity tag. *)
Definition uniqueTags (eng : Engine) : Prop := NoDup (liveTags eng).

(** Declared identities are unique and not empty. *)
Definition wellFormedIds (declared : list FlowConnection) : Prop :=
  NoDup (fc_id <$> declared) ∧ Forall (λ data, fc_id data ≠ EmptyString) declared.

(** The endpoints of every resolvable declared connection are registered
    in the engine: the endpoint table of the hook mirrors the engine. *)
Definition endpointsRegistered (endpointMap : gmap string Endpoint)
    (declared : list FlowConnection) (eng : Engine) : Prop :=
  Forall (λ data, resolvable endpointMap data = true → resolvable (eng_endpoints eng) data = true)
         declared.

(** A live connection filed under the pair key of a resolvable declared
    connection spans the resolved pair of that connection, and carries
    either no tag or the identity of that connection. Under this
    condition the endpoint-pair lookup meets untagged connections only. *)
Definition pairLookupMeetsUntagged (endpointMap : gmap string Endpoint)
    (declared : list FlowConnection) (eng : Engine) : Prop :=
  Forall (λ data,
    resolvable endpointMap data = true →
    Forall (λ hc,
      connKey hc.2 = pairKey (sourceUuidOf data) (targetUuidOf data) →
      isSameUuid hc.2 (sourceUuidOf data) (targetUuidOf data) = true
      ∧ (tagOf hc.2 = None ∨ tagOf hc.2 = Some (fc_id data)))
      (flattenConnections eng))
    declared.

(** ** The invariant of the loop over the declared connections

    [claimed] are the declared connections that own a connection so far,
    [swept] the identities already removed from [existing]; [eng0] is the
    engine at the start of the pass. *)
Record PassInvariant (eng0 : Engine) (claimed : list FlowConnection) (swept : list string)
    (st : PassState) : Prop := {
  inv_endpoints : eng_endpoints (ps_engine st) = eng_endpoints eng0;
  inv_uuids : ∀ h c0,
    eng_connections eng0 !! h = Some c0 →
    ∃ c, eng_connections (ps_engine st) !! h = Some c
         ∧ conn_sourceUuid c = conn_sourceUuid c0 ∧ conn_targetUuid c = conn_targetUuid c0;
  inv_unique : ∀ h1 h2 c1 c2 t,
    eng_connections (ps_engine st) !! h1 = Some c1 →
    eng_connections (ps_engine st) !! h2 = Some c2 →
    conn_deleted c1 = false → conn_deleted c2 = false →
    tagOf c1 = Some t → tagOf c2 = Some t → h1 = h2;
  inv_existing : ∀ t h,
    ps_existing st !! t = Some h →
    ∃ c, eng_connections (ps_engine st) !! h = Some c ∧ conn_deleted c = false ∧ tagOf c = Some t;
  inv_tagged : ∀ h c t,
    eng_connections (ps_engine st) !! h = Some c → conn_deleted c = false → tagOf c = Some t →
    (∃ data, data ∈ claimed ∧ fc_id data = t
             ∧ conn_sourceUuid c = sourceUuidOf data ∧ conn_targetUuid c = targetUuidOf data)
    ∨ ps_existing st !! t = Some h;
  inv_unswept : ∀ t h,
    t ∉ swept → (indexConnections eng0).1 !! t = Some h → ps_existing st !! t = Some h;
  inv_swept : ∀ t, t ∈ swept → ps_existing st !! t = None;
  inv_claimed : ∀ data,
    data ∈ claimed →
    ∃ h c, eng_connections (ps_engine st) !! h = Some c ∧ conn_deleted c = false
           ∧ conn_idParam c = Some (fc_id data)
           ∧ conn_sourceUuid c = sourceUuidOf data ∧ conn_targetUuid c = targetUuidOf data;
  inv_byUuid : ∀ k u,
    ps_byUuid st !! k = Some u →
    ∃ c0, eng_connections eng0 !! u = Some c0 ∧ conn_deleted c0 = false ∧ connKey c0 = k
          ∧ (tagOf c0 = None → eng_connections (ps_engine st) !! u = Some c0);
  inv_indexed : ∀ t h,
    ps_existing st !! t = Some h → (indexConnections eng0).1 !! t = Some h;
  inv_untagged : ∀ h c0,
    eng_connections eng0 !! h = Some c0 → conn_deleted c0 = false → tagOf c0 = None →
    ∃ c, eng_connections (ps_engine st) !! h = Some c ∧ conn_deleted c = false
}.

(* ===================================================================== *)
(** * 8. Pan/zoom controller: reset, drag gesture, focus                  *)
(* ===================================================================== *)

(** [resetZoom]: [setPan({ x: 0, y: 0 }); setZoomInternal(1)] *)
Definition resetZoom (cfg : ZoomConfig) (st : PanZoom) : PanZoom :=
  fst (setZoomInternal cfg 1%Q
         {| zoomState := zoomState st; zoomRef := zoomRef st;
            pan := {| pt_x := 0%Q; pt_y := 0%Q |}; instanceZoom := instanceZoom st |}).

(** The effect on [zoomProp]: [if (typeof zoomProp === 'number') setZoomInternal(zoomProp)]. *)
Definition applyZoomProp (cfg : ZoomConfig) (zoomProp : option Q) (st : PanZoom) : PanZoom :=
  match zoomProp with
  | Some z => fst (setZoomInternal cfg z st)
  | None => st
  end.

(** [panStartRef.current] *)
Record PanStart := {
  start_x : Q;
  start_y : Q;
  start_originX : Q;
  start_originY : Q
}.

(** The controller with its drag gesture: the view, [panStartRef.current]
    and whether the two window listeners are registered. *)
Record PanGesture := {
  pg_view : PanZoom;
  pg_panStart : option PanStart;
  pg_moveListener : bool;
  pg_upListener : bool
}.

(** The fields of the mouse-down event that the handler reads;
    [down_inside] is the result of the three [target.closest(...)] tests. *)
Record MouseDown := {
  down_button : nat;
  down_inside : bool;
  down_clientX : Q;
  down_clientY : Q
}.

Definition setPan (p : Point) (st : PanZoom) : PanZoom :=
  {| zoomState := zoomState st; zoomRef := zoomRef st; pan := p;
     instanceZoom := instanceZoom st |}.

Definition handlePanMove (x y : Q) (g : PanGesture) : PanGesture :=
  match pg_panStart g with
  | None => g
  | Some start =>
      let dx := (x - start_x start)%Q in
      let dy := (y - start_y start)%Q in
      {| pg_view := setPan {| pt_x := (start_originX start + dx)%Q;
                              pt_y := (start_originY start + dy)%Q |} (pg_view g);
         pg_panStart := pg_panStart g;
         pg_moveListener := pg_moveListener g; pg_upListener := pg_upListener g |}
  end.

Definition handlePanEnd (g : PanGesture) : PanGesture :=
  {| pg_view := pg_view g; pg_panStart := None;
     pg_moveListener := false; pg_upListener := false |}.

Definition handleCanvasMouseDown (ev : MouseDown) (g : PanGesture) : PanGesture :=
  if negb (bool_decide (down_button ev = 0)) then g
  else if down_inside ev then g
  else
    {| pg_view := pg_view g;
       pg_panStart := Some {| start_x := down_clientX ev; start_y := down_clientY ev;
                              start_originX := pt_x (pan (pg_view g));
                              start_originY := pt_y (pan (pg_view g)) |};
       pg_moveListener := true; pg_upListener := true |}.

(** What reaches the controller while a gesture may be under way: the
    window dispatches a move or an up event to a listener only while it
    is registered. *)
Inductive PointerEvent :=
  | PointerDown (ev : MouseDown)
  | PointerMove (x y : Q)
  | PointerUp.

Definition pointerStep (g : PanGesture) (e : PointerEvent) : PanGesture :=
  match e with
  | PointerDown ev => handleCanvasMouseDown ev g
  | PointerMove x y => if pg_moveListener g then handlePanMove x y g else g
  | PointerUp => if pg_upListener g then handlePanEnd g else g
  end.

(** The controller at mount. *)
Definition initialPanGesture (view : PanZoom) : PanGesture :=
  {| pg_view := view; pg_panStart := None; pg_moveListener := false; pg_upListener := false |}.

(** The part of [getBoundingClientRect()] that [focusNode] reads. *)
Record Size := {
  size_width : Q;
  size_height : Q
}.

(** The fields of a declared node that [focusNode] reads. *)
Record NodeGeometry := {
  geo_id : string;
  geo_position : Point
}.

(** [focusNode(nodeId)]; [nodeRefs] gives the bounding rectangle of the
    registered element of a node, [canvasRect] that of the canvas. *)
Definition focusNode (nodes : list NodeGeometry) (nodeRefs : gmap string Size)
    (canvasRect : option Size) (id : string) (st : PanZoom) : PanZoom :=
  match List.find (λ entry, bool_decide (geo_id entry = id)) nodes, nodeRefs !! id, canvasRect with
  | Some node, Some rect, Some canvas =>
      let width := (size_width rect / zoomRef st)%Q in
      let height := (size_height rect / zoomRef st)%Q in
      let centerX := ((pt_x (geo_position node) + width / 2) * zoomRef st)%Q in
      let centerY := ((pt_y (geo_position node) + height / 2) * zoomRef st)%Q in
      let nextPanX := (size_width canvas / 2 - centerX)%Q in
      let nextPanY := (size_height canvas / 2 - centerY)%Q in
      setPan {| pt_x := nextPanX; pt_y := nextPanY |} st
  | _, _, _ => st
  end.

(* ===================================================================== *)
(** * 9. Node registry ([useNodeRegistry])                                *)
(* ===================================================================== *)

(** [nodeRefs.current] and [portRefs.current]; an element is a handle. *)
Record Registry := {
  reg_nodeRefs : gmap string nat;
  reg_portRefs : gmap string (gmap string nat)
}.

Definition emptyRegistry : Registry :=
  {| reg_nodeRefs := ∅; reg_portRefs := ∅ |}.

Definition registerNodeRef (n : string) (element : option nat) (r : Registry) : Registry :=
  match element with
  | Some el => {| reg_nodeRefs := <[n := el]> (reg_nodeRefs r); reg_portRefs := reg_portRefs r |}
  | None => {| reg_nodeRefs := delete n (reg_nodeRefs r); reg_portRefs := delete n (reg_portRefs r) |}
  end.

Definition registerPortRef (n p : string) (element : option nat) (r : Registry) : Registry :=
  let map := default ∅ (reg_portRefs r !! n) in
  match element with
  | Some el =>
      {| reg_nodeRefs := reg_nodeRefs r; reg_portRefs := <[n := <[p := el]> map]> (reg_portRefs r) |}
  | None =>
      let map' := delete p map in
      {| reg_nodeRefs := reg_nodeRefs r;
         reg_portRefs :=
           if bool_decide (size map' = 0) then delete n (reg_portRefs r)
           else <[n := map']> (reg_portRefs r) |}
  end.

(** The ref callbacks that React runs on mount and unmount. *)
Inductive RegistryEvent :=
  | NodeRefCall (n : string) (element : option nat)
  | PortRefCall (n p : string) (element : option nat).

Definition registryStep (r : Registry) (e : RegistryEvent) : Registry :=
  match e with
  | NodeRefCall n el => registerNodeRef n el r
  | PortRefCall n p el => registerPortRef n p el r
  end.

(** [portRefs.current.get(n)?.get(p)] *)
Definition lookupPort (r : Registry) (n p : string) : option nat :=
  match reg_portRefs r !! n with
  | Some map => map !! p
  | None => None
  end.

(** [portMap?.get(port.id) ?? element]: the element an endpoint is bound to. *)
Definition portElement (r : Registry) (n p : string) : option nat :=
  match reg_nodeRefs r !! n with
  | None => None
  | Some element =>
      match reg_portRefs r !! n with
      | Some map => Some (default element (map !! p))
      | None => Some element
      end
  end.

(** No node has an empty port table. *)
Definition portMapsNonEmpty (r : Registry) : Prop :=
  ∀ n m, reg_portRefs r !! n = Some m → m ≠ ∅.

(* ===================================================================== *)
(** * 10. The playground application ([dev/App])                          *)
(* ===================================================================== *)

(** [normalize = (endpoint) => `${endpoint.nodeId}:${endpoint.portId ?? 'default'}`] *)
Definition normalize (endpoint : PortRef) : string :=
  nodeId endpoint +:+ ":" +:+ default "default" (portId endpoint).

Definition matchesDraft (connection : FlowConnection) (draft : DraftConnection) : bool :=
  bool_decide (normalize (fc_source connection) = normalize (draft_source draft))
  && bool_decide (normalize (fc_target connection) = normalize (draft_target draft)).

(** The state of the playground that the connection callbacks use: the
    declared connections and [connectionCounter.current]. *)
Record AppState := {
  app_connections : list FlowConnection;
  app_counter : nat
}.

(** [handleLinkCreate]: appends a connection with identity
    [`edge-${connectionCounter.current++}`]; it returns [true]. *)
Definition handleLinkCreate (draft : DraftConnection) (s : AppState) : AppState :=
  {| app_connections :=
       app_connections s ++
       [ {| fc_id := "edge-" +:+ pretty (app_counter s);
            fc_source := draft_source draft; fc_target := draft_target draft;
            fc_label := Some "New link"; fc_className := None; fc_editable := None |} ];
     app_counter := S (app_counter s) |}.

(** [handleLinkDetached]: drops the connections that match the draft. *)
Definition handleLinkDetached (draft : DraftConnection) (s : AppState) : AppState :=
  {| app_connections := filter (λ c, matchesDraft c draft = false) (app_connections s);
     app_counter := app_counter s |}.

(** [handleDeleteLink] *)
Definition handleDeleteLink (connection : FlowConnection) (s : AppState) : AppState :=
  {| app_connections := filter (λ c, fc_id c ≠ fc_id connection) (app_connections s);
     app_counter := app_counter s |}.

(** The connection part of [handleDeleteNode]. *)
Definition handleDeleteNode (n : string) (s : AppState) : AppState :=
  {| app_connections :=
       filter (λ c, nodeId (fc_source c) ≠ n ∧ nodeId (fc_target c) ≠ n) (app_connections s);
     app_counter := app_counter s |}.

(** [initialConnections], and [useRef(initialConnections.length + 1)]. *)
Definition initialConnections : list FlowConnection :=
  [ {| fc_id := "edge-1"; fc_source := {| nodeId := "capture"; portId := Some "out" |};
       fc_target := {| nodeId := "enrich"; portId := Some "in" |};
       fc_label := Some "Validate"; fc_className := None; fc_editable := None |};
    {| fc_id := "edge-2"; fc_source := {| nodeId := "enrich"; portId := Some "out" |};
       fc_target := {| nodeId := "decision"; portId := Some "in" |};
       fc_label := Some "Score"; fc_className := None; fc_editable := None |};
    {| fc_id := "edge-3"; fc_source := {| nodeId := "decision"; portId := Some "positive" |};
       fc_target := {| nodeId := "email"; portId := Some "in" |};
       fc_label := Some "Campaign"; fc_className := None; fc_editable := None |} ].

Definition initialAppState : AppState :=
  {| app_connections := initialConnections; app_counter := length initialConnections + 1 |}.

Inductive AppEvent :=
  | LinkCreated (draft : DraftConnection)
  | LinkWasDetached (draft : DraftConnection)
  | LinkDeleted (connection : FlowConnection)
  | NodeDeleted (n : string).

Definition appStep (s : AppState) (e : AppEvent) : AppState :=
  match e with
  | LinkCreated d => handleLinkCreate d s
  | LinkWasDetached d => handleLinkDetached d s
  | LinkDeleted c => handleDeleteLink c s
  | NodeDeleted n => handleDeleteNode n s
  end.

(** Every declared identity was issued by the counter: it is
    [edge-k] for some [k] below the counter. *)
Definition idsIssued (s : AppState) : Prop :=
  Forall (λ c, ∃ k, k < app_counter s ∧ fc_id c = "edge-" +:+ pretty k) (app_connections s).

(* ===================================================================== *)
(** * 11. Connection classes and what a pass keeps                        *)
(* ===================================================================== *)

Definition setClasses (classes : list string) (c : EngineConnection) : EngineConnection :=
  {| conn_sourceUuid := conn_sourceUuid c; conn_targetUuid := conn_targetUuid c;
     conn_deleted := conn_deleted c;
     conn_idParam := conn_idParam c; conn_classParam := conn_classParam c;
     conn_handlersParam := conn_handlersParam c; conn_clickData := conn_clickData c;
     conn_overlays := conn_overlays c; conn_detachable := conn_detachable c;
     conn_label := conn_label c; conn_classes := classes |}.

(** The body of the effect on [selection.connections]:
    [if (selection.connections.includes(id)) connection.addClass('jr-selected')
     else connection.removeClass('jr-selected')]. *)
Definition markSelected (selected : list string) (id : string) (c : EngineConnection)
    : EngineConnection :=
  if bool_decide (id ∈ selected) then setClasses (addClass "jr-selected" (conn_classes c)) c
  else setClasses (removeClass "jr-selected" (conn_classes c)) c.

(** [connectionMapRef.current.forEach((connection, id) => ...)] *)
Definition selectionClassEffect (selected : list string) (connectionMap : gmap string nat)
    (eng : Engine) : Engine :=
  map_fold (λ id h acc, updateConnection (markSelected selected id) h acc) eng connectionMap.

(** The hover handlers bound by [attachConnectionHandlers]. *)
Definition onMouseEnter (c : EngineConnection) : EngineConnection :=
  setClasses (addClass "jr-hover" (conn_classes c)) c.
Definition onMouseExit (c : EngineConnection) : EngineConnection :=
  setClasses (removeClass "jr-hover" (conn_classes c)) c.

(** What the wrapper never takes away from a connection object: its
    endpoints, its deletion, its bound handlers with the connection data
    they closed over, and its overlays. *)
Definition connectionKept (c c' : EngineConnection) : Prop :=
  conn_sourceUuid c' = conn_sourceUuid c ∧ conn_targetUuid c' = conn_targetUuid c
  ∧ (conn_deleted c = true → conn_deleted c' = true)
  ∧ (conn_handlersParam c = true →
     conn_handlersParam c' = true ∧ conn_clickData c' = conn_clickData c)
  ∧ (∀ o, o ∈ conn_overlays c → o ∈ conn_overlays c').

(** [eng'] keeps the endpoints and every connection object of [eng], and
    holds at most [n] more. *)
Definition engineKept (n : nat) (eng eng' : Engine) : Prop :=
  eng_endpoints eng' = eng_endpoints eng
  ∧ (∀ h c, eng_connections eng !! h = Some c →
            ∃ c', eng_connections eng' !! h = Some c' ∧ connectionKept c c')
  ∧ (length (eng_connections eng) ≤ length (eng_connections eng'))%nat
  ∧ (length (eng_connections eng') ≤ length (eng_connections eng) + n)%nat.

#[global] Instance PortMode_eq_dec : EqDecision PortMode.
Proof. solve_decision. Defined.
#[global] Instance PortRef_eq_dec : EqDecision PortRef.
Proof. solve_decision. Defined.
#[global] Instance FlowConnection_eq_dec : EqDecision FlowConnection.
Proof. solve_decision. Defined.
#[global] Instance EngineConnection_eq_dec : EqDecision EngineConnection.
Proof. solve_decision. Defined.

(** Two class lists that hold the same class names, whatever their
    order and the number of times a name is repeated. *)
Definition sameClassNames (l l' : list string) : Prop :=
  Forall (λ x, x ∈ l') l ∧ Forall (λ x, x ∈ l) l'.

(** [c'] is [c] in every field but the class list, and its class list
    holds the same class names as that of [c]. *)
Definition sameButClasses (c c' : EngineConnection) : Prop :=
  setClasses (conn_classes c) c' = c ∧ sameClassNames (conn_classes c) (conn_classes c').

(** [eng'] has the endpoints of [eng] and, handle by handle, its
    connection objects but for repeated or reordered class names. *)
Definition sameButClassLists (eng eng' : Engine) : Prop :=
  eng_endpoints eng' = eng_endpoints eng
  ∧ Forall2 sameButClasses (eng_connections eng) (eng_connections eng').

#[global] Instance sameClassNames_dec (l l' : list string) : Decision (sameClassNames l l').
Proof. unfold sameClassNames. apply _. Defined.
#[global] Instance sameButClasses_dec (c c' : EngineConnection) : Decision (sameButClasses c c').
Proof. unfold sameButClasses. apply _. Defined.

(** An engine on which a pass has nothing to create, delete or retag:
    every resolvable declared connection has a live connection tagged
    with its identity, between its resolved endpoints and carrying its
    metadata already (a claim changes nothing of it but the class list,
    and adds no class name and removes none); no tag occurs twice; and
    no live connection carries another tag. *)
Definition settled (endpointMap : gmap string Endpoint) (selected : list string)
    (declared : list FlowConnection) (eng : Engine) : Prop :=
  wellFormedIds declared
  ∧ uniqueTags eng
  ∧ Forall (λ data,
      resolvable endpointMap data = true →
      Exists (λ hc : nat * EngineConnection,
                tagOf hc.2 = Some (fc_id data)
                ∧ isSameUuid hc.2 (sourceUuidOf data) (targetUuidOf data) = true
                ∧ sameButClasses hc.2 (touch selected data hc.2))
             (flattenConnections eng)) declared
  ∧ Forall (λ t, Exists (λ data, resolvable endpointMap data = true ∧ fc_id data = t) declared)
      (liveTags eng).

(** Every live connection that carries the identity of a claimed
    declared connection carries its metadata: claiming it again would
    change nothing of it but the class list, and no class name in it. *)
Definition claimsCarried (selected : list string) (claimed : list FlowConnection)
    (eng : Engine) : Prop :=
  ∀ data h c, data ∈ claimed → eng_connections eng !! h = Some c → conn_deleted c = false →
              tagOf c = Some (fc_id data) → sameButClasses c (touch selected data c).

(* ===================================================================== *)
(** * 12. Endpoint synchronizer ([useJsPlumbCanvas], [synchronizeEndpoints]) *)
(* ===================================================================== *)

(** A declared port as the synchronizer reads it: [id] and [mode] as in
    [NodePort], with the [anchor] beside them. *)
Record AnchoredPort := {
  ap_port : NodePort;
  ap_anchor : option string
}.

(** The fields of a declared node that the synchronizer reads. *)
Record CanvasNode := {
  cn_id : string;
  cn_ports : option (list AnchoredPort)
}.

Definition flowNodeOf (node : CanvasNode) : FlowNode :=
  {| node_id := cn_id node;
     node_ports := match cn_ports node with
                   | Some ports => Some (ap_port <$> ports)
                   | None => None
                   end |}.

(** [node.ports && node.ports.length > 0 ? node.ports : [{ id: DEFAULT_PORT_ID }]] *)
Definition declaredPorts (node : CanvasNode) : list AnchoredPort :=
  match cn_ports node with
  | Some (p :: ps) => p :: ps
  | _ => [ {| ap_port := {| port_id := DEFAULT_PORT_ID; port_mode := None |};
              ap_anchor := None |} ]
  end.

(** An endpoint object of the engine. It is mutable and shared between
    the engine and [endpointMapRef]: the objects live in a store indexed
    by handle, and the table holds handles. An endpoint passed to
    [deleteEndpoint] stays in the store, marked as deleted. *)
Record EndpointObject := {
  eo_element : nat;
  eo_uuid : string;
  eo_portId : string;
  eo_anchor : string;
  eo_isSource : bool;
  eo_isTarget : bool;
  eo_deleted : bool
}.

Record EndpointState := {
  es_store : list EndpointObject;
  es_endpointMap : gmap string nat
}.

Definition initialEndpointState : EndpointState :=
  {| es_store := []; es_endpointMap := ∅ |}.

(** [port.anchor ?? 'AutoDefault'], [port.mode !== 'target'], [port.mode !== 'source'] *)
Definition anchorOf (port : AnchoredPort) : string := default "AutoDefault" (ap_anchor port).
Definition isSourceOf (port : AnchoredPort) : bool :=
  negb (bool_decide (port_mode (ap_port port) = Some ModeTarget)).
Definition isTargetOf (port : AnchoredPort) : bool :=
  negb (bool_decide (port_mode (ap_port port) = Some ModeSource)).

(** The endpoint [addEndpoint(portElement, { uuid, anchor, portId, isSource, isTarget, ... })]
    creates. *)
Definition newEndpoint (element : nat) (uuid : string) (port : AnchoredPort) : EndpointObject :=
  {| eo_element := element; eo_uuid := uuid; eo_portId := port_id (ap_port port);
     eo_anchor := anchorOf port; eo_isSource := isSourceOf port; eo_isTarget := isTargetOf port;
     eo_deleted := false |}.

(** [endpoint.setAnchor(...); endpoint.isSource = ...; endpoint.isTarget = ...] *)
Definition configureEndpoint (port : AnchoredPort) (e : EndpointObject) : EndpointObject :=
  {| eo_element := eo_element e; eo_uuid := eo_uuid e; eo_portId := eo_portId e;
     eo_anchor := anchorOf port; eo_isSource := isSourceOf port; eo_isTarget := isTargetOf port;
     eo_deleted := eo_deleted e |}.

Definition markEndpointDeleted (e : EndpointObject) : EndpointObject :=
  {| eo_element := eo_element e; eo_uuid := eo_uuid e; eo_portId := eo_portId e;
     eo_anchor := eo_anchor e; eo_isSource := eo_isSource e; eo_isTarget := eo_isTarget e;
     eo_deleted := true |}.

(** The body of [ports.forEach((port) => ...)]; [acc] is the store and
    [nextEndpoints], [current] is [endpointMapRef.current], which the
    loop reads and does not write. The engine's [addEndpoint] returns the
    endpoint it creates. *)
Definition syncPort (r : Registry) (current : gmap string nat) (n : string)
    (acc : list EndpointObject * gmap string nat) (port : AnchoredPort)
    : list EndpointObject * gmap string nat :=
  let uuid := getEndpointUuid n (Some (port_id (ap_port port))) in
  match portElement r n (port_id (ap_port port)) with
  | None => acc
  | Some element =>
      match current !! uuid with
      | None => ((acc.1 ++ [newEndpoint element uuid port])%list, <[uuid := length acc.1]> acc.2)
      | Some h => (alter (configureEndpoint port) h acc.1, <[uuid := h]> acc.2)
      end
  end.

(** The body of [nodes.forEach((node) => ...)]. *)
Definition syncNode (r : Registry) (current : gmap string nat)
    (acc : list EndpointObject * gmap string nat) (node : CanvasNode)
    : list EndpointObject * gmap string nat :=
  match reg_nodeRefs r !! cn_id node with
  | None => acc
  | Some _ => fold_left (syncPort r current (cn_id node)) (declaredPorts node) acc
  end.

(** The body of [endpointMapRef.current.forEach((endpoint, key) => ...)]. *)
Definition deleteStale (next : gmap string nat) (key : string) (h : nat)
    (store : list EndpointObject) : list EndpointObject :=
  if bool_decide (is_Some (next !! key)) then store else alter markEndpointDeleted h store.

(** [synchronizeEndpoints], with an engine instance at hand. *)
Definition synchronizeEndpoints (r : Registry) (nodes : list CanvasNode) (st : EndpointState)
    : EndpointState :=
  let loop := fold_left (syncNode r (es_endpointMap st)) nodes (es_store st, ∅) in
  {| es_store := map_fold (deleteStale loop.2) loop.1 (es_endpointMap st);
     es_endpointMap := loop.2 |}.

(** The nodes with a registered element. *)
Definition mountedNodes (r : Registry) (nodes : list CanvasNode) : list CanvasNode :=
  filter (λ node, is_Some (reg_nodeRefs r !! cn_id node)) nodes.

(** The ports the loop visits, in its order, each with the identity of
    its node. *)
Definition declaredEndpoints (r : Registry) (nodes : list CanvasNode)
    : list (string * AnchoredPort) :=
  node ← mountedNodes r nodes; (λ port, (cn_id node, port)) <$> declaredPorts node.

(** The endpoint object has the configuration of the declared port. *)
Definition configuredAs (port : AnchoredPort) (e : EndpointObject) : Prop :=
  eo_anchor e = anchorOf port ∧ eo_isSource e = isSourceOf port ∧ eo_isTarget e = isTargetOf port.

(** Every tracked endpoint is a live endpoint object, filed under its own
    uuid. *)
Definition endpointsTracked (st : EndpointState) : Prop :=
  ∀ uuid h, es_endpointMap st !! uuid = Some h →
            ∃ e, es_store st !! h = Some e ∧ eo_uuid e = uuid ∧ eo_deleted e = false.

(** What the loop keeps of the state [st] it starts from. *)
Record SyncInvariant (st : EndpointState) (acc : list EndpointObject * gmap string nat)
    : Prop := {
  sync_grows : (length (es_store st) ≤ length acc.1)%nat;
  sync_keeps : ∀ h e0,
    es_store st !! h = Some e0 →
    ∃ e, acc.1 !! h = Some e
         ∧ eo_uuid e = eo_uuid e0 ∧ eo_deleted e = eo_deleted e0
         ∧ eo_element e = eo_element e0 ∧ eo_portId e = eo_portId e0
         ∧ ((∀ k, es_endpointMap st !! k ≠ Some h) → e = e0);
  sync_tracked : ∀ u h,
    acc.2 !! u = Some h →
    ∃ e, acc.1 !! h = Some e ∧ eo_uuid e = u ∧ eo_deleted e = false;
  sync_origin : ∀ u h,
    acc.2 !! u = Some h →
    es_endpointMap st !! u = Some h
    ∨ (es_endpointMap st !! u = None ∧ (length (es_store st) ≤ h)%nat)
}.

(* ===================================================================== *)
(** * 13. A click on a connector, handler after handler                   *)
(* ===================================================================== *)


(* ===================================================================== *)
(** * 14. Zoom steps in IEEE 754 binary64 arithmetic ([usePanZoom])       *)
(* ===================================================================== *)

(** The zoom of the controller once more, with JavaScript numbers as what
    they are: IEEE 754 binary64 values, the primitive floats of Rocq,
    whose operations round as those of JavaScript do. *)
Module Binary64.

Import Floats.
Local Open Scope float_scope.

(** [Math.max(x, y)]: [NaN] when an argument is; [+0] is larger than
    [-0]. *)
Definition Math_max (x y : float) : float :=
  if is_nan x || is_nan y then nan
  else if x <? y then y
  else if y <? x then x
  else if get_sign x then y else x.

(** [Math.min(x, y)]: [NaN] when an argument is; [-0] is smaller than
    [+0]. *)
Definition Math_min (x y : float) : float :=
  if is_nan x || is_nan y then nan
  else if x <? y then x
  else if y <? x then y
  else if get_sign x then x else y.

Record ZoomConfig := {
  minZoom : float;
  maxZoom : float;
  zoomStep : float
}.

(** The defaults of [FlowCanvas]: [minZoom = 0.25, maxZoom = 2,
    zoomStep = 0.1]; the binary64 value of the literal [0.1] is
    [0x1.999999999999ap-4]. *)
Definition defaultZoomConfig : ZoomConfig :=
  {| minZoom := 0x1p-2; maxZoom := 0x1p+1; zoomStep := 0x1.999999999999ap-4 |}.

(** [zoomState] is the React state, [zoomRef] the ref read by the
    handlers and [instanceZoom] the zoom of the engine instance, when
    there is one. *)
Record Zoom := {
  zoomState : float;
  zoomRef : float;
  instanceZoom : option float
}.

(** [useState(zoomProp ?? 1)], [useRef(zoomState)] *)
Definition initialZoom (zoomProp : option float) (instance : option float) : Zoom :=
  {| zoomState := default 0x1p+0 zoomProp; zoomRef := default 0x1p+0 zoomProp;
     instanceZoom := instance |}.

(** [clampZoom = (value) => Math.min(maxZoom, Math.max(minZoom, value))] *)
Definition clampZoom (cfg : ZoomConfig) (value : float) : float :=
  Math_min (maxZoom cfg) (Math_max (minZoom cfg) value).

(** [setZoomInternal(value)] returns the clamped value; [===] on numbers
    is [=?]. *)
Definition setZoomInternal (cfg : ZoomConfig) (value : float) (st : Zoom) : Zoom * float :=
  let clamped := clampZoom cfg value in
  ({| zoomState := if zoomState st =? clamped then zoomState st else clamped;
      zoomRef := clamped;
      instanceZoom := (λ _, clamped) <$> instanceZoom st |},
   clamped).

Definition setZoom (cfg : ZoomConfig) (value : float) (st : Zoom) : Zoom :=
  fst (setZoomInternal cfg value st).

Definition zoomIn (cfg : ZoomConfig) (st : Zoom) : Zoom :=
  fst (setZoomInternal cfg (zoomRef st + zoomStep cfg) st).

Definition zoomOut (cfg : ZoomConfig) (st : Zoom) : Zoom :=
  fst (setZoomInternal cfg (zoomRef st - zoomStep cfg) st).

(** The place of a binary64 value that is not [NaN] in the order of
    [<], as a triple compared from left to right: the sign class, then
    exponent and mantissa, both negated for a negative value. The two
    zeros share a place. *)
Definition rank (f : spec_float) : Z * Z * Z :=
  match f with
  | S754_infinity true => (-2, 0, 0)%Z
  | S754_finite true m e => (-1, - e, - Z.pos m)%Z
  | S754_zero _ => (0, 0, 0)%Z
  | S754_nan => (0, 0, 0)%Z
  | S754_finite false m e => (1, e, Z.pos m)%Z
  | S754_infinity false => (2, 0, 0)%Z
  end.

Definition rankLt (r r' : Z * Z * Z) : Prop :=
  (r.1.1 < r'.1.1 ∨ (r.1.1 = r'.1.1 ∧ (r.1.2 < r'.1.2 ∨ (r.1.2 = r'.1.2 ∧ r.2 < r'.2))))%Z.

Definition rankEq (r r' : Z * Z * Z) : Prop :=
  (r.1.1 = r'.1.1 ∧ r.1.2 = r'.1.2 ∧ r.2 = r'.2)%Z.

End Binary64.

(* ===================================================================== *)
(** * Properties                                                          *)
(* ===================================================================== *)

(* --------------------------------------------------------------------- *)
(** ** Endpoint identity                                                  *)
(* --------------------------------------------------------------------- *)

Section EndpointIdentity.

Lemma append_sep_inj (c : ascii) (a b x y : string) :
  contains c a = false → contains c b = false →
  a +:+ String c x = b +:+ String c y → a = b ∧ x = y.
Proof.
  revert b. induction a as [|ch a IH]; intros [|ch' b] Ha Hb Heq; simpl in *.
  - by inversion Heq.
  - inversion Heq; subst. rewrite bool_decide_eq_true_2 in Hb; done.
  - inversion Heq; subst. rewrite bool_decide_eq_true_2 in Ha; done.
  - apply orb_false_iff in Ha as [_ Ha]. apply orb_false_iff in Hb as [_ Hb].
    inversion Heq; subst. destruct (IH b Ha Hb) as [-> ->]; done.
Qed.

Lemma getEndpointUuid_unfold (n : string) (p : option string) :
  getEndpointUuid n p = n +:+ String ":" (portOrDefault p).
Proof. reflexivity. Qed.

(** The identity is a total function of its two arguments, and an omitted
    port is the port named by the reserved default identity. *)
Lemma getEndpointUuid_default (n : string) :
  getEndpointUuid n None = getEndpointUuid n (Some DEFAULT_PORT_ID).
Proof. reflexivity. Qed.

(** C2, as the spec states it, fails: the separator is not escaped, so a
    colon inside an identity moves the boundary between node and port.
    Two nodes with distinct identities, each with one port, get the same
    endpoint identity. *)
Lemma getEndpointUuid_collision :
  let declared :=
    [ {| node_id := "a:b"; node_ports := Some [ {| port_id := "c"; port_mode := None |} ] |};
      {| node_id := "a"; node_ports := Some [ {| port_id := "b:c"; port_mode := None |} ] |} ] in
  NoDup (node_id <$> declared)
  ∧ Forall (λ n, NoDup (port_id <$> effectivePorts n)) declared
  ∧ ("a:b", portOrDefault (Some "c")) ≠ ("a", portOrDefault (Some "b:c"))
  ∧ getEndpointUuid "a:b" (Some "c") = getEndpointUuid "a" (Some "b:c")
  ∧ ¬ NoDup (endpointUuids declared).
Proof.
  simpl. split_and!.
  - apply (bool_decide_unpack _). by vm_compute.
  - repeat constructor; set_solver.
  - discriminate.
  - reflexivity.
  - intros Hnd. apply NoDup_cons in Hnd as [Hnotin _]. apply Hnotin. left.
Qed.

(** C2, amended: on node identities without a colon the identity function
    is injective. Two (node, port) pairs that differ, an omitted port
    counting as the default port, have different endpoint identities. *)
Theorem getEndpointUuid_injective (n1 n2 : string) (p1 p2 : option string) :
  contains ":" n1 = false → contains ":" n2 = false →
  (n1, portOrDefault p1) ≠ (n2, portOrDefault p2) →
  getEndpointUuid n1 p1 ≠ getEndpointUuid n2 p2.
Proof.
  intros H1 H2 Hne Heq. rewrite !getEndpointUuid_unfold in Heq.
  apply append_sep_inj in Heq as [Hn Hp]; [|done..].
  apply Hne. by rewrite Hn, Hp.
Qed.

Lemma getEndpointUuid_injective_witness :
  getEndpointUuid "node-a" (Some "out") ≠ getEndpointUuid "node-a" None.
Proof.
  apply (getEndpointUuid_injective "node-a" "node-a" (Some "out") None).
  - reflexivity.
  - reflexivity.
  - vm_compute. discriminate.
Defined.

End EndpointIdentity.

(* --------------------------------------------------------------------- *)
(** ** Sets in insertion order                                            *)
(* --------------------------------------------------------------------- *)

Section InsertionOrderedSets.

Lemma setAdd_NoDup (s : list string) (v : string) : NoDup s → NoDup (setAdd s v).
Proof.
  intros Hs. unfold setAdd. case_bool_decide as Hv; [done|].
  apply NoDup_app. split_and!; [done| |apply NoDup_singleton].
  intros x Hx Hx'. apply list_elem_of_singleton in Hx' as ->. done.
Qed.

Lemma setAdd_elem (s : list string) (v x : string) : x ∈ setAdd s v ↔ x ∈ s ∨ x = v.
Proof.
  unfold setAdd. case_bool_decide as Hv.
  - split; [by left|]. intros [?| ->]; done.
  - rewrite elem_of_app, list_elem_of_singleton. done.
Qed.

Lemma setDelete_NoDup (s : list string) (v : string) : NoDup s → NoDup (setDelete s v).
Proof. apply NoDup_filter. Qed.

Lemma fold_setAdd_NoDup (l acc : list string) : NoDup acc → NoDup (fold_left setAdd l acc).
Proof.
  revert acc. induction l as [|v l IH]; intros acc Hacc; simpl; [done|].
  apply IH, setAdd_NoDup, Hacc.
Qed.

Lemma fold_setAdd_elem (l acc : list string) (x : string) :
  x ∈ fold_left setAdd l acc ↔ x ∈ acc ∨ x ∈ l.
Proof.
  revert acc. induction l as [|v l IH]; intros acc; simpl.
  - rewrite elem_of_nil. tauto.
  - rewrite IH, setAdd_elem, elem_of_cons. tauto.
Qed.

(** [uniqueList] removes duplicates and nothing else. *)
Lemma uniqueList_NoDup (l : list string) : NoDup (uniqueList l).
Proof. apply fold_setAdd_NoDup, NoDup_nil_2. Qed.

Lemma uniqueList_elem (l : list string) (x : string) : x ∈ uniqueList l ↔ x ∈ l.
Proof. unfold uniqueList, newSet. rewrite fold_setAdd_elem, elem_of_nil. tauto. Qed.

Lemma uniqueList_nil : uniqueList [] = [].
Proof. reflexivity. Qed.

Lemma uniqueList_singleton (v : string) : uniqueList [v] = [v].
Proof.
  unfold uniqueList, newSet. simpl. unfold setAdd.
  by case_bool_decide as Hv; [apply elem_of_nil in Hv|].
Qed.

End InsertionOrderedSets.

(* --------------------------------------------------------------------- *)
(** ** Selection manager                                                  *)
(* --------------------------------------------------------------------- *)

Section SelectionManager.

Implicit Types (p : SelectionProps) (internal : CanvasSelection).

(** What [emitSelection] stores and emits for the node set. *)
Lemma emitSelection_nodes p next_n next_c internal :
  nodes (emitSelection p next_n next_c internal).1
    = match selectedNodes p with None => next_n | Some _ => nodes internal end
  ∧ nodes (emitSelection p next_n next_c internal).2 = default next_n (selectedNodes p).
Proof. done. Qed.

Lemma emitSelection_connections p next_n next_c internal :
  connections (emitSelection p next_n next_c internal).1
    = match selectedConnections p with None => next_c | Some _ => connections internal end
  ∧ connections (emitSelection p next_n next_c internal).2
    = default next_c (selectedConnections p).
Proof. done. Qed.

(** Every step either emits nothing and leaves the state alone, or is one
    call of [emitSelection] on two duplicate-free lists. *)
Lemma selectionStep_emit p e internal :
  selectionStep p e internal = (internal, None)
  ∨ ∃ next_n next_c,
      NoDup next_n ∧ NoDup next_c
      ∧ (∃ l, next_n = uniqueList l) ∧ (∃ l, next_c = uniqueList l)
      ∧ selectionStep p e internal
        = ((emitSelection p next_n next_c internal).1,
           Some (emitSelection p next_n next_c internal).2).
Proof.
  destruct e as [id ev|id [ev|]|[|]]; simpl; auto; right.
  - eexists _, _. split_and!; [apply uniqueList_NoDup..|by eexists|by eexists|done].
  - eexists _, _. split_and!; [apply uniqueList_NoDup..|by eexists|by eexists|done].
  - exists [], []. split_and!; [apply NoDup_nil_2..|by exists []|by exists []|done].
Qed.

(** A node click, a connection click with its original event and a click
    on the canvas background always emit. *)
Lemma selectionStep_emits p internal id ev :
  is_Some (selectionStep p (NodeClick id ev) internal).2
  ∧ is_Some (selectionStep p (ConnectionClick id (Some ev)) internal).2
  ∧ is_Some (selectionStep p (CanvasClick false) internal).2.
Proof. split_and!; simpl; eauto. Qed.

(** C4: a controlled set is never stored and never emitted from the
    internal computation. Whatever the transition, the locally stored
    value of a controlled set is unchanged, and the value emitted for it
    is the externally supplied one. *)
Theorem controlled_set_is_external p e internal internal' emitted :
  selectionStep p e internal = (internal', emitted) →
  (∀ s, selectedNodes p = Some s →
        nodes internal' = nodes internal ∧ ∀ out, emitted = Some out → nodes out = s)
  ∧ (∀ s, selectedConnections p = Some s →
          connections internal' = connections internal
          ∧ ∀ out, emitted = Some out → connections out = s).
Proof.
  intros Hstep.
  destruct (selectionStep_emit p e internal) as [Hnone|(nn & nc & _ & _ & _ & _ & Hsome)].
  - rewrite Hnone in Hstep. injection Hstep as <- <-. by split; intros s Hs.
  - rewrite Hsome in Hstep. injection Hstep as <- <-.
    split; intros s Hs; simpl; rewrite Hs.
    all: split; [done|]; by intros out [= <-].
Qed.

Lemma controlled_set_is_external_witness :
  let p := {| selectedNodes := Some ["n1"]; selectedConnections := None; allowMultiSelect := true |} in
  let ev := {| metaKey := false; ctrlKey := false; shiftKey := false |} in
  let internal := {| nodes := ["stale"]; connections := ["c1"] |} in
  nodes (selectionStep p (NodeClick "n2" ev) internal).1 = ["stale"]
  ∧ ∀ out, (selectionStep p (NodeClick "n2" ev) internal).2 = Some out → nodes out = ["n1"].
Proof.
  intros p ev internal.
  destruct (controlled_set_is_external p (NodeClick "n2" ev) internal
              (selectionStep p (NodeClick "n2" ev) internal).1
              (selectionStep p (NodeClick "n2" ev) internal).2 eq_refl) as [Hn _].
  destruct (Hn ["n1"] eq_refl) as [Hstored Hemitted].
  split; [exact Hstored|exact Hemitted].
Defined.

(** C5, as the spec states it, fails when a set is controlled: with the
    connection set supplied by the application, a plain click on a node
    emits the supplied connection set, not the empty one, and the
    displayed selection keeps it as well. *)
Lemma plain_click_keeps_controlled_connections :
  let p := {| selectedNodes := None; selectedConnections := Some ["c1"]; allowMultiSelect := true |} in
  let ev := {| metaKey := false; ctrlKey := false; shiftKey := false |} in
  let result := updateNodeSelection p "N" ev initialSelection in
  result.2 = {| nodes := ["N"]; connections := ["c1"] |}
  ∧ selection p result.1 = {| nodes := ["N"]; connections := ["c1"] |}
  ∧ result.2 ≠ {| nodes := ["N"]; connections := [] |}.
Proof. split_and!; [reflexivity..|discriminate]. Qed.

(** C5, amended: a click on node [N] without multi-selection replaces each
    set that is not controlled, the node set by [[N]] and the connection
    set by the empty list, whatever the prior state; a controlled set
    keeps the supplied value. This holds for the emitted selection and
    for the selection displayed afterwards. *)
Theorem plain_node_click_selects_only_that_node p id ev internal :
  allowMultiSelect p = false
  ∨ (metaKey ev = false ∧ ctrlKey ev = false ∧ shiftKey ev = false) →
  let expected := {| nodes := default [id] (selectedNodes p);
                     connections := default [] (selectedConnections p) |} in
  (updateNodeSelection p id ev internal).2 = expected
  ∧ selection p (updateNodeSelection p id ev internal).1 = expected.
Proof.
  intros Hplain expected.
  assert (isMulti p ev = false) as Hmulti.
  { unfold isMulti. destruct Hplain as [->|(-> & -> & ->)]; [done|by rewrite andb_false_r]. }
  unfold updateNodeSelection. rewrite Hmulti, uniqueList_singleton, uniqueList_nil.
  unfold expected, selection, emitSelection; simpl.
  by destruct (selectedNodes p), (selectedConnections p).
Qed.

Lemma plain_node_click_selects_only_that_node_witness :
  let p := {| selectedNodes := None; selectedConnections := None; allowMultiSelect := true |} in
  let ev := {| metaKey := false; ctrlKey := false; shiftKey := false |} in
  let internal := {| nodes := ["a"; "b"]; connections := ["c1"; "c2"] |} in
  (updateNodeSelection p "N" ev internal).2 = {| nodes := ["N"]; connections := [] |}
  ∧ selection p (updateNodeSelection p "N" ev internal).1 = {| nodes := ["N"]; connections := [] |}.
Proof.
  intros p ev internal.
  apply (plain_node_click_selects_only_that_node p "N" ev internal).
  right. split_and!; reflexivity.
Defined.

(** What is stored and emitted for a set that is not controlled when
    the lists handed to [emitSelection] come out of [uniqueList]. *)
Lemma emitSelection_uniqueList p next_n next_c internal :
  let stored := (emitSelection p (uniqueList next_n) (uniqueList next_c) internal).1 in
  let out := (emitSelection p (uniqueList next_n) (uniqueList next_c) internal).2 in
  (selectedNodes p = None →
     NoDup (nodes out) ∧ (∀ x, x ∈ nodes out ↔ x ∈ next_n) ∧ nodes stored = nodes out)
  ∧ (selectedConnections p = None →
       NoDup (connections out) ∧ (∀ x, x ∈ connections out ↔ x ∈ next_c)
       ∧ connections stored = connections out).
Proof.
  split; intros Hp; simpl; rewrite Hp; simpl.
  all: split_and!; [apply uniqueList_NoDup|intros x; apply uniqueList_elem|done].
Qed.

(** Every step either emits nothing and leaves the state alone, or emits
    the duplicate-free form of the lists its handler computed. *)
Lemma selectionStep_nextLists p e internal :
  match nextLists p e internal with
  | None => selectionStep p e internal = (internal, None)
  | Some (next_n, next_c) =>
      selectionStep p e internal
      = ((emitSelection p (uniqueList next_n) (uniqueList next_c) internal).1,
         Some (emitSelection p (uniqueList next_n) (uniqueList next_c) internal).2)
  end.
Proof.
  by destruct e as [id ev|id [ev|]|[|]].
Qed.

(** C9: every emission of an internal transition carries, for a set
    that is not controlled, the duplicate-free form of the list its
    handler computed: the same identities, none of them twice, whatever
    the stored selection was (a list with repetitions included), and
    that list is what is stored. A click on a node or on a connection
    hands its lists to [uniqueList]; a click on the canvas emits the
    empty lists, which [uniqueList] leaves as they are. So in every run,
    whatever the props of each render, no emitted list of a set that is
    not controlled holds an identity twice; a stored list holds none
    twice unless it is still the list the run started with; and from the
    initial selection no stored list ever does. *)
Theorem selection_lists_have_no_duplicates :
  (∀ p e internal,
     match nextLists p e internal with
     | None => selectionStep p e internal = (internal, None)
     | Some (next_n, next_c) =>
         ∃ stored out,
           selectionStep p e internal = (stored, Some out)
           ∧ (selectedNodes p = None →
                NoDup (nodes out) ∧ (∀ x, x ∈ nodes out ↔ x ∈ next_n)
                ∧ nodes stored = nodes out)
           ∧ (selectedConnections p = None →
                NoDup (connections out) ∧ (∀ x, x ∈ connections out ↔ x ∈ next_c)
                ∧ connections stored = connections out)
     end)
  ∧ (∀ steps internal,
       Forall (λ pe : SelectionProps * CanvasSelection,
                 (selectedNodes pe.1 = None → NoDup (nodes pe.2))
                 ∧ (selectedConnections pe.1 = None → NoDup (connections pe.2)))
              (selectionRun steps internal).2
       ∧ (NoDup (nodes (selectionRun steps internal).1)
          ∨ nodes (selectionRun steps internal).1 = nodes internal)
       ∧ (NoDup (connections (selectionRun steps internal).1)
          ∨ connections (selectionRun steps internal).1 = connections internal))
  ∧ (∀ steps,
       NoDup (nodes (selectionRun steps initialSelection).1)
       ∧ NoDup (connections (selectionRun steps initialSelection).1)).
Proof.
  assert (∀ p e internal,
            match nextLists p e internal with
            | None => selectionStep p e internal = (internal, None)
            | Some (next_n, next_c) =>
                ∃ stored out,
                  selectionStep p e internal = (stored, Some out)
                  ∧ (selectedNodes p = None →
                       NoDup (nodes out) ∧ (∀ x, x ∈ nodes out ↔ x ∈ next_n)
                       ∧ nodes stored = nodes out)
                  ∧ (selectedConnections p = None →
                       NoDup (connections out) ∧ (∀ x, x ∈ connections out ↔ x ∈ next_c)
                       ∧ connections stored = connections out)
            end) as Hstep.
  { intros p e internal. pose proof (selectionStep_nextLists p e internal) as Hs.
    destruct (nextLists p e internal) as [[next_n next_c]|]; [|done].
    eexists _, _. split; [exact Hs|]. apply emitSelection_uniqueList. }
  assert (∀ steps internal,
            Forall (λ pe : SelectionProps * CanvasSelection,
                      (selectedNodes pe.1 = None → NoDup (nodes pe.2))
                      ∧ (selectedConnections pe.1 = None → NoDup (connections pe.2)))
                   (selectionRun steps internal).2
            ∧ (NoDup (nodes (selectionRun steps internal).1)
               ∨ nodes (selectionRun steps internal).1 = nodes internal)
            ∧ (NoDup (connections (selectionRun steps internal).1)
               ∨ connections (selectionRun steps internal).1 = connections internal)) as Hrun.
  { intros steps. induction steps as [|[p e] rest IH]; intros internal; simpl.
    - split_and!; [constructor|by right..].
    - assert ((NoDup (nodes (selectionStep p e internal).1)
               ∨ nodes (selectionStep p e internal).1 = nodes internal)
              ∧ (NoDup (connections (selectionStep p e internal).1)
                 ∨ connections (selectionStep p e internal).1 = connections internal)
              ∧ ∀ out, (selectionStep p e internal).2 = Some out →
                       (selectedNodes p = None → NoDup (nodes out))
                       ∧ (selectedConnections p = None → NoDup (connections out)))
        as (Hn & Hc & Hout).
      { pose proof (selectionStep_nextLists p e internal) as Hs.
        destruct (nextLists p e internal) as [[next_n next_c]|]; rewrite Hs; simpl.
        - split_and!.
          + destruct (selectedNodes p); [by right|left; apply uniqueList_NoDup].
          + destruct (selectedConnections p); [by right|left; apply uniqueList_NoDup].
          + intros out [= <-]. simpl. split; intros ->; apply uniqueList_NoDup.
        - split_and!; [by right..|done]. }
      destruct (selectionStep p e internal) as [internal' emitted]; simpl in *.
      destruct (IH internal') as (Hall & Hn' & Hc').
      destruct (selectionRun rest internal') as [final out]; simpl in *.
      split_and!.
      + destruct emitted as [s|]; [|done]. constructor; [|done]. by apply Hout.
      + destruct Hn' as [?|Heq]; [by left|by rewrite Heq].
      + destruct Hc' as [?|Heq]; [by left|by rewrite Heq]. }
  split_and!; [exact Hstep|exact Hrun|].
  intros steps. destruct (Hrun steps initialSelection) as (_ & Hn & Hc).
  split; [destruct Hn as [?|Heq]|destruct Hc as [?|Heq]]; try done;
    rewrite Heq; apply NoDup_nil_2.
Qed.

Lemma selection_lists_have_no_duplicates_witness :
  let p := {| selectedNodes := None; selectedConnections := None; allowMultiSelect := true |} in
  let ev := {| metaKey := true; ctrlKey := false; shiftKey := false |} in
  let internal := {| nodes := ["a"; "a"]; connections := ["c"; "d"; "c"] |} in
  ∃ stored out,
    selectionStep p (NodeClick "b" ev) internal = (stored, Some out)
    ∧ NoDup (connections out) ∧ "c" ∈ connections out ∧ "d" ∈ connections out
    ∧ connections stored = connections out.
Proof.
  intros p ev internal.
  destruct selection_lists_have_no_duplicates as (Hstep & _ & _).
  specialize (Hstep p (NodeClick "b" ev) internal).
  change (nextLists p (NodeClick "b" ev) internal)
    with (Some (setToggle (newSet ["a"; "a"]) "b", ["c"; "d"; "c"])) in Hstep.
  destruct Hstep as (stored & out & Hs & _ & Hc).
  destruct (Hc eq_refl) as (Hnd & Hel & Hst).
  exists stored, out. split_and!; [exact Hs|exact Hnd|apply Hel|apply Hel|exact Hst].
  - apply (bool_decide_unpack _). by vm_compute.
  - apply (bool_decide_unpack _). by vm_compute.
Defined.

(** The same click, evaluated: the stored lists hold [a] and [c] twice;
    the emitted and the stored lists after the click hold them once. *)
Lemma node_click_removes_stored_repetitions :
  let p := {| selectedNodes := None; selectedConnections := None; allowMultiSelect := true |} in
  let ev := {| metaKey := true; ctrlKey := false; shiftKey := false |} in
  let internal := {| nodes := ["a"; "a"]; connections := ["c"; "d"; "c"] |} in
  selectionStep p (NodeClick "b" ev) internal
  = ({| nodes := ["a"; "b"]; connections := ["c"; "d"] |},
     Some {| nodes := ["a"; "b"]; connections := ["c"; "d"] |}).
Proof. by vm_compute. Qed.

End SelectionManager.

(* --------------------------------------------------------------------- *)
(** ** Pan/zoom controller                                                *)
(* --------------------------------------------------------------------- *)

Section PanZoomController.

Local Open Scope Q_scope.

Implicit Types (cfg : ZoomConfig) (st : PanZoom).

Lemma clampZoom_inRange cfg v : minZoom cfg <= maxZoom cfg → inZoomRange cfg (clampZoom cfg v).
Proof.
  intros Hle. unfold inZoomRange, clampZoom. split.
  - apply Q.min_glb; [done|apply Q.le_max_l].
  - apply Q.le_min_l.
Qed.

(** Inside the bounds the clamp changes nothing. *)
Lemma clampZoom_id cfg v : inZoomRange cfg v → clampZoom cfg v == v.
Proof.
  intros [Hlo Hhi]. unfold clampZoom.
  rewrite (Q.max_r _ _ Hlo). by apply Q.min_r.
Qed.

Lemma setZoomInternal_zoomRef cfg v st :
  zoomRef (setZoomInternal cfg v st).1 = clampZoom cfg v
  ∧ (setZoomInternal cfg v st).2 = clampZoom cfg v
  ∧ zoomState (setZoomInternal cfg v st).1 == clampZoom cfg v.
Proof.
  unfold setZoomInternal; simpl. split_and!; [done..|].
  destruct (Qeq_bool (zoomState st) (clampZoom cfg v)) eqn:Heq; [|reflexivity].
  by apply Qeq_bool_iff.
Qed.

(** The engine instance is given the clamped zoom as well. *)
Lemma setZoomInternal_instance cfg v st z :
  instanceZoom st = Some z → instanceZoom (setZoomInternal cfg v st).1 = Some (clampZoom cfg v).
Proof. intros Hz. unfold setZoomInternal; simpl. by rewrite Hz. Qed.

(** The zoom bounds being positive, the zoom never becomes zero. *)
Lemma clampZoom_positive cfg v : 0 < minZoom cfg → 0 < maxZoom cfg → 0 < clampZoom cfg v.
Proof.
  intros Hmin Hmax. unfold clampZoom.
  apply Q.min_glb_lt; [done|].
  eapply Qlt_le_trans; [exact Hmin|apply Q.le_max_l].
Qed.

(** The state after a wheel event with the zoom modifier held. *)
Lemma handleWheel_zoomRef cfg r ev st :
  wheel_ctrlKey ev || wheel_metaKey ev = true →
  zoomRef (handleWheel cfg (Some r) ev st)
  = clampZoom cfg (zoomRef st + (if Qlt_le_dec 0 (deltaY ev) then -1 else 1) * zoomStep cfg).
Proof. intros Hmod. unfold handleWheel. by rewrite Hmod. Qed.

(** Without the modifier, or without a canvas, the wheel does nothing. *)
Lemma handleWheel_inactive cfg r ev st :
  wheel_ctrlKey ev || wheel_metaKey ev = false →
  handleWheel cfg (Some r) ev st = st ∧ handleWheel cfg None ev st = st.
Proof. intros Hmod. unfold handleWheel. by rewrite Hmod. Qed.

Lemma handleWheel_graphPoint cfg r ev st :
  wheel_ctrlKey ev || wheel_metaKey ev = true →
  ¬ zoomRef st == 0 →
  ¬ zoomRef (handleWheel cfg (Some r) ev st) == 0 →
  pt_x (graphPoint (pointerOf r ev) (handleWheel cfg (Some r) ev st))
    == pt_x (graphPoint (pointerOf r ev) st)
  ∧ pt_y (graphPoint (pointerOf r ev) (handleWheel cfg (Some r) ev st))
    == pt_y (graphPoint (pointerOf r ev) st).
Proof.
  intros Hmod _. unfold handleWheel, graphPoint, pointerOf. rewrite Hmod. simpl.
  set (z' := clampZoom cfg _). intros Hz'.
  set (gx := (clientX ev - rect_left r - pt_x (pan st)) / zoomRef st).
  set (gy := (clientY ev - rect_top r - pt_y (pan st)) / zoomRef st).
  split; field; exact Hz'.
Qed.

(** C6: a wheel step with the modifier held keeps the graph-space point
    under the pointer where it was. In exact arithmetic the two points
    are equal as soon as neither zoom is zero (the point is a quotient
    by the zoom). *)
Theorem wheel_zoom_preserves_anchor cfg r ev st :
  wheel_ctrlKey ev || wheel_metaKey ev = true →
  ¬ zoomRef st == 0 →
  ¬ zoomRef (handleWheel cfg (Some r) ev st) == 0 →
  pt_x (graphPoint (pointerOf r ev) (handleWheel cfg (Some r) ev st))
    == pt_x (graphPoint (pointerOf r ev) st)
  ∧ pt_y (graphPoint (pointerOf r ev) (handleWheel cfg (Some r) ev st))
    == pt_y (graphPoint (pointerOf r ev) st).
Proof. apply handleWheel_graphPoint. Qed.

Lemma wheel_zoom_preserves_anchor_witness :
  let ev := {| wheel_ctrlKey := true; wheel_metaKey := false;
               clientX := 310; clientY := 120; deltaY := -3 |} in
  let r := {| rect_left := 10; rect_top := 20 |} in
  let st := {| zoomState := 1; zoomRef := 1; pan := {| pt_x := 40; pt_y := -15 |};
               instanceZoom := Some 1 |} in
  zoomRef (handleWheel defaultZoomConfig (Some r) ev st) == 11 # 10
  ∧ pt_x (graphPoint (pointerOf r ev) (handleWheel defaultZoomConfig (Some r) ev st)) == 260.
Proof.
  intros ev r st. split; [by vm_compute|].
  destruct (wheel_zoom_preserves_anchor defaultZoomConfig r ev st) as [Hx _].
  - reflexivity.
  - by vm_compute.
  - by vm_compute.
  - rewrite Hx. by vm_compute.
Defined.

(** With positive zoom bounds the condition on the new zoom always holds. *)
Corollary handleWheel_graphPoint_positive_bounds cfg r ev st :
  0 < minZoom cfg → 0 < maxZoom cfg →
  wheel_ctrlKey ev || wheel_metaKey ev = true →
  ¬ zoomRef st == 0 →
  pt_x (graphPoint (pointerOf r ev) (handleWheel cfg (Some r) ev st))
    == pt_x (graphPoint (pointerOf r ev) st)
  ∧ pt_y (graphPoint (pointerOf r ev) (handleWheel cfg (Some r) ev st))
    == pt_y (graphPoint (pointerOf r ev) st).
Proof.
  intros Hmin Hmax Hmod Hz0. apply handleWheel_graphPoint; [done..|].
  rewrite handleWheel_zoomRef by done. intros Hz.
  pose proof (clampZoom_positive cfg
    (zoomRef st + (if Qlt_le_dec 0 (deltaY ev) then -1 else 1) * zoomStep cfg) Hmin Hmax) as Hpos.
  rewrite Hz in Hpos. by apply Qlt_irrefl in Hpos.
Qed.

End PanZoomController.

(* --------------------------------------------------------------------- *)
(** ** Pan/zoom controller: the zoom in binary64 arithmetic               *)
(* --------------------------------------------------------------------- *)

Section Binary64Zoom.

Import Floats.
Import Binary64.
Local Open Scope float_scope.

Implicit Types (x y v : float) (f : spec_float) (cfg : ZoomConfig) (st : Zoom).

Local Abbreviation rk x := (rank (Prim2SF x)).

Lemma SFcompare_rank f1 f2 :
  f1 ≠ S754_nan → f2 ≠ S754_nan →
  ∃ c, SFcompare f1 f2 = Some c
       ∧ (c = Lt ↔ rankLt (rank f1) (rank f2))
       ∧ (c = Eq ↔ rankEq (rank f1) (rank f2))
       ∧ (c = Gt ↔ rankLt (rank f2) (rank f1)).
Proof.
  intros H1 H2. unfold rankLt, rankEq.
  destruct f1 as [s1|s1| |s1 m1 e1], f2 as [s2|s2| |s2 m2 e2]; try done;
    try destruct s1; try destruct s2; cbn [SFcompare rank fst snd];
    eexists; (split; [reflexivity|]).
  all: try (split_and!; split; intros Hx; try discriminate; try done; lia).
  all: rewrite Pos.compare_cont_spec; cbn [Pos.switch_Eq];
    destruct (Z.compare_spec e1 e2), (Pos.compare_spec m1 m2); cbn [CompOpp];
    split_and!; split; intros Hx; try discriminate; try done; lia.
Qed.

Lemma is_nan_Prim2SF x : is_nan x = false → Prim2SF x ≠ S754_nan.
Proof.
  unfold is_nan. rewrite eqb_spec. unfold SFeqb. intros Hx Hn. rewrite Hn in Hx. discriminate.
Qed.

(** [<], [<=] and [===] on two numbers that are not [NaN], read on their
    ranks. *)
Lemma float_order x y :
  is_nan x = false → is_nan y = false →
  ((x <? y) = true ↔ rankLt (rk x) (rk y))
  ∧ ((x <=? y) = true ↔ rankLt (rk x) (rk y) ∨ rankEq (rk x) (rk y))
  ∧ ((x =? y) = true ↔ rankEq (rk x) (rk y))
  ∧ (rankLt (rk x) (rk y) ∨ rankEq (rk x) (rk y)
     ∨ rankLt (rk y) (rk x)).
Proof.
  intros Hx Hy. rewrite ltb_spec, leb_spec, eqb_spec. unfold SFltb, SFleb, SFeqb.
  destruct (SFcompare_rank (Prim2SF x) (Prim2SF y)) as (c & -> & HLt & HEq & HGt);
    [by apply is_nan_Prim2SF..|].
  destruct c.
  - assert (rankEq (rk x) (rk y)) as He by (by apply HEq).
    split_and!; [split; [done|]|split; [by right|done]|done|by right; left].
    intros Hl. by apply HLt in Hl.
  - assert (rankLt (rk x) (rk y)) as Hl by (by apply HLt).
    split_and!; [done|split; [by left|done]|split; [done|]|by left].
    intros He. by apply HEq in He.
  - assert (rankLt (rk y) (rk x)) as Hg by (by apply HGt).
    split_and!; [split; [done|]|split; [done|]|split; [done|]|by right; right].
    + intros Hl. by apply HLt in Hl.
    + intros [Hl|He]; [by apply HLt in Hl|by apply HEq in He].
    + intros He. by apply HEq in He.
Qed.

Lemma ltb_rank x y :
  is_nan x = false → is_nan y = false →
  (x <? y) = true ↔ rankLt (rk x) (rk y).
Proof. intros Hx Hy. by destruct (float_order x y Hx Hy) as (? & _). Qed.

Lemma leb_rank x y :
  is_nan x = false → is_nan y = false →
  (x <=? y) = true ↔ rankLt (rk x) (rk y) ∨ rankEq (rk x) (rk y).
Proof. intros Hx Hy. by destruct (float_order x y Hx Hy) as (_ & ? & _). Qed.

Lemma eqb_rank x y :
  is_nan x = false → is_nan y = false →
  (x =? y) = true ↔ rankEq (rk x) (rk y).
Proof. intros Hx Hy. by destruct (float_order x y Hx Hy) as (_ & _ & ? & _). Qed.

(** [Math.max] of two numbers that are not [NaN] is one of them, and not
    below either. *)
Lemma Math_max_spec x y :
  is_nan x = false → is_nan y = false →
  let r := Math_max x y in
  is_nan r = false ∧ (r = x ∨ r = y)
  ∧ (rankLt (rk x) (rk r) ∨ rankEq (rk x) (rk r))
  ∧ (rankLt (rk y) (rk r) ∨ rankEq (rk y) (rk r)).
Proof.
  intros Hx Hy r. unfold r, Math_max. rewrite Hx, Hy. cbn [orb].
  destruct (float_order x y Hx Hy) as (Hlt & _ & _ & Htri).
  destruct (float_order y x Hy Hx) as (Hgt & _ & _ & _).
  assert (∀ t, rankEq t t) as Hrefl by (intros [[? ?] ?]; done).
  unfold rankLt, rankEq in *.
  destruct (x <? y) eqn:Exy.
  - split_and!; [done|by right| |right; apply Hrefl]. left. by apply Hlt.
  - destruct (y <? x) eqn:Eyx.
    + split_and!; [done|by left|right; apply Hrefl|]. left. by apply Hgt.
    + assert (rankEq (rk x) (rk y)) as He.
      { unfold rankEq. destruct Htri as [Hl|[He|Hg]]; [|done|].
        - apply Hlt in Hl. discriminate.
        - apply Hgt in Hg. discriminate. }
      unfold rankEq in He.
      destruct (get_sign x); split_and!; auto; right; try apply Hrefl; lia.
Qed.

(** [Math.min] of two numbers that are not [NaN] is one of them, and not
    above either. *)
Lemma Math_min_spec x y :
  is_nan x = false → is_nan y = false →
  let r := Math_min x y in
  is_nan r = false ∧ (r = x ∨ r = y)
  ∧ (rankLt (rk r) (rk x) ∨ rankEq (rk r) (rk x))
  ∧ (rankLt (rk r) (rk y) ∨ rankEq (rk r) (rk y)).
Proof.
  intros Hx Hy r. unfold r, Math_min. rewrite Hx, Hy. cbn [orb].
  destruct (float_order x y Hx Hy) as (Hlt & _ & _ & Htri).
  destruct (float_order y x Hy Hx) as (Hgt & _ & _ & _).
  assert (∀ t, rankEq t t) as Hrefl by (intros [[? ?] ?]; done).
  unfold rankLt, rankEq in *.
  destruct (x <? y) eqn:Exy.
  - split_and!; [done|by left|right; apply Hrefl|]. left. by apply Hlt.
  - destruct (y <? x) eqn:Eyx.
    + split_and!; [done|by right| |right; apply Hrefl]. left. by apply Hgt.
    + assert (rankEq (rk x) (rk y)) as He.
      { unfold rankEq. destruct Htri as [Hl|[He|Hg]]; [|done|].
        - apply Hlt in Hl. discriminate.
        - apply Hgt in Hg. discriminate. }
      unfold rankEq in He.
      destruct (get_sign x); split_and!; auto; right; try apply Hrefl; lia.
Qed.

Local Ltac rank_lia :=
  unfold rankLt, rankEq in *;
  repeat match goal with
         | H : context [rank ?t] |- _ => destruct (rank t) as [[? ?] ?]
         | |- context [rank ?t] => destruct (rank t) as [[? ?] ?]
         end;
  cbn [fst snd] in *; lia.

(** What [clampZoom] returns for a value that is not [NaN], between
    bounds that are ordered and not [NaN]. *)
Lemma clampZoom_spec cfg v :
  is_nan (minZoom cfg) = false → is_nan (maxZoom cfg) = false →
  is_nan v = false →
  (minZoom cfg <=? maxZoom cfg) = true →
  let z := clampZoom cfg v in
  ((minZoom cfg <=? z) = true ∧ (z <=? maxZoom cfg) = true)
  ∧ ((minZoom cfg <=? v) = true → (v <=? maxZoom cfg) = true →
     (z =? v) = true)
  ∧ ((maxZoom cfg <? v) = true → z = maxZoom cfg)
  ∧ ((v <? minZoom cfg) = true → (z =? minZoom cfg) = true).
Proof.
  intros Hmin Hmax Hv Hle z. unfold z, clampZoom.
  set (a := minZoom cfg) in *. set (b := maxZoom cfg) in *.
  destruct (Math_max_spec a v Hmin Hv) as (Hn1 & Hc1 & Ha1 & Hv1).
  set (r := Math_max a v) in *.
  destruct (Math_min_spec b r Hmax Hn1) as (Hnz & Hcz & Hzb & Hzr).
  set (m := Math_min b r) in *.
  apply (proj1 (leb_rank a b Hmin Hmax)) in Hle.
  split_and!.
  - apply (proj2 (leb_rank a m Hmin Hnz)).
    destruct Hcz as [->| ->]; [done|]. destruct Hc1 as [->| ->]; [|done]. right. rank_lia.
  - by apply (proj2 (leb_rank m b Hnz Hmax)).
  - intros Hav Hvb. apply (proj1 (leb_rank a v Hmin Hv)) in Hav.
    apply (proj1 (leb_rank v b Hv Hmax)) in Hvb. apply (proj2 (eqb_rank m v Hnz Hv)).
    clear Hnz Hn1.
    destruct Hcz as [Hmb|Hmr]; [rewrite Hmb in *|rewrite Hmr in *];
      (destruct Hc1 as [Hra|Hrv]; [rewrite Hra in *|rewrite Hrv in *]); rank_lia.
  - intros Hbv. apply (proj1 (ltb_rank b v Hmax Hv)) in Hbv.
    destruct Hcz as [->| Hmr]; [done|]. exfalso. rewrite Hmr in *.
    clear Hnz Hn1 Hmr. rank_lia.
  - intros Hva. apply (proj1 (ltb_rank v a Hv Hmin)) in Hva. apply (proj2 (eqb_rank m a Hnz Hmin)).
    assert (r = a) as Hra.
    { destruct Hc1 as [Hra|Hrv]; [done|]. exfalso. rewrite Hrv in *. clear Hnz Hn1 Hrv.
      rank_lia. }
    rewrite Hra in *. clear Hnz Hn1 Hra Hc1.
    destruct Hcz as [Hmb|Hmr]; [rewrite Hmb in *|rewrite Hmr in *]; rank_lia.
Qed.

(** [NaN] passes the clamp: [Math.max] and [Math.min] return [NaN] when
    an argument is, so the bounds hold for numbers only. *)
Lemma setZoom_nan st : is_nan (zoomRef (setZoom defaultZoomConfig nan st)) = true.
Proof. reflexivity. Qed.

(** C7, as the spec states it, fails: with zoom 1 and the default
    bounds and step, six calls of [zoomIn] do not yield 1.6. The sums are
    rounded at every step, and the sixth is 1.6000000000000005
    ([0x1.999999999999cp+0]), the second binary64 value above the one of
    the literal [1.6] ([0x1.999999999999ap+0]). *)
#[warnings="-inexact-float"] Lemma six_zoomIn_calls_do_not_yield_1_6 :
  let z6 := zoomRef (Nat.iter 6 (zoomIn defaultZoomConfig) (initialZoom None None)) in
  (z6 =? 1.6) = false
  ∧ (1.6 <? z6) = true
  ∧ z6 = 0x1.999999999999cp+0
  ∧ 1.6 = 0x1.999999999999ap+0.
Proof. by vm_compute. Qed.

(** C7, amended: between bounds that are ordered and not [NaN],
    [setZoom] of a value that is not [NaN] leaves the zoom within the
    bounds; the zoom is the value itself (as [===] compares numbers) when
    the value lies within the bounds, the upper bound when the value lies
    above it and the lower bound when the value lies below it: the clamp
    triggers past a bound only. [zoomIn] and [zoomOut] are [setZoom] of
    the current zoom plus and minus the step. With the default
    configuration and zoom 1, each of the first nine calls of [zoomIn]
    leaves the rounded sum of zoom and step as the zoom, unclamped; six
    calls give 1.6000000000000005 ([0x1.999999999999cp+0]), which is
    below the upper bound; the tenth sum, 2.000000000000001, is above
    the upper bound, and ten calls give exactly 2. *)
Theorem zoom_is_clamped cfg st v :
  is_nan (minZoom cfg) = false → is_nan (maxZoom cfg) = false → is_nan v = false →
  (minZoom cfg <=? maxZoom cfg) = true →
  let z := zoomRef (setZoom cfg v st) in
  let run (n : nat) :=
    zoomRef (Nat.iter n (zoomIn defaultZoomConfig) (initialZoom None None)) in
  (minZoom cfg <=? z) = true ∧ (z <=? maxZoom cfg) = true
  ∧ ((minZoom cfg <=? v) = true → (v <=? maxZoom cfg) = true → (z =? v) = true)
  ∧ ((maxZoom cfg <? v) = true → z = maxZoom cfg)
  ∧ ((v <? minZoom cfg) = true → (z =? minZoom cfg) = true)
  ∧ zoomIn cfg st = setZoom cfg (zoomRef st + zoomStep cfg) st
  ∧ zoomOut cfg st = setZoom cfg (zoomRef st - zoomStep cfg) st
  ∧ (is_nan (zoomRef st + zoomStep cfg) = false →
     (minZoom cfg <=? zoomRef (zoomIn cfg st)) = true
     ∧ (zoomRef (zoomIn cfg st) <=? maxZoom cfg) = true)
  ∧ (is_nan (zoomRef st - zoomStep cfg) = false →
     (minZoom cfg <=? zoomRef (zoomOut cfg st)) = true
     ∧ (zoomRef (zoomOut cfg st) <=? maxZoom cfg) = true)
  ∧ Forall (λ k, run (S k) = run k + zoomStep defaultZoomConfig) (seq 0 9)
  ∧ run 6%nat = 0x1.999999999999cp+0
  ∧ (run 6%nat <? maxZoom defaultZoomConfig) = true
  ∧ (maxZoom defaultZoomConfig <? run 9%nat + zoomStep defaultZoomConfig) = true
  ∧ run 10%nat = maxZoom defaultZoomConfig.
Proof.
  intros Hmin Hmax Hv Hle z run.
  pose proof (clampZoom_spec cfg v Hmin Hmax Hv Hle) as Hclamp. cbv zeta in Hclamp.
  destruct Hclamp as ((Hlo & Hhi) & Hin & Habove & Hbelow).
  split_and!; try done; try (by vm_compute).
  - intros Hsum. by destruct (clampZoom_spec cfg _ Hmin Hmax Hsum Hle) as (Hrange & _).
  - intros Hsum. by destruct (clampZoom_spec cfg _ Hmin Hmax Hsum Hle) as (Hrange & _).
  - cbn [seq]. repeat (apply Forall_cons; split; [by vm_compute|]). apply Forall_nil_2.
Qed.

Lemma zoom_is_clamped_witness :
  zoomRef (setZoom defaultZoomConfig 0x1.4p+2 (initialZoom None None)) = 0x1p+1
  ∧ (zoomRef (setZoom defaultZoomConfig 0x1.8p+0 (initialZoom None None)) =? 0x1.8p+0) = true
  ∧ (zoomRef (setZoom defaultZoomConfig 0x1p-3 (initialZoom None None)) =? 0x1p-2) = true.
Proof.
  split_and!.
  - destruct (zoom_is_clamped defaultZoomConfig (initialZoom None None) 0x1.4p+2)
      as (_ & _ & _ & Habove & _); [reflexivity..|].
    apply Habove. reflexivity.
  - destruct (zoom_is_clamped defaultZoomConfig (initialZoom None None) 0x1.8p+0)
      as (_ & _ & Hin & _); [reflexivity..|].
    apply Hin; reflexivity.
  - destruct (zoom_is_clamped defaultZoomConfig (initialZoom None None) 0x1p-3)
      as (_ & _ & _ & _ & Hbelow & _); [reflexivity..|].
    apply Hbelow. reflexivity.
Defined.

End Binary64Zoom.

(* --------------------------------------------------------------------- *)
(** ** The engine store                                                   *)
(* --------------------------------------------------------------------- *)

Section EngineStore.

Implicit Types (eng : Engine) (c : EngineConnection) (h : nat).

Lemma elem_of_flattenConnections eng h c :
  (h, c) ∈ flattenConnections eng ↔ eng_connections eng !! h = Some c ∧ conn_deleted c = false.
Proof.
  unfold flattenConnections. rewrite list_elem_of_filter. simpl. split.
  - intros [Hlive Hin]. apply elem_of_lookup_imap_1 in Hin as (i & y & [= -> ->] & Hi). done.
  - intros [Hc Hlive]. split; [done|]. by apply (elem_of_lookup_imap_2 (λ h c, (h, c))).
Qed.

Lemma engineDelete_lookup eng h h' :
  eng_connections (engineDelete h eng) !! h'
  = if decide (h = h') then markDeleted <$> eng_connections eng !! h'
    else eng_connections eng !! h'.
Proof.
  unfold engineDelete; simpl. case_decide as Hh.
  - subst. apply list_lookup_alter_eq.
  - by apply list_lookup_alter_ne.
Qed.

Lemma updateConnection_lookup f eng h h' :
  eng_connections (updateConnection f h eng) !! h'
  = if decide (h = h') then f <$> eng_connections eng !! h' else eng_connections eng !! h'.
Proof.
  unfold updateConnection; simpl. case_decide as Hh.
  - subst. apply list_lookup_alter_eq.
  - by apply list_lookup_alter_ne.
Qed.

Lemma engineConnect_Some s t d eng eng' h :
  engineConnect s t d eng = (eng', Some h) →
  h = length (eng_connections eng)
  ∧ eng_endpoints eng' = eng_endpoints eng
  ∧ eng_connections eng' = (eng_connections eng ++ [newConnection s t d])%list.
Proof.
  unfold engineConnect.
  destruct (eng_endpoints eng !! s), (eng_endpoints eng !! t); intros [= <- <-]; done.
Qed.

Lemma engineConnect_registered s t d eng :
  is_Some (eng_endpoints eng !! s) → is_Some (eng_endpoints eng !! t) →
  ∃ eng', engineConnect s t d eng = (eng', Some (length (eng_connections eng))).
Proof. intros [? Hs] [? Ht]. unfold engineConnect. rewrite Hs, Ht. eauto. Qed.

Lemma engineConnect_None s t d eng eng' :
  engineConnect s t d eng = (eng', None) → eng' = eng.
Proof.
  unfold engineConnect.
  destruct (eng_endpoints eng !! s), (eng_endpoints eng !! t); intros [= <-]; done.
Qed.

(** What the three updates of a claimed connection keep and set. *)
Lemma touch_fields selected data c :
  conn_sourceUuid (touch selected data c) = conn_sourceUuid c
  ∧ conn_targetUuid (touch selected data c) = conn_targetUuid c
  ∧ conn_deleted (touch selected data c) = conn_deleted c
  ∧ conn_idParam (touch selected data c) = Some (fc_id data).
Proof.
  unfold touch, updateConnectionMetadata, ensureDeleteOverlay, attachConnectionHandlers.
  destruct (conn_handlersParam c); simpl; case_bool_decide; simpl; done.
Qed.

Lemma touch_tagOf selected data c :
  fc_id data ≠ EmptyString → tagOf (touch selected data c) = Some (fc_id data).
Proof.
  intros Hid. unfold tagOf. destruct (touch_fields selected data c) as (_ & _ & _ & ->).
  simpl. by rewrite bool_decide_eq_false_2.
Qed.

Lemma tagOf_Some c t : tagOf c = Some t → conn_idParam c = Some t ∧ t ≠ EmptyString.
Proof.
  unfold tagOf, truthy. destruct (conn_idParam c) as [t'|]; [|done].
  case_bool_decide; simpl; [done|]. by intros [= ->].
Qed.

Lemma tagOf_idParam c t : conn_idParam c = Some t → t ≠ EmptyString → tagOf c = Some t.
Proof. intros Hp Ht. unfold tagOf, truthy. rewrite Hp. by rewrite bool_decide_eq_false_2. Qed.

Lemma markDeleted_fields c :
  conn_deleted (markDeleted c) = true ∧ tagOf (markDeleted c) = tagOf c
  ∧ conn_sourceUuid (markDeleted c) = conn_sourceUuid c
  ∧ conn_targetUuid (markDeleted c) = conn_targetUuid c.
Proof. done. Qed.

Lemma isSameUuid_true c s t :
  isSameUuid c s t = true ↔ conn_sourceUuid c = s ∧ conn_targetUuid c = t.
Proof.
  unfold isSameUuid. rewrite andb_true_iff, !bool_decide_eq_true. done.
Qed.

Lemma claimConnection_engine selected data h st :
  eng_endpoints (ps_engine (claimConnection selected data h st)) = eng_endpoints (ps_engine st)
  ∧ ∀ h', eng_connections (ps_engine (claimConnection selected data h st)) !! h'
          = if decide (h = h') then touch selected data <$> eng_connections (ps_engine st) !! h'
            else eng_connections (ps_engine st) !! h'.
Proof.
  split; [done|]. intros h'. unfold claimConnection. cbn [ps_engine].
  rewrite !updateConnection_lookup. case_decide; [|done].
  unfold touch. by destruct (eng_connections (ps_engine st) !! h').
Qed.

End EngineStore.

(* --------------------------------------------------------------------- *)
(** ** Engine event handlers                                              *)
(* --------------------------------------------------------------------- *)

Section EngineEventHandlers.

Implicit Types (cb : Callbacks) (cv : Canvas) (info : ConnectionInfo).

Lemma normalizePortId_not_default (p : option string) :
  normalizePortId p ≠ Some DEFAULT_PORT_ID.
Proof. unfold normalizePortId. by case_bool_decide. Qed.

Lemma normalizePortId_other (p : option string) :
  p ≠ Some DEFAULT_PORT_ID → normalizePortId p = p.
Proof. intros Hp. unfold normalizePortId. by rewrite bool_decide_eq_false_2. Qed.

(** What a successful conversion returns. *)
Lemma toDraftConnection_Some info d :
  toDraftConnection info = Some d →
  truthy (endpointNodeId (info_sourceEndpoint info)) = true
  ∧ truthy (endpointNodeId (info_targetEndpoint info)) = true
  ∧ endpointNodeId (info_sourceEndpoint info) = Some (nodeId (draft_source d))
  ∧ endpointNodeId (info_targetEndpoint info) = Some (nodeId (draft_target d))
  ∧ portId (draft_source d) = normalizePortId (endpointPortId (info_sourceEndpoint info))
  ∧ portId (draft_target d) = normalizePortId (endpointPortId (info_targetEndpoint info)).
Proof.
  unfold toDraftConnection.
  destruct (truthy (endpointNodeId (info_sourceEndpoint info))) eqn:Hs; [|done].
  destruct (truthy (endpointNodeId (info_targetEndpoint info))) eqn:Ht; [|done].
  simpl.
  destruct (endpointNodeId (info_sourceEndpoint info)) as [s|]; [|done].
  destruct (endpointNodeId (info_targetEndpoint info)) as [t|]; [|done].
  by intros [= <-].
Qed.

(** When a node identity is missing or empty, the conversion gives nothing. *)
Lemma toDraftConnection_None info :
  truthy (endpointNodeId (info_sourceEndpoint info)) = false
  ∨ truthy (endpointNodeId (info_targetEndpoint info)) = false →
  toDraftConnection info = None.
Proof.
  unfold toDraftConnection. intros [-> | ->]; [done|]. by rewrite orb_true_r.
Qed.

Lemma jpDeleteConnection_silent cb h cv :
  cv_notifications (jpDeleteConnection cb h false cv) = cv_notifications cv
  ∧ cv_syncing (jpDeleteConnection cb h false cv) = cv_syncing cv
  ∧ eng_connections (cv_engine (jpDeleteConnection cb h false cv))
    = alter markDeleted h (eng_connections (cv_engine cv)).
Proof.
  unfold jpDeleteConnection.
  destruct (eng_connections (cv_engine cv) !! h) as [c|] eqn:Hc; simpl.
  - destruct (conn_deleted c) eqn:Hdel; simpl; [|done].
    split_and!; [done..|]. symmetry. apply list_eq. intros i.
    destruct (decide (i = h)) as [->|Hne].
    + rewrite list_lookup_alter_eq, Hc. simpl. f_equal. destruct c; simpl in *; by subst.
    + by rewrite list_lookup_alter_ne.
  - split_and!; [done..|]. symmetry. apply list_eq. intros i.
    destruct (decide (i = h)) as [->|Hne].
    + by rewrite list_lookup_alter_eq, Hc.
    + by rewrite list_lookup_alter_ne.
Qed.

(** Had the deletion fired its event, the application would have been
    notified of a detachment. *)
Lemma jpDeleteConnection_firing cb h cv c d :
  cv_syncing cv = false → onLinkDetached cb = true →
  eng_connections (cv_engine cv) !! h = Some c → conn_deleted c = false →
  toDraftConnection (connectionInfo (cv_engine cv) h c) = Some d →
  cv_notifications (jpDeleteConnection cb h true cv) = (cv_notifications cv ++ [LinkDetached d])%list.
Proof.
  intros Hsync Hcb Hc Hdel Hd. unfold jpDeleteConnection, onConnectionDetached.
  rewrite Hc, Hdel. simpl. by rewrite Hsync, Hd, Hcb.
Qed.

(** During a reconciliation pass, and for connections made by the
    program (no original event), the connection handler does nothing. *)
Lemma onConnection_guarded cb info oev cv :
  cv_syncing cv = true ∨ oev = None → onConnection cb info oev cv = cv.
Proof.
  intros [Hs| ->]; unfold onConnection; [by rewrite Hs|].
  by rewrite orb_true_r.
Qed.

Lemma onConnectionDetached_guarded cb info cv :
  cv_syncing cv = true → onConnectionDetached cb info cv = cv.
Proof. intros Hs. unfold onConnectionDetached. by rewrite Hs. Qed.

(** C8: for a connection made by direct manipulation, when the creation
    handler returns [false] the connection is marked deleted in the
    engine and the only notification of the whole step is the creation
    notification itself, also when a detachment callback is bound. When
    the handler returns [true] or nothing, the engine is left as it was. *)
Theorem vetoed_connection_is_rolled_back_silently cb info ev cv handler draft :
  cv_syncing cv = false →
  toDraftConnection info = Some draft →
  onLinkCreate cb = Some handler →
  let cv' := onConnection cb info (Some ev) cv in
  cv_notifications cv' = (cv_notifications cv ++ [LinkCreate draft])%list
  ∧ (handler draft = ReturnsFalse →
       eng_connections (cv_engine cv')
       = alter markDeleted (info_connection info) (eng_connections (cv_engine cv))
       ∧ ∀ c, (info_connection info, c) ∉ flattenConnections (cv_engine cv'))
  ∧ (handler draft ≠ ReturnsFalse → cv_engine cv' = cv_engine cv).
Proof.
  intros Hsync Hdraft Hcb. unfold onConnection. rewrite Hsync, Hdraft, Hcb. simpl.
  destruct (handler draft) eqn:Hres; simpl.
  - by split_and!.
  - destruct (jpDeleteConnection_silent cb (info_connection info) (notify (LinkCreate draft) cv))
      as (Hn & _ & He).
    split_and!; [by rewrite Hn| |done]. intros _. split; [by rewrite He|].
    intros c Hin. apply elem_of_flattenConnections in Hin as [Hc Hlive].
    rewrite He, list_lookup_alter_eq in Hc. simpl in Hc.
    destruct (eng_connections (cv_engine cv) !! info_connection info); simpl in Hc; [|done].
    injection Hc as <-. done.
  - by split_and!.
Qed.

Lemma vetoed_connection_is_rolled_back_silently_witness :
  let element id :=
    Some {| closest_jr_node := Some {| attributes := {[ NODE_ID_ATTRIBUTE := id ]} |} |} in
  let endpoints : gmap string Endpoint :=
    {[ "A:out" := {| ep_portId := Some "out"; ep_element := element "A" |};
       "B:default" := {| ep_portId := Some "default"; ep_element := element "B" |} ]} in
  let drawn := newConnection "A:out" "B:default" true in
  let eng := {| eng_endpoints := endpoints; eng_connections := [drawn] |} in
  let cv := {| cv_engine := eng; cv_syncing := false; cv_notifications := [] |} in
  let cb := {| onLinkCreate := Some (λ _, ReturnsFalse); onLinkDetached := true |} in
  let ev := {| metaKey := false; ctrlKey := false; shiftKey := false |} in
  let draft := {| draft_source := {| nodeId := "A"; portId := Some "out" |};
                  draft_target := {| nodeId := "B"; portId := None |} |} in
  let cv' := onConnection cb (connectionInfo eng 0 drawn) (Some ev) cv in
  cv_notifications cv' = [LinkCreate draft]
  ∧ ∀ c, (0, c) ∉ flattenConnections (cv_engine cv').
Proof.
  intros element endpoints drawn eng cv cb ev draft cv'.
  destruct (vetoed_connection_is_rolled_back_silently cb (connectionInfo eng 0 drawn) ev cv
              (λ _, ReturnsFalse) draft) as (Hn & Hveto & _).
  - reflexivity.
  - by vm_compute.
  - reflexivity.
  - split; [exact Hn|]. by apply Hveto.
Defined.

Lemma toDraftConnection_noDefaultPort info d :
  toDraftConnection info = Some d → noDefaultPort d.
Proof.
  intros Hd. apply toDraftConnection_Some in Hd as (_ & _ & _ & _ & Hs & Ht).
  unfold noDefaultPort. rewrite Hs, Ht. split; apply normalizePortId_not_default.
Qed.

(** What either handler adds to the notifications: nothing, or one
    notification whose draft is the converted event payload. *)
Lemma onConnection_notifications cb info oev cv :
  cv_notifications (onConnection cb info oev cv) = cv_notifications cv
  ∨ ∃ d, toDraftConnection info = Some d
         ∧ cv_notifications (onConnection cb info oev cv)
           = (cv_notifications cv ++ [LinkCreate d])%list.
Proof.
  unfold onConnection.
  destruct (cv_syncing cv || negb (bool_decide (is_Some oev))); [by left|].
  destruct (toDraftConnection info) as [d|] eqn:Hd; [|by left].
  destruct (onLinkCreate cb) as [handler|]; [|by left].
  right. exists d. split; [done|].
  destruct (handler d); try done.
  by destruct (jpDeleteConnection_silent cb (info_connection info) (notify (LinkCreate d) cv))
    as (-> & _ & _).
Qed.

Lemma onConnectionDetached_notifications cb info cv :
  cv_notifications (onConnectionDetached cb info cv) = cv_notifications cv
  ∨ ∃ d, toDraftConnection info = Some d
         ∧ cv_notifications (onConnectionDetached cb info cv)
           = (cv_notifications cv ++ [LinkDetached d])%list.
Proof.
  unfold onConnectionDetached.
  destruct (cv_syncing cv); [by left|].
  destruct (toDraftConnection info) as [d|] eqn:Hd; [|by left].
  destruct (onLinkDetached cb); [|by left].
  right. by exists d.
Qed.

(** C10: the notifications that the connection and detachment handlers
    deliver carry drafts without the reserved default port identity (a
    port named by it is delivered as an absent port), and when the node
    identity of either endpoint is missing or empty the conversion gives
    nothing and the handlers deliver nothing. *)
Theorem delivered_drafts_never_name_the_default_port cb info oev cv :
  (∃ new,
     cv_notifications (onConnection cb info oev cv) = (cv_notifications cv ++ new)%list
     ∧ Forall (λ n, noDefaultPort (deliveredDraft n)) new)
  ∧ (∃ new,
       cv_notifications (onConnectionDetached cb info cv) = (cv_notifications cv ++ new)%list
       ∧ Forall (λ n, noDefaultPort (deliveredDraft n)) new)
  ∧ (∀ d, toDraftConnection info = Some d →
          portId (draft_source d) = normalizePortId (endpointPortId (info_sourceEndpoint info))
          ∧ portId (draft_target d) = normalizePortId (endpointPortId (info_targetEndpoint info))
          ∧ normalizePortId (Some DEFAULT_PORT_ID) = None)
  ∧ (truthy (endpointNodeId (info_sourceEndpoint info)) = false
     ∨ truthy (endpointNodeId (info_targetEndpoint info)) = false →
     toDraftConnection info = None
     ∧ cv_notifications (onConnection cb info oev cv) = cv_notifications cv
     ∧ cv_notifications (onConnectionDetached cb info cv) = cv_notifications cv).
Proof.
  split_and!.
  - destruct (onConnection_notifications cb info oev cv) as [->|(d & Hd & ->)].
    + exists []. by rewrite app_nil_r.
    + exists [LinkCreate d]. split; [done|].
      constructor; [|done]. by eapply toDraftConnection_noDefaultPort.
  - destruct (onConnectionDetached_notifications cb info cv) as [->|(d & Hd & ->)].
    + exists []. by rewrite app_nil_r.
    + exists [LinkDetached d]. split; [done|].
      constructor; [|done]. by eapply toDraftConnection_noDefaultPort.
  - intros d Hd. apply toDraftConnection_Some in Hd as (_ & _ & _ & _ & Hs & Ht). done.
  - intros Hmissing. pose proof (toDraftConnection_None info Hmissing) as Hnone.
    split_and!; [done| |].
    + destruct (onConnection_notifications cb info oev cv) as [->|(d & Hd & _)]; congruence.
    + destruct (onConnectionDetached_notifications cb info cv) as [->|(d & Hd & _)]; congruence.
Qed.

End EngineEventHandlers.

(* --------------------------------------------------------------------- *)
(** ** The lookup tables of a pass                                        *)
(* --------------------------------------------------------------------- *)

Section PassIndex.

Implicit Types (eng : Engine) (c : EngineConnection) (h : nat).

Lemma NoDup_omap_inj {A B} (f : A → option B) (l : list A) (x y : A) (b : B) :
  NoDup (omap f l) → x ∈ l → y ∈ l → f x = Some b → f y = Some b → x = y.
Proof.
  induction l as [|a l IH]; intros Hnd Hx Hy Hfx Hfy; [by apply elem_of_nil in Hx|].
  simpl in Hnd. apply elem_of_cons in Hx as [->|Hx]; apply elem_of_cons in Hy as [->|Hy].
  - done.
  - rewrite Hfx in Hnd. apply NoDup_cons in Hnd as [Hb _].
    exfalso. apply Hb. apply list_elem_of_omap. eauto.
  - rewrite Hfy in Hnd. apply NoDup_cons in Hnd as [Hb _].
    exfalso. apply Hb. apply list_elem_of_omap. eauto.
  - apply IH; try done. destruct (f a); [by apply NoDup_cons in Hnd as [_ ?]|done].
Qed.

Lemma uniqueTags_inj eng h1 h2 c1 c2 t :
  uniqueTags eng →
  eng_connections eng !! h1 = Some c1 → eng_connections eng !! h2 = Some c2 →
  conn_deleted c1 = false → conn_deleted c2 = false →
  tagOf c1 = Some t → tagOf c2 = Some t → h1 = h2.
Proof.
  intros Hu H1 H2 Hl1 Hl2 Ht1 Ht2.
  assert ((h1, c1) = (h2, c2)) as [= -> _]; [|done].
  eapply (NoDup_omap_inj (λ hc : nat * EngineConnection, tagOf hc.2)); [exact Hu|..|exact Ht1|exact Ht2].
  - by apply elem_of_flattenConnections.
  - by apply elem_of_flattenConnections.
Qed.

Lemma indexConnection_fold (l : list (nat * EngineConnection)) (acc : gmap string nat * gmap string nat) :
  (∀ t h, (fold_left indexConnection l acc).1 !! t = Some h →
          acc.1 !! t = Some h ∨ ∃ c, (h, c) ∈ l ∧ tagOf c = Some t)
  ∧ (∀ t, is_Some (acc.1 !! t) ∨ (∃ h c, (h, c) ∈ l ∧ tagOf c = Some t) →
          is_Some ((fold_left indexConnection l acc).1 !! t))
  ∧ (∀ k h, (fold_left indexConnection l acc).2 !! k = Some h →
            acc.2 !! k = Some h ∨ ∃ c, (h, c) ∈ l ∧ connKey c = k).
Proof.
  revert acc. induction l as [|[h0 c0] l IH]; intros acc; simpl.
  - split_and!; [by left| |by left].
    intros t [?|(h & c & Hin & _)]; [done|by apply elem_of_nil in Hin].
  - destruct (IH (indexConnection acc (h0, c0))) as (IH1 & IH2 & IH3). split_and!.
    + intros t h Hr. destruct (IH1 t h Hr) as [Hacc|(c & Hin & Ht)].
      * unfold indexConnection in Hacc; simpl in Hacc.
        destruct (tagOf c0) as [t0|] eqn:Ht0; [|by left].
        destruct (decide (t0 = t)) as [->|Hne].
        -- rewrite lookup_insert_eq in Hacc. injection Hacc as <-.
           right. exists c0. split; [left|done].
        -- rewrite lookup_insert_ne in Hacc by done. by left.
      * right. exists c. split; [by right|done].
    + intros t Ht. apply IH2. unfold indexConnection; simpl.
      destruct Ht as [Hacc|(h & c & Hin & Ht)].
      * left. destruct (tagOf c0) as [t0|]; [|done].
        apply lookup_insert_is_Some'. by right.
      * apply elem_of_cons in Hin as [[= -> ->]|Hin].
        -- left. rewrite Ht. apply lookup_insert_is_Some'. by left.
        -- right. eauto.
    + intros k h Hr. destruct (IH3 k h Hr) as [Hacc|(c & Hin & Hk)].
      * unfold indexConnection in Hacc; simpl in Hacc.
        destruct (decide (connKey c0 = k)) as [<-|Hne].
        -- rewrite lookup_insert_eq in Hacc. injection Hacc as <-.
           right. exists c0. split; [left|done].
        -- rewrite lookup_insert_ne in Hacc by done. by left.
      * right. exists c. split; [by right|done].
Qed.

Lemma indexConnections_existing eng t h :
  (indexConnections eng).1 !! t = Some h →
  ∃ c, eng_connections eng !! h = Some c ∧ conn_deleted c = false ∧ tagOf c = Some t.
Proof.
  intros Hr. destruct (indexConnection_fold (flattenConnections eng) (∅, ∅)) as (H1 & _ & _).
  destruct (H1 t h Hr) as [Hempty|(c & Hin & Ht)]; [simpl in Hempty; by rewrite lookup_empty in Hempty|].
  apply elem_of_flattenConnections in Hin as [? ?]. eauto.
Qed.

Lemma indexConnections_existing_complete eng h c t :
  eng_connections eng !! h = Some c → conn_deleted c = false → tagOf c = Some t →
  is_Some ((indexConnections eng).1 !! t).
Proof.
  intros Hc Hl Ht. destruct (indexConnection_fold (flattenConnections eng) (∅, ∅)) as (_ & H2 & _).
  apply H2. right. exists h, c. split; [|done]. by apply elem_of_flattenConnections.
Qed.

Lemma indexConnections_byUuid eng k h :
  (indexConnections eng).2 !! k = Some h →
  ∃ c, eng_connections eng !! h = Some c ∧ conn_deleted c = false ∧ connKey c = k.
Proof.
  intros Hr. destruct (indexConnection_fold (flattenConnections eng) (∅, ∅)) as (_ & _ & H3).
  destruct (H3 k h Hr) as [Hempty|(c & Hin & Ht)]; [simpl in Hempty; by rewrite lookup_empty in Hempty|].
  apply elem_of_flattenConnections in Hin as [? ?]. eauto.
Qed.

(** The invariant holds when the loop starts. *)
Lemma startPass_invariant eng cm :
  uniqueTags eng → PassInvariant eng [] [] (startPass cm eng).
Proof.
  intros Hu. split; simpl.
  - done.
  - intros h c0 Hc0. eauto.
  - intros h1 h2 c1 c2 t. by apply uniqueTags_inj.
  - apply indexConnections_existing.
  - intros h c t Hc Hl Ht. right.
    destruct (indexConnections_existing_complete eng h c t Hc Hl Ht) as [h' Hh'].
    destruct (indexConnections_existing eng t h' Hh') as (c' & Hc' & Hl' & Ht').
    by rewrite (uniqueTags_inj eng h h' c c' t).
  - done.
  - intros t Ht. by apply elem_of_nil in Ht.
  - intros data Hd. by apply elem_of_nil in Hd.
  - intros k u Hk. destruct (indexConnections_byUuid eng k u Hk) as (c & Hc & Hl & Hck).
    eauto.
  - done.
  - eauto.
Qed.

End PassIndex.

(* --------------------------------------------------------------------- *)
(** ** The invariant of a reconciliation pass                             *)
(* --------------------------------------------------------------------- *)

Section PassInvariants.

Variable eng0 : Engine.

Implicit Types (st : PassState) (c : EngineConnection) (h : nat)
  (claimed : list FlowConnection) (swept : list string) (data : FlowConnection).

Local Abbreviation conns st := (eng_connections (ps_engine st)).

(** No live connection of the state carries tag [t]. *)
Local Abbreviation untaggedBy t st :=
  (∀ h c, conns st !! h = Some c → conn_deleted c = false → tagOf c ≠ Some t).

(** The claimed connections have identities that are not empty and differ
    from [id]. *)
Local Abbreviation otherIds claimed id :=
  (∀ d, d ∈ claimed → fc_id d ≠ EmptyString ∧ fc_id d ≠ id).

(** Claiming the connection behind [h] for [data]. *)
Lemma claim_invariant claimed swept st st' selected data h c :
  PassInvariant eng0 claimed swept st →
  fc_id data ≠ EmptyString → otherIds claimed (fc_id data) →
  conns st !! h = Some c → conn_deleted c = false →
  conn_sourceUuid c = sourceUuidOf data → conn_targetUuid c = targetUuidOf data →
  tagOf c = None ∨ tagOf c = Some (fc_id data) →
  (∀ h' c', conns st !! h' = Some c' → conn_deleted c' = false →
            tagOf c' = Some (fc_id data) → h' = h) →
  eng_endpoints (ps_engine st') = eng_endpoints (ps_engine st) →
  (∀ h', conns st' !! h'
         = if decide (h = h') then touch selected data <$> conns st !! h' else conns st !! h') →
  ps_existing st' = delete (fc_id data) (ps_existing st) →
  (∀ k u, ps_byUuid st' !! k = Some u → ps_byUuid st !! k = Some u) →
  (∀ k u c0, ps_byUuid st' !! k = Some u → eng_connections eng0 !! u = Some c0 →
             tagOf c0 = None → u ≠ h) →
  PassInvariant eng0 (data :: claimed) (fc_id data :: swept) st'.
Proof.
  intros [Iep Iuu Iun Iex Itg Ius Isw Icl Iby Iix Iut] Hid Hother Hc Hlive Hsrc Htgt Htag Honly
    Hep Hlk Hex Hby Hfree.
  destruct (touch_fields selected data c) as (Tsrc & Ttgt & Tdel & Tid).
  pose proof (touch_tagOf selected data c Hid) as Ttag.
  assert (∀ h' c', conns st' !! h' = Some c' →
            (h' = h ∧ c' = touch selected data c) ∨ (h' ≠ h ∧ conns st !! h' = Some c')) as Hcases.
  { intros h' c'. rewrite Hlk. case_decide as Hh.
    - subst h'. rewrite Hc. simpl. intros [= <-]. by left.
    - intros Hc'. right. by split; [intros ->|]. }
  assert (∀ h' c', h' ≠ h → conns st !! h' = Some c' → conns st' !! h' = Some c') as Hkeep.
  { intros h' c' Hne Hc'. rewrite Hlk. by rewrite decide_False by (by intros ->). }
  assert (conns st' !! h = Some (touch selected data c)) as Hnew.
  { rewrite Hlk, decide_True by done. by rewrite Hc. }
  split.
  - by rewrite Hep.
  - intros h0 c0 Hc0. destruct (Iuu h0 c0 Hc0) as (c1 & Hc1 & Hs1 & Ht1).
    destruct (decide (h0 = h)) as [->|Hne].
    + rewrite Hc in Hc1. injection Hc1 as <-. exists (touch selected data c).
      by rewrite Tsrc, Ttgt.
    + exists c1. split_and!; [by apply Hkeep|done..].
  - intros h1 h2 c1 c2 t H1 H2 Hl1 Hl2 Ht1 Ht2.
    destruct (Hcases h1 c1 H1) as [[-> ->]|[Hn1 Ho1]];
      destruct (Hcases h2 c2 H2) as [[-> ->]|[Hn2 Ho2]].
    + done.
    + rewrite Ttag in Ht1. injection Ht1 as <-. symmetry. by eapply Honly.
    + rewrite Ttag in Ht2. injection Ht2 as <-. by eapply Honly.
    + by eapply Iun.
  - intros t h' Ht. rewrite Hex in Ht. apply lookup_delete_Some in Ht as [Hne Ht].
    destruct (Iex t h' Ht) as (c' & Hc' & Hl' & Ht').
    exists c'. split_and!; [|done..]. apply Hkeep; [|done].
    intros ->. rewrite Hc in Hc'. injection Hc' as <-.
    destruct Htag as [Htag|Htag]; rewrite Htag in Ht'; congruence.
  - intros h' c' t Hc' Hl' Ht'. destruct (Hcases h' c' Hc') as [[-> ->]|[Hne Ho]].
    + left. exists data. rewrite Ttag in Ht'. injection Ht' as <-.
      split_and!; [left|done|by rewrite Tsrc|by rewrite Ttgt].
    + destruct (Itg h' c' t Ho Hl' Ht') as [(d & Hd & Hdt & Hds & Hdg)|Hin].
      * left. exists d. split_and!; [by right|done..].
      * right. rewrite Hex. apply lookup_delete_Some. split; [|done].
        intros <-. apply Hne. by eapply Honly.
  - intros t h' Ht Hix. apply not_elem_of_cons in Ht as [Hne Ht].
    rewrite Hex. apply lookup_delete_Some. split; [done|]. by apply Ius.
  - intros t Ht. rewrite Hex. apply elem_of_cons in Ht as [->|Ht].
    + apply lookup_delete_eq.
    + apply lookup_delete_None. right. by apply Isw.
  - intros d Hd. apply elem_of_cons in Hd as [->|Hd].
    + exists h, (touch selected data c). by rewrite Tsrc, Ttgt, Tdel.
    + destruct (Icl d Hd) as (hd & cd & Hcd & Hld & Hpd & Hsd & Hgd).
      exists hd, cd. split_and!; [|done..]. apply Hkeep; [|done].
      intros ->. rewrite Hc in Hcd. injection Hcd as <-.
      destruct (Hother d Hd) as [Hne1 Hne2].
      pose proof (tagOf_idParam c (fc_id d) Hpd Hne1) as Htd.
      destruct Htag as [Htag|Htag]; rewrite Htag in Htd; congruence.
  - intros k u Hu. destruct (Iby k u (Hby k u Hu)) as (c0 & Hc0 & Hl0 & Hk0 & Hun0).
    exists c0. split_and!; [done..|]. intros Ht0. apply Hkeep; [|by apply Hun0].
    by eapply Hfree.
  - intros t h' Ht. rewrite Hex in Ht. apply lookup_delete_Some in Ht as [_ Ht]. by apply Iix.
  - intros h0 c0 Hc0 Hl0 Ht0. destruct (Iut h0 c0 Hc0 Hl0 Ht0) as (c1 & Hc1 & Hl1).
    destruct (decide (h0 = h)) as [->|Hne].
    + rewrite Hc in Hc1. injection Hc1 as <-. exists (touch selected data c).
      split; [done|]. by rewrite Tdel.
    + exists c1. split; [by apply Hkeep|done].
Qed.

(** Removing [id] from [existing], after deleting the connection filed
    under it, if any. *)
Lemma sweepId_invariant claimed swept st st' id :
  PassInvariant eng0 claimed swept st →
  otherIds claimed id →
  eng_endpoints (ps_engine st') = eng_endpoints (ps_engine st) →
  (∀ h', conns st' !! h'
         = if decide (ps_existing st !! id = Some h') then markDeleted <$> conns st !! h'
           else conns st !! h') →
  ps_existing st' = delete id (ps_existing st) →
  ps_byUuid st' = ps_byUuid st →
  PassInvariant eng0 claimed (id :: swept) st' ∧ untaggedBy id st'.
Proof.
  intros [Iep Iuu Iun Iex Itg Ius Isw Icl Iby Iix Iut] Hother Hep Hlk Hex Hby.
  assert (∀ h' c', conns st' !! h' = Some c' → conn_deleted c' = false →
            ps_existing st !! id ≠ Some h' ∧ conns st !! h' = Some c') as Hlive.
  { intros h' c'. rewrite Hlk. case_decide as Hh; [|done].
    destruct (conns st !! h') as [c1|]; simpl; [|done]. by intros [= <-]. }
  assert (∀ h' c' t, conns st !! h' = Some c' → conn_deleted c' = false → tagOf c' = Some t →
            t ≠ id → conns st' !! h' = Some c') as Hkeep.
  { intros h' c' t Hc' Hl' Ht' Hne. rewrite Hlk. rewrite decide_False; [done|].
    intros Hx. destruct (Iex id h' Hx) as (cx & Hcx & _ & Htx).
    rewrite Hc' in Hcx. injection Hcx as <-. rewrite Ht' in Htx. by injection Htx. }
  split; [split|].
  - by rewrite Hep.
  - intros h0 c0 Hc0. destruct (Iuu h0 c0 Hc0) as (c1 & Hc1 & Hs1 & Ht1).
    rewrite Hlk, Hc1. case_decide; simpl; eauto.
  - intros h1 h2 c1 c2 t H1 H2 Hl1 Hl2 Ht1 Ht2.
    destruct (Hlive h1 c1 H1 Hl1) as [_ Ho1]. destruct (Hlive h2 c2 H2 Hl2) as [_ Ho2].
    by eapply Iun.
  - intros t h' Ht. rewrite Hex in Ht. apply lookup_delete_Some in Ht as [Hne Ht].
    destruct (Iex t h' Ht) as (c' & Hc' & Hl' & Ht').
    exists c'. split_and!; [|done..]. by eapply Hkeep.
  - intros h' c' t Hc' Hl' Ht'. destruct (Hlive h' c' Hc' Hl') as [Hnx Ho].
    destruct (Itg h' c' t Ho Hl' Ht') as [Hd|Hin]; [by left|].
    right. rewrite Hex. apply lookup_delete_Some. split; [|done]. by intros <-.
  - intros t h' Ht Hix. apply not_elem_of_cons in Ht as [Hne Ht].
    rewrite Hex. apply lookup_delete_Some. split; [done|]. by apply Ius.
  - intros t Ht. rewrite Hex. apply elem_of_cons in Ht as [->|Ht].
    + apply lookup_delete_eq.
    + apply lookup_delete_None. right. by apply Isw.
  - intros d Hd. destruct (Icl d Hd) as (hd & cd & Hcd & Hld & Hpd & Hsd & Hgd).
    destruct (Hother d Hd) as [Hne1 Hne2].
    exists hd, cd. split_and!; [|done..].
    eapply Hkeep; [done..|by apply tagOf_idParam|done].
  - intros k u Hu. rewrite Hby in Hu. destruct (Iby k u Hu) as (c0 & Hc0 & Hl0 & Hk0 & Hun0).
    exists c0. split_and!; [done..|]. intros Ht0. specialize (Hun0 Ht0).
    rewrite Hlk, decide_False; [done|].
    intros Hx. destruct (Iex id u Hx) as (cx & Hcx & _ & Htx).
    rewrite Hun0 in Hcx. injection Hcx as <-. by rewrite Ht0 in Htx.
  - intros t h' Ht. rewrite Hex in Ht. apply lookup_delete_Some in Ht as [_ Ht]. by apply Iix.
  - intros h0 c0 Hc0 Hl0 Ht0. destruct (Iut h0 c0 Hc0 Hl0 Ht0) as (c1 & Hc1 & Hl1).
    exists c1. split; [|done]. rewrite Hlk, decide_False; [done|].
    intros Hx. apply Iix in Hx.
    destruct (indexConnections_existing eng0 id h0 Hx) as (cx & Hcx & _ & Htx).
    rewrite Hc0 in Hcx. injection Hcx as <-. by rewrite Ht0 in Htx.
  - intros h' c' Hc' Hl' Ht'. destruct (Hlive h' c' Hc' Hl') as [Hnx Ho].
    destruct (Itg h' c' id Ho Hl' Ht') as [(d & Hd & Hdt & _)|Hin]; [|done].
    by destruct (Hother d Hd).
Qed.

(** Appending a fresh, untagged connection. *)
Lemma append_invariant claimed swept st st' cnew :
  PassInvariant eng0 claimed swept st →
  tagOf cnew = None →
  eng_endpoints (ps_engine st') = eng_endpoints (ps_engine st) →
  conns st' = (conns st ++ [cnew])%list →
  ps_existing st' = ps_existing st →
  ps_byUuid st' = ps_byUuid st →
  PassInvariant eng0 claimed swept st'.
Proof.
  intros [Iep Iuu Iun Iex Itg Ius Isw Icl Iby Iix Iut] Hnew Hep Hcs Hex Hby.
  assert (∀ h' c', conns st !! h' = Some c' → conns st' !! h' = Some c') as Hkeep.
  { intros h' c' Hc'. rewrite Hcs. by apply lookup_app_l_Some. }
  assert (∀ h' c' t, conns st' !! h' = Some c' → tagOf c' = Some t → conns st !! h' = Some c')
    as Hold.
  { intros h' c' t Hc' Ht'. rewrite Hcs in Hc'.
    apply lookup_snoc_Some in Hc' as [[_ ?]|[_ <-]]; [done|]. by rewrite Hnew in Ht'. }
  split.
  - by rewrite Hep.
  - intros h0 c0 Hc0. destruct (Iuu h0 c0 Hc0) as (c1 & Hc1 & Hs1 & Ht1). eauto.
  - intros h1 h2 c1 c2 t H1 H2 Hl1 Hl2 Ht1 Ht2. eapply Iun; eauto.
  - intros t h' Ht. rewrite Hex in Ht. destruct (Iex t h' Ht) as (c' & Hc' & Hl' & Ht'). eauto.
  - intros h' c' t Hc' Hl' Ht'. rewrite Hex. eapply Itg; eauto.
  - intros t h' Ht Hix. rewrite Hex. by apply Ius.
  - intros t Ht. rewrite Hex. by apply Isw.
  - intros d Hd. destruct (Icl d Hd) as (hd & cd & Hcd & Hrest). eauto.
  - intros k u Hu. rewrite Hby in Hu. destruct (Iby k u Hu) as (c0 & Hc0 & Hl0 & Hk0 & Hun0).
    eauto 10.
  - intros t h' Ht. rewrite Hex in Ht. by apply Iix.
  - intros h0 c0 Hc0 Hl0 Ht0. destruct (Iut h0 c0 Hc0 Hl0 Ht0) as (c1 & Hc1 & Hl1). eauto.
Qed.

(** *** One iteration of the loop *)

Variables (endpointMap : gmap string Endpoint) (selected : list string)
  (declared : list FlowConnection).

Hypothesis Hunique : uniqueTags eng0.
Hypothesis Hids : wellFormedIds declared.
Hypothesis Hregistered : endpointsRegistered endpointMap declared eng0.
Hypothesis Hpair : pairLookupMeetsUntagged endpointMap declared eng0.

Local Abbreviation keyOf data := (pairKey (sourceUuidOf data) (targetUuidOf data)).

(** The connection filed under the pair key of [data] is either the one
    that the tag lookup finds and keeps, or an untouched untagged
    connection spanning the resolved pair. *)
Lemma pairLookup_cases claimed swept st data u :
  PassInvariant eng0 claimed swept st →
  data ∈ declared → resolvable endpointMap data = true → fc_id data ∉ swept →
  ps_byUuid st !! keyOf data = Some u →
  (∃ c, ps_existing st !! fc_id data = Some u ∧ conns st !! u = Some c
        ∧ isSameUuid c (sourceUuidOf data) (targetUuidOf data) = true)
  ∨ (∃ c0, eng_connections eng0 !! u = Some c0 ∧ conns st !! u = Some c0
           ∧ conn_deleted c0 = false ∧ tagOf c0 = None
           ∧ conn_sourceUuid c0 = sourceUuidOf data ∧ conn_targetUuid c0 = targetUuidOf data).
Proof.
  intros [Iep Iuu Iun Iex Itg Ius Isw Icl Iby Iix Iut] Hin Hres Hns Hu.
  destruct (Iby _ u Hu) as (c0 & Hc0 & Hl0 & Hk0 & Hun0).
  unfold pairLookupMeetsUntagged in Hpair. rewrite Forall_forall in Hpair.
  specialize (Hpair data Hin Hres). rewrite Forall_forall in Hpair.
  destruct (Hpair (u, c0)) as [Hsame Htag].
  { by apply elem_of_flattenConnections. }
  { done. }
  simpl in Hsame, Htag. apply isSameUuid_true in Hsame as [Hs0 Ht0].
  destruct Htag as [Hnone|Hsome].
  - right. exists c0. split_and!; auto.
  - left. destruct (indexConnections_existing_complete eng0 u c0 _ Hc0 Hl0 Hsome) as [h' Hh'].
    destruct (indexConnections_existing eng0 _ h' Hh') as (c' & Hc' & Hl' & Ht').
    assert (h' = u) as -> by (by eapply (uniqueTags_inj eng0)).
    destruct (Iuu u c0 Hc0) as (c & Hc & Hsc & Htc).
    exists c. split_and!; [by apply Ius|done|]. apply isSameUuid_true. by rewrite Hsc, Htc.
Qed.

(** After a tag lookup that found nothing to keep: pair reuse, else
    creation. [stg] is the state [st] with [data.id] already removed
    from [existing], which the loop body does at its end. *)
Lemma reuseOrCreate_invariant claimed swept st stg data :
  PassInvariant eng0 claimed swept stg → untaggedBy (fc_id data) stg →
  ps_engine stg = ps_engine st → ps_byUuid stg = ps_byUuid st →
  ps_existing stg = delete (fc_id data) (ps_existing st) →
  data ∈ declared → resolvable endpointMap data = true →
  otherIds claimed (fc_id data) →
  (∀ u, ps_byUuid st !! keyOf data = Some u →
        ∃ c0, eng_connections eng0 !! u = Some c0 ∧ conns st !! u = Some c0
              ∧ conn_deleted c0 = false ∧ tagOf c0 = None
              ∧ conn_sourceUuid c0 = sourceUuidOf data ∧ conn_targetUuid c0 = targetUuidOf data) →
  PassInvariant eng0 (data :: claimed) (fc_id data :: swept) (reuseOrCreate selected data st).
Proof.
  intros Hinv Hunt Heng Hby Hex Hin Hres Hother Hfacts.
  assert (fc_id data ≠ EmptyString) as Hid.
  { destruct Hids as [_ Hne]. rewrite Forall_forall in Hne. by apply Hne. }
  unfold reuseOrCreate, lookupByPair.
  destruct (ps_byUuid st !! keyOf data) as [u|] eqn:Hu.
  - destruct (Hfacts u eq_refl) as (c0 & Hc0 & Hcu & Hl0 & Ht0 & Hs0 & Hg0).
    match goal with |- PassInvariant _ _ _ (claimConnection _ _ _ ?mid) =>
      destruct (claimConnection_engine selected data u mid) as [Cep Clk] end.
    eapply (claim_invariant claimed swept stg _ selected data u c0); try done.
    + by rewrite Heng.
    + by left.
    + intros h' c' Hc' Hl' Ht'. by destruct (Hunt h' c' Hc' Hl').
    + by rewrite Cep, Heng.
    + intros h'. rewrite Clk. simpl. by rewrite Heng.
    + simpl. by rewrite Hex, delete_delete_eq.
    + simpl. intros k u' Hk. apply lookup_delete_Some in Hk as [_ Hk]. by rewrite Hby.
    + simpl. intros k u' c0' Hk Hc0' Hun' ->. apply lookup_delete_Some in Hk as [Hne Hk].
      destruct Hinv as [_ _ _ _ _ _ _ _ Iby _ _].
      rewrite <- Hby in Hk, Hu.
      destruct (Iby _ _ Hk) as (c1 & Hc1 & _ & Hk1 & _).
      destruct (Iby _ _ Hu) as (c2 & Hc2 & _ & Hk2 & _).
      rewrite Hc1 in Hc2. injection Hc2 as <-. congruence.
  - unfold connectAndClaim.
    assert (∃ eng', engineConnect (sourceUuidOf data) (targetUuidOf data)
                      (negb (bool_decide (fc_editable data = Some false))) (ps_engine st)
                    = (eng', Some (length (conns st)))) as [eng' Hconn].
    { unfold endpointsRegistered in Hregistered. rewrite Forall_forall in Hregistered.
      specialize (Hregistered data Hin Hres). unfold resolvable in Hregistered.
      apply andb_true_iff in Hregistered as [Hs Ht].
      apply bool_decide_eq_true in Hs, Ht.
      destruct Hinv as [Iep _ _ _ _ _ _ _ _ _ _]. rewrite Heng in Iep.
      apply engineConnect_registered; by rewrite Iep. }
    rewrite Hconn. apply engineConnect_Some in Hconn as (_ & Eep & Ecs).
    set (cnew := newConnection (sourceUuidOf data) (targetUuidOf data)
                   (negb (bool_decide (fc_editable data = Some false)))) in *.
    set (stg' := {| ps_engine := eng'; ps_existing := ps_existing stg;
                    ps_byUuid := ps_byUuid stg; ps_connectionMap := ps_connectionMap stg |}).
    assert (PassInvariant eng0 claimed swept stg') as Hinv'.
    { eapply (append_invariant claimed swept stg stg' cnew); try done.
      - simpl. by rewrite Eep, Heng.
      - simpl. by rewrite Ecs, Heng. }
    match goal with |- PassInvariant _ _ _ (claimConnection _ _ ?n ?mid) =>
      destruct (claimConnection_engine selected data n mid) as [Cep Clk] end.
    eapply (claim_invariant claimed swept stg' _ selected data (length (conns st)) cnew);
      try done.
    + simpl. rewrite Ecs. by apply list_lookup_middle.
    + by left.
    + simpl. intros h' c' Hc' Hl' Ht'. rewrite Ecs in Hc'.
      apply lookup_snoc_Some in Hc' as [[_ Hc']|[_ <-]]; [|done].
      rewrite <- Heng in Hc'. by destruct (Hunt h' c' Hc' Hl').
    + simpl. by rewrite Hex, delete_delete_eq.
    + simpl. intros k u' Hk. by rewrite Hby.
    + simpl. intros k u' c0' Hk Hc0' Hun' ->.
      destruct Hinv as [_ _ _ _ _ _ _ _ Iby _ _]. rewrite <- Hby in Hk.
      destruct (Iby _ _ Hk) as (c1 & Hc1 & _ & _ & Hkeep).
      rewrite Hc0' in Hc1. injection Hc1 as <-. specialize (Hkeep Hun').
      rewrite Heng in Hkeep. apply lookup_lt_Some in Hkeep. lia.
Qed.

Lemma reconcileOne_unresolvable st data :
  resolvable endpointMap data = false → reconcileOne endpointMap selected st data = st.
Proof. intros Hres. unfold reconcileOne. by rewrite Hres. Qed.

Lemma reconcileOne_invariant claimed swept st data :
  PassInvariant eng0 claimed swept st →
  data ∈ declared → resolvable endpointMap data = true →
  fc_id data ∉ swept → otherIds claimed (fc_id data) →
  ∃ swept', PassInvariant eng0 (data :: claimed) swept' (reconcileOne endpointMap selected st data)
            ∧ ∀ t, t ∈ swept' ↔ t = fc_id data ∨ t ∈ swept.
Proof.
  intros Hinv Hin Hres Hns Hother.
  assert (fc_id data ≠ EmptyString) as Hid.
  { destruct Hids as [_ Hne]. rewrite Forall_forall in Hne. by apply Hne. }
  unfold reconcileOne. rewrite Hres. simpl. unfold lookupByTag.
  destruct (ps_existing st !! fc_id data) as [x|] eqn:Hx.
  - pose proof Hinv as [Iep Iuu Iun Iex Itg Ius Isw Icl Iby Iix Iut].
    destruct (Iex _ x Hx) as (cx & Hcx & Hlx & Htx). rewrite Hcx.
    destruct (isSameUuid cx (sourceUuidOf data) (targetUuidOf data)) eqn:Hsame.
    + (* the tagged connection is kept *)
      exists (fc_id data :: swept). split; [|intros t; by rewrite elem_of_cons].
      apply isSameUuid_true in Hsame as [Hsx Hgx].
      destruct (claimConnection_engine selected data x st) as [Cep Clk].
      eapply (claim_invariant claimed swept st _ selected data x cx); try done.
      * by right.
      * intros h' c' Hc' Hl' Ht'. by eapply Iun.
      * intros k u c0 Hk Hc0 Hun ->.
        destruct (Iby k x Hk) as (c1 & Hc1 & _ & _ & Hkeep).
        rewrite Hc0 in Hc1. injection Hc1 as <-. specialize (Hkeep Hun).
        rewrite Hcx in Hkeep. injection Hkeep as ->. by rewrite Hun in Htx.
    + (* the tagged connection is stale: deleted, then reuse or creation *)
      exists (fc_id data :: fc_id data :: swept).
      split; [|intros t; rewrite !elem_of_cons; tauto].
      set (st1 := {| ps_engine := engineDelete x (ps_engine st);
                     ps_existing := ps_existing st; ps_byUuid := ps_byUuid st;
                     ps_connectionMap := delete (fc_id data) (ps_connectionMap st) |}).
      set (stg := {| ps_engine := engineDelete x (ps_engine st);
                     ps_existing := delete (fc_id data) (ps_existing st);
                     ps_byUuid := ps_byUuid st;
                     ps_connectionMap := ps_connectionMap st |}).
      destruct (sweepId_invariant claimed swept st stg (fc_id data)) as [Hinvg Huntg];
        try done.
      { intros h'. unfold stg. cbn [ps_engine ps_existing]. rewrite engineDelete_lookup, Hx.
        destruct (decide (x = h')) as [->|Hne]; [by rewrite decide_True|].
        rewrite decide_False; [done|]. by intros [= ->]. }
      eapply (reuseOrCreate_invariant claimed (fc_id data :: swept) st1 stg data); try done.
      intros u Hu. simpl in Hu.
      destruct (pairLookup_cases claimed swept st data u Hinv Hin Hres Hns Hu)
        as [(c & Hxu & Hcu & Hsu)|(c0 & Hc0 & Hcu & Hrest)].
      * rewrite Hx in Hxu. injection Hxu as ->. rewrite Hcx in Hcu. injection Hcu as ->.
        by rewrite Hsame in Hsu.
      * exists c0. split_and!; try tauto. unfold st1. cbn [ps_engine].
        rewrite engineDelete_lookup, decide_False; [done|].
        intros ->. rewrite Hcx in Hcu. injection Hcu as ->.
        destruct Hrest as (_ & Hun & _). by rewrite Hun in Htx.
  - (* no connection carries the tag: reuse or creation *)
    exists (fc_id data :: fc_id data :: swept).
    split; [|intros t; rewrite !elem_of_cons; tauto].
    set (stg := {| ps_engine := ps_engine st;
                   ps_existing := delete (fc_id data) (ps_existing st);
                   ps_byUuid := ps_byUuid st;
                   ps_connectionMap := ps_connectionMap st |}).
    destruct (sweepId_invariant claimed swept st stg (fc_id data)) as [Hinvg Huntg];
      try done.
    { intros h'. simpl. rewrite Hx. by rewrite decide_False. }
    eapply (reuseOrCreate_invariant claimed (fc_id data :: swept) st stg data); try done.
    intros u Hu.
    destruct (pairLookup_cases claimed swept st data u Hinv Hin Hres Hns Hu)
      as [(c & Hxu & _)|(c0 & Hrest)]; [by rewrite Hx in Hxu|].
    exists c0. tauto.
Qed.


(** *** The whole loop *)

Lemma loop_invariant (rest processed : list FlowConnection) claimed swept st :
  (processed ++ rest)%list = declared →
  PassInvariant eng0 claimed swept st →
  (∀ d, d ∈ claimed ↔ d ∈ processed ∧ resolvable endpointMap d = true) →
  (∀ t, t ∈ swept ↔ ∃ d, d ∈ claimed ∧ fc_id d = t) →
  ∃ claimed' swept',
    PassInvariant eng0 claimed' swept' (fold_left (reconcileOne endpointMap selected) rest st)
    ∧ (∀ d, d ∈ claimed' ↔ d ∈ declared ∧ resolvable endpointMap d = true)
    ∧ (∀ t, t ∈ swept' ↔ ∃ d, d ∈ claimed' ∧ fc_id d = t).
Proof.
  revert processed claimed swept st.
  induction rest as [|data rest IH]; intros processed claimed swept st Hsplit Hinv Hcl Hsw; simpl.
  - rewrite app_nil_r in Hsplit. subst processed. eauto.
  - assert (data ∈ declared) as Hin.
    { rewrite <- Hsplit. apply elem_of_app. right. left. }
    assert (∀ d, d ∈ processed → fc_id d ≠ fc_id data) as Hfresh.
    { destruct Hids as [Hnd _]. rewrite <- Hsplit, fmap_app, fmap_cons in Hnd.
      apply NoDup_app in Hnd as (_ & Hdisj & _).
      intros d Hd Heq. apply (Hdisj (fc_id d)).
      - by apply list_elem_of_fmap_2.
      - rewrite Heq. left. }
    assert (((processed ++ [data]) ++ rest)%list = declared) as Hsplit'
      by (by rewrite <- app_assoc).
    destruct (resolvable endpointMap data) eqn:Hres.
    + destruct (reconcileOne_invariant claimed swept st data) as (swept' & Hinv' & Hsw');
        try done.
      * intros Hs. apply Hsw in Hs as (d & Hd & Heq). apply Hcl in Hd as [Hd _].
        by apply (Hfresh d).
      * intros d Hd. apply Hcl in Hd as [Hd _]. split; [|by apply Hfresh].
        destruct Hids as [_ Hne]. rewrite Forall_forall in Hne. apply Hne.
        rewrite <- Hsplit. apply elem_of_app. by left.
      * apply (IH (processed ++ [data])%list (data :: claimed) swept'); try done.
        -- intros d. rewrite elem_of_cons, elem_of_app, list_elem_of_singleton, Hcl.
           split; [intros [->|[? ?]]; auto|intros [[?| ->] ?]; auto].
        -- intros t. rewrite Hsw', Hsw. split.
           ++ intros [->|(d & Hd & Heq)]; [exists data; split; [left|done]|].
              exists d. split; [by right|done].
           ++ intros (d & Hd & Heq). apply elem_of_cons in Hd as [->|Hd]; [by left|].
              right. eauto.
    + rewrite reconcileOne_unresolvable by done.
      apply (IH (processed ++ [data])%list claimed swept); try done.
      intros d. rewrite elem_of_app, list_elem_of_singleton, Hcl.
      split; [intros [? ?]; auto|intros [[?| ->] ?]; [auto|congruence]].
Qed.

End PassInvariants.

Section Sweep.

Implicit Types (st : PassState) (h : nat).

(** The final sweep marks exactly the connections left in [existing]. *)
Lemma sweep_engine st :
  eng_endpoints (sweep st).1 = eng_endpoints (ps_engine st)
  ∧ ∀ h, ∃ b : bool,
      eng_connections (sweep st).1 !! h
      = (if b then markDeleted <$> eng_connections (ps_engine st) !! h
         else eng_connections (ps_engine st) !! h)
      ∧ (b = true ↔ ∃ id, ps_existing st !! id = Some h).
Proof.
  unfold sweep.
  apply (map_fold_weak_ind (λ (r : Engine * gmap string nat) (m : gmap string nat),
    eng_endpoints r.1 = eng_endpoints (ps_engine st)
    ∧ ∀ h, ∃ b : bool,
        eng_connections r.1 !! h
        = (if b then markDeleted <$> eng_connections (ps_engine st) !! h
           else eng_connections (ps_engine st) !! h)
        ∧ (b = true ↔ ∃ id, m !! id = Some h))).
  - split; [done|]. intros h. exists false. split; [done|].
    split; [done|]. intros [id Hid]. by rewrite lookup_empty in Hid.
  - intros id x m r Hfresh [Hep Hall]. split; [done|]. intros h.
    destruct (Hall h) as (b & Hb & Hiff). unfold sweepOne. cbn [fst snd].
    rewrite engineDelete_lookup.
    destruct (decide (x = h)) as [->|Hne].
    + exists true. split.
      * rewrite Hb. destruct b; [|done].
        by destruct (eng_connections (ps_engine st) !! h).
      * split; [|done]. intros _. exists id. apply lookup_insert_eq.
    + exists b. split; [done|]. rewrite Hiff. split.
      * intros [id' Hid']. exists id'. rewrite lookup_insert_ne; [done|].
        intros ->. by rewrite Hfresh in Hid'.
      * intros [id' Hid']. exists id'.
        destruct (decide (id = id')) as [->|Hne'].
        -- rewrite lookup_insert_eq in Hid'. by injection Hid'.
        -- by rewrite lookup_insert_ne in Hid'.
Qed.

(** A connection that is live after the sweep was live before it, with
    the same fields, and [existing] did not hold it. *)
Lemma sweep_live st h c :
  (h, c) ∈ flattenConnections (sweep st).1 ↔
  eng_connections (ps_engine st) !! h = Some c ∧ conn_deleted c = false
  ∧ ∀ id, ps_existing st !! id ≠ Some h.
Proof.
  rewrite elem_of_flattenConnections.
  destruct (sweep_engine st) as [_ Hall]. destruct (Hall h) as (b & -> & Hiff).
  destruct b.
  - split.
    + intros [Hc Hl]. destruct (eng_connections (ps_engine st) !! h); simpl in *; [|done].
      by injection Hc as <-.
    + intros (_ & _ & Hnone). destruct Hiff as [[id Hid] _]; [done|]. by destruct (Hnone id).
  - split.
    + intros [Hc Hl]. split_and!; [done..|]. intros id Hid.
      destruct Hiff as [_ Hiff]. by discriminate Hiff; eauto.
    + by intros (? & ? & _).
Qed.

End Sweep.

(* --------------------------------------------------------------------- *)
(** ** Convergence of a reconciliation pass                               *)
(* --------------------------------------------------------------------- *)

Section Convergence.

Implicit Types (eng : Engine) (data : FlowConnection).

(** C1, as the spec states it, fails: the final sweep runs over the
    connections that carry an identity tag. A live connection without a
    tag that no declared connection claims (one drawn by the user and not
    yet declared) is still live after the pass, next to the connection
    created for the declared one. *)
Lemma unclaimed_untagged_connection_survives :
  let endpoint := {| ep_portId := None; ep_element := None |} in
  let endpoints : gmap string Endpoint := {[ "A:default" := endpoint; "B:default" := endpoint ]} in
  let drawn := newConnection "A:default" "B:default" true in
  let eng0 := {| eng_endpoints := endpoints; eng_connections := [drawn] |} in
  let e1 := {| fc_id := "e1"; fc_source := {| nodeId := "B"; portId := None |};
               fc_target := {| nodeId := "A"; portId := None |};
               fc_label := None; fc_className := None; fc_editable := None |} in
  let eng1 := (reconcileConnections endpoints [] [e1] ∅ eng0).1 in
  (0, drawn) ∈ flattenConnections eng1
  ∧ (λ hc : nat * EngineConnection, (hc.1, conn_sourceUuid hc.2, conn_targetUuid hc.2, conn_idParam hc.2))
      <$> flattenConnections eng1
    = [(0, "A:default", "B:default", None); (1, "B:default", "A:default", Some "e1")].
Proof. split; [|by vm_compute]. vm_compute. left. Qed.

(** C1, amended. Let the declared identities be unique and not empty,
    let no two live connections carry the same tag, let the endpoints of
    the resolvable declared connections be registered in the engine, and
    let the endpoint-pair lookup meet untagged connections only. Then
    after the pass every resolvable declared connection has exactly one
    live connection tagged with its identity, and that connection spans
    its resolved endpoint pair; and every live connection that carries a
    tag is the connection of a resolvable declared connection, so every
    tagged connection that no declared connection claimed is gone. A
    connection that was live and untagged before the pass is still live
    after it, claimed or not. *)
Theorem reconciliation_converges_on_tagged_connections
    (endpointMap : gmap string Endpoint) (selected : list string)
    (declared : list FlowConnection) (connectionMap : gmap string nat) (eng0 : Engine) :
  wellFormedIds declared →
  uniqueTags eng0 →
  endpointsRegistered endpointMap declared eng0 →
  pairLookupMeetsUntagged endpointMap declared eng0 →
  let eng1 := (reconcileConnections endpointMap selected declared connectionMap eng0).1 in
  (∀ data, data ∈ declared → resolvable endpointMap data = true →
     ∃ h c, (h, c) ∈ flattenConnections eng1
            ∧ conn_idParam c = Some (fc_id data)
            ∧ conn_sourceUuid c = sourceUuidOf data ∧ conn_targetUuid c = targetUuidOf data
            ∧ ∀ h' c', (h', c') ∈ flattenConnections eng1 →
                       conn_idParam c' = Some (fc_id data) → h' = h)
  ∧ (∀ h c t, (h, c) ∈ flattenConnections eng1 → tagOf c = Some t →
       ∃ data, data ∈ declared ∧ resolvable endpointMap data = true ∧ fc_id data = t
               ∧ conn_sourceUuid c = sourceUuidOf data ∧ conn_targetUuid c = targetUuidOf data)
  ∧ (∀ h c0, (h, c0) ∈ flattenConnections eng0 → tagOf c0 = None →
       ∃ c, (h, c) ∈ flattenConnections eng1).
Proof.
  intros Hids Hunique Hreg Hpair eng1. unfold eng1, reconcileConnections.
  destruct (loop_invariant eng0 endpointMap selected declared Hunique Hids Hreg Hpair
              declared [] [] [] (startPass connectionMap eng0))
    as (claimed & swept & [Iep Iuu Iun Iex Itg Ius Isw Icl Iby Iix Iut] & Hcl & Hsw).
  { done. }
  { by apply startPass_invariant. }
  { intros d. split; [intros Hd|intros [Hd _]]; by apply elem_of_nil in Hd. }
  { intros t. split; [intros Ht; by apply elem_of_nil in Ht|].
    intros (d & Hd & _). by apply elem_of_nil in Hd. }
  set (st := fold_left (reconcileOne endpointMap selected) declared (startPass connectionMap eng0))
    in *.
  assert (∀ d, d ∈ claimed → fc_id d ≠ EmptyString) as Hne.
  { intros d Hd. apply Hcl in Hd as [Hd _]. destruct Hids as [_ Hall].
    rewrite Forall_forall in Hall. by apply Hall. }
  split_and!.
  - intros data Hin Hres.
    assert (data ∈ claimed) as Hd by (by apply Hcl).
    destruct (Icl data Hd) as (h & c & Hc & Hl & Hp & Hs & Hg).
    exists h, c. split_and!; [|done..|].
    + apply sweep_live. split_and!; [done..|]. intros id Hid.
      destruct (Iex id h Hid) as (c' & Hc' & _ & Ht').
      rewrite Hc in Hc'. injection Hc' as <-.
      apply tagOf_Some in Ht' as [Ht' _]. rewrite Hp in Ht'. injection Ht' as <-.
      rewrite Isw in Hid; [done|]. apply Hsw. eauto.
    + intros h' c' Hin' Hp'. apply sweep_live in Hin' as (Hc' & Hl' & _).
      apply (Iun h' h c' c (fc_id data)); [done..| |]; apply tagOf_idParam; auto.
  - intros h c t Hin Ht. apply sweep_live in Hin as (Hc & Hl & Hnone).
    destruct (Itg h c t Hc Hl Ht) as [(data & Hd & Hid & Hs & Hg)|Hex]; [|by destruct (Hnone t)].
    exists data. apply Hcl in Hd as [Hd Hres]. done.
  - intros h c0 Hin Ht0. apply elem_of_flattenConnections in Hin as [Hc0 Hl0].
    destruct (Iut h c0 Hc0 Hl0 Ht0) as (c & Hc & Hl). exists c.
    apply sweep_live. split_and!; [done..|]. intros id Hid. apply Iix in Hid.
    destruct (indexConnections_existing eng0 id h Hid) as (cx & Hcx & _ & Htx).
    rewrite Hc0 in Hcx. injection Hcx as <-. by rewrite Ht0 in Htx.
Qed.

Lemma reconciliation_converges_on_tagged_connections_witness :
  let endpoint := {| ep_portId := None; ep_element := None |} in
  let endpoints : gmap string Endpoint :=
    {[ "A:out" := endpoint; "B:in" := endpoint; "C:default" := endpoint ]} in
  let tagged t c :=
    {| conn_sourceUuid := conn_sourceUuid c; conn_targetUuid := conn_targetUuid c;
       conn_deleted := false; conn_idParam := Some t; conn_classParam := Some EmptyString;
       conn_handlersParam := true; conn_clickData := None; conn_overlays := [];
       conn_detachable := true; conn_label := EmptyString; conn_classes := ["jr-connection"] |} in
  let eng0 :=
    {| eng_endpoints := endpoints;
       eng_connections :=
         [ newConnection "A:out" "B:in" true;
           tagged "old" (newConnection "B:in" "C:default" true);
           tagged "e2" (newConnection "A:out" "C:default" true) ] |} in
  let declare id s sp t tp :=
    {| fc_id := id; fc_source := {| nodeId := s; portId := sp |};
       fc_target := {| nodeId := t; portId := tp |};
       fc_label := None; fc_className := None; fc_editable := None |} in
  let declared :=
    [ declare "e1" "A" (Some "out") "B" (Some "in");
      declare "e2" "A" (Some "out") "C" None;
      declare "e3" "C" None "A" (Some "out");
      declare "e4" "Z" None "A" (Some "out") ] in
  let eng1 := (reconcileConnections endpoints [] declared ∅ eng0).1 in
  (∀ data, data ∈ declared → resolvable endpoints data = true →
     ∃ h c, (h, c) ∈ flattenConnections eng1
            ∧ conn_idParam c = Some (fc_id data)
            ∧ conn_sourceUuid c = sourceUuidOf data ∧ conn_targetUuid c = targetUuidOf data
            ∧ ∀ h' c', (h', c') ∈ flattenConnections eng1 →
                       conn_idParam c' = Some (fc_id data) → h' = h)
  ∧ (∀ h c t, (h, c) ∈ flattenConnections eng1 → tagOf c = Some t →
       ∃ data, data ∈ declared ∧ resolvable endpoints data = true ∧ fc_id data = t
               ∧ conn_sourceUuid c = sourceUuidOf data ∧ conn_targetUuid c = targetUuidOf data)
  ∧ (∀ h c0, (h, c0) ∈ flattenConnections eng0 → tagOf c0 = None →
       ∃ c, (h, c) ∈ flattenConnections eng1).
Proof.
  intros endpoint endpoints tagged eng0 declare declared.
  apply (reconciliation_converges_on_tagged_connections endpoints [] declared ∅ eng0).
  - unfold wellFormedIds. apply (bool_decide_unpack _). by vm_compute.
  - unfold uniqueTags. apply (bool_decide_unpack _). by vm_compute.
  - unfold endpointsRegistered. apply (bool_decide_unpack _). by vm_compute.
  - unfold pairLookupMeetsUntagged. apply (bool_decide_unpack _). by vm_compute.
Defined.

End Convergence.

(* --------------------------------------------------------------------- *)
(** ** Endpoint-pair reuse                                                *)
(* --------------------------------------------------------------------- *)

Section EndpointPairReuse.

(** The pair table files every live connection under its pair key,
    whether it carries a tag or not. *)
Lemma indexConnection_files_every_connection
    (acc : gmap string nat * gmap string nat) (h : nat) (c : EngineConnection) :
  (indexConnection acc (h, c)).2 !! connKey c = Some h.
Proof. unfold indexConnection; simpl. apply lookup_insert_eq. Qed.

(** C3, evaluated on the code: one live connection tagged [a] spans
    (A:default, B:default), and the declared list holds only [b] over the
    same pair. The tag lookup finds nothing for [b]; the pair lookup then
    hands out the connection tagged [a]. The pass tags it [b], files it
    in the connection map under [b], and its final sweep, which still
    holds the connection under [a], deletes it: no live connection is
    left for [b]. *)
Theorem pair_reuse_claims_a_tagged_connection :
  let endpoint := {| ep_portId := None; ep_element := None |} in
  let endpoints : gmap string Endpoint := {[ "A:default" := endpoint; "B:default" := endpoint ]} in
  let tagged_a :=
    {| conn_sourceUuid := "A:default"; conn_targetUuid := "B:default";
       conn_deleted := false; conn_idParam := Some "a"; conn_classParam := Some EmptyString;
       conn_handlersParam := true; conn_clickData := None; conn_overlays := ["delete-a"];
       conn_detachable := true; conn_label := EmptyString; conn_classes := ["jr-connection"] |} in
  let eng0 := {| eng_endpoints := endpoints; eng_connections := [tagged_a] |} in
  let b := {| fc_id := "b"; fc_source := {| nodeId := "A"; portId := None |};
              fc_target := {| nodeId := "B"; portId := None |};
              fc_label := None; fc_className := None; fc_editable := None |} in
  let st0 := startPass ∅ eng0 in
  let result := reconcileConnections endpoints [] [b] ∅ eng0 in
  resolvable endpoints b = true
  ∧ tagOf tagged_a = Some "a"
  ∧ (lookupByTag b st0).2 = None
  ∧ (lookupByPair b st0).2 = Some 0
  ∧ flattenConnections result.1 = []
  ∧ result.2 !! "b" = Some 0.
Proof. by vm_compute. Qed.

End EndpointPairReuse.

(* --------------------------------------------------------------------- *)
(** ** Selection manager: toggling and consistency                        *)
(* --------------------------------------------------------------------- *)

Section SelectionToggle.

Implicit Types (p : SelectionProps) (internal : CanvasSelection).

Lemma fold_setAdd_fresh (l acc : list string) :
  NoDup (acc ++ l) → fold_left setAdd l acc = (acc ++ l)%list.
Proof.
  revert acc. induction l as [|v l IH]; intros acc Hnd; simpl.
  - by rewrite app_nil_r.
  - assert (v ∉ acc) as Hv.
    { apply NoDup_app in Hnd as (_ & Hdisj & _). intros Hv. apply (Hdisj v Hv). left. }
    unfold setAdd at 2. rewrite bool_decide_eq_false_2 by done.
    rewrite IH; rewrite <- app_assoc; done.
Qed.

(** [uniqueList] returns a list without duplicates unchanged, so it
    is idempotent; it keeps the members and drops nothing else. *)
Theorem uniqueList_fixes_duplicate_free_lists (l : list string) :
  (NoDup l → uniqueList l = l)
  ∧ uniqueList (uniqueList l) = uniqueList l
  ∧ (∀ x, x ∈ uniqueList l ↔ x ∈ l).
Proof.
  assert (∀ l', NoDup l' → uniqueList l' = l') as Hid.
  { intros l' Hnd. unfold uniqueList, newSet. by rewrite fold_setAdd_fresh. }
  split_and!; [apply Hid|apply Hid, uniqueList_NoDup|apply uniqueList_elem].
Qed.

Lemma uniqueList_fixes_duplicate_free_lists_witness :
  uniqueList ["a"; "b"; "c"] = ["a"; "b"; "c"].
Proof.
  destruct (uniqueList_fixes_duplicate_free_lists ["a"; "b"; "c"]) as [Hid _].
  apply Hid. apply (bool_decide_unpack _). by vm_compute.
Defined.

Lemma uniqueList_NoDup_id (l : list string) : NoDup l → uniqueList l = l.
Proof. intros Hnd. unfold uniqueList, newSet. by rewrite fold_setAdd_fresh. Qed.

Lemma setDelete_absent (l : list string) (v : string) : v ∉ l → setDelete l v = l.
Proof.
  intros Hv. unfold setDelete. induction l as [|x l IH]; [done|].
  apply not_elem_of_cons in Hv as [Hne Hv]. rewrite filter_cons_True by done.
  by rewrite IH.
Qed.

Lemma setDelete_snoc (l : list string) (v : string) : v ∉ l → setDelete (l ++ [v]) v = l.
Proof.
  intros Hv. unfold setDelete. rewrite filter_app.
  change (filter (λ x, x ≠ v) l) with (setDelete l v). rewrite setDelete_absent by done.
  rewrite filter_cons_False, filter_nil; [by rewrite app_nil_r|]. by intros ?.
Qed.

Lemma setDelete_not_elem (l : list string) (v : string) : v ∉ setDelete l v.
Proof. unfold setDelete. rewrite list_elem_of_filter. by intros [? _]. Qed.

Lemma setDelete_perm (l : list string) (v : string) :
  NoDup l → v ∈ l → (setDelete l v ++ [v])%list ≡ₚ l.
Proof.
  intros Hnd Hv. induction l as [|x l IH]; [by apply elem_of_nil in Hv|].
  apply NoDup_cons in Hnd as [Hx Hnd]. unfold setDelete in *.
  destruct (decide (x = v)) as [->|Hne].
  - rewrite filter_cons_False by (by intros ?).
    change (filter (λ x, x ≠ v) l) with (setDelete l v). rewrite setDelete_absent by done.
    symmetry. apply Permutation_cons_append.
  - rewrite filter_cons_True by done. simpl. f_equiv. apply IH; [done|].
    apply elem_of_cons in Hv as [->|Hv]; done.
Qed.

Lemma setToggle_in (l : list string) (v : string) : v ∈ l → setToggle l v = setDelete l v.
Proof. intros Hv. unfold setToggle, setHas. by rewrite bool_decide_eq_true_2. Qed.

Lemma setToggle_notin (l : list string) (v : string) :
  v ∉ l → setToggle l v = (l ++ [v])%list.
Proof.
  intros Hv. unfold setToggle, setHas, setAdd. by rewrite !bool_decide_eq_false_2.
Qed.

(** What a click with a modifier stores when both sets are internal and
    hold no duplicates. *)
Lemma updateNodeSelection_multi p id ev internal :
  isMulti p ev = true → selectedNodes p = None → selectedConnections p = None →
  NoDup (nodes internal) → NoDup (connections internal) →
  updateNodeSelection p id ev internal
  = (let next := {| nodes := setToggle (nodes internal) id;
                    connections := connections internal |} in (next, next)).
Proof.
  intros Hm Hn Hc Hnd Hcd. unfold updateNodeSelection, selection, emitSelection.
  rewrite Hm, Hn, Hc. simpl.
  unfold newSet. rewrite fold_setAdd_fresh by done. simpl.
  rewrite (uniqueList_NoDup_id (connections internal)) by done.
  rewrite uniqueList_NoDup_id; [done|].
  unfold setToggle, setHas. case_bool_decide.
  - by apply setDelete_NoDup.
  - by apply setAdd_NoDup.
Qed.

(** X1: with multi-selection enabled and a modifier held, a click on a
    node toggles that node only: a selected node is removed and the
    others keep their order, an unselected node is appended, and the
    connection set is untouched. Both sets are internal and free of
    duplicates (which the manager maintains). *)
Theorem modifier_click_toggles_one_node p id ev internal :
  isMulti p ev = true → selectedNodes p = None → selectedConnections p = None →
  NoDup (nodes internal) → NoDup (connections internal) →
  let internal' := (updateNodeSelection p id ev internal).1 in
  connections internal' = connections internal
  ∧ (id ∈ nodes internal → nodes internal' = filter (λ x, x ≠ id) (nodes internal))
  ∧ (id ∉ nodes internal → nodes internal' = (nodes internal ++ [id])%list)
  ∧ (∀ x, x ≠ id → x ∈ nodes internal' ↔ x ∈ nodes internal)
  ∧ (updateNodeSelection p id ev internal).2 = internal'.
Proof.
  intros Hm Hn Hc Hnd Hcd. rewrite updateNodeSelection_multi by done. simpl.
  unfold setToggle, setHas. split_and!; try done.
  - intros Hin. by rewrite bool_decide_eq_true_2.
  - intros Hin. rewrite bool_decide_eq_false_2 by done.
    unfold setAdd. by rewrite bool_decide_eq_false_2.
  - intros x Hx. case_bool_decide.
    + unfold setDelete. rewrite list_elem_of_filter. tauto.
    + rewrite setAdd_elem. split; [intros [?|?]; [done|congruence]|by left].
Qed.

Lemma modifier_click_toggles_one_node_witness :
  let p := {| selectedNodes := None; selectedConnections := None; allowMultiSelect := true |} in
  let ev := {| metaKey := false; ctrlKey := true; shiftKey := false |} in
  let internal := {| nodes := ["a"; "b"; "c"]; connections := ["e1"] |} in
  connections (updateNodeSelection p "b" ev internal).1 = ["e1"]
  ∧ nodes (updateNodeSelection p "b" ev internal).1 = ["a"; "c"].
Proof.
  intros p ev internal.
  destruct (modifier_click_toggles_one_node p "b" ev internal) as (Hc & Hin & _).
  - reflexivity.
  - reflexivity.
  - reflexivity.
  - apply (bool_decide_unpack _). by vm_compute.
  - apply (bool_decide_unpack _). by vm_compute.
  - split; [exact Hc|]. rewrite Hin; [by vm_compute|]. apply (bool_decide_unpack _). by vm_compute.
Defined.

(** X2: two clicks with a modifier on the same node give back the
    selection: the connection set is the same list, the node set has the
    same members (a node that was selected moves to the end). *)
Theorem modifier_click_twice_restores_selection p id ev internal :
  isMulti p ev = true → selectedNodes p = None → selectedConnections p = None →
  NoDup (nodes internal) → NoDup (connections internal) →
  let once := (updateNodeSelection p id ev internal).1 in
  let twice := (updateNodeSelection p id ev once).1 in
  connections twice = connections internal
  ∧ nodes twice ≡ₚ nodes internal
  ∧ (id ∉ nodes internal → nodes twice = nodes internal).
Proof.
  intros Hm Hn Hc Hnd Hcd once twice. unfold twice, once.
  rewrite (updateNodeSelection_multi p id ev internal) by done. cbn [fst].
  assert (NoDup (setToggle (nodes internal) id)) as Hnd'.
  { unfold setToggle, setHas. case_bool_decide; [by apply setDelete_NoDup|by apply setAdd_NoDup]. }
  rewrite updateNodeSelection_multi by done. cbn [fst nodes connections].
  destruct (decide (id ∈ nodes internal)) as [Hin|Hin].
  - rewrite (setToggle_in (nodes internal)) by done.
    rewrite setToggle_notin by apply setDelete_not_elem.
    split_and!; [done|by apply setDelete_perm|done].
  - rewrite (setToggle_notin (nodes internal)) by done.
    rewrite setToggle_in by (apply elem_of_app; right; left).
    rewrite setDelete_snoc by done. done.
Qed.

Lemma modifier_click_twice_restores_selection_witness :
  let p := {| selectedNodes := None; selectedConnections := None; allowMultiSelect := true |} in
  let ev := {| metaKey := false; ctrlKey := false; shiftKey := true |} in
  let internal := {| nodes := ["a"; "b"; "c"]; connections := ["e1"] |} in
  nodes (updateNodeSelection p "b" ev (updateNodeSelection p "b" ev internal).1).1
    ≡ₚ ["a"; "b"; "c"].
Proof.
  intros p ev internal.
  destruct (modifier_click_twice_restores_selection p "b" ev internal) as (_ & Hperm & _).
  - reflexivity.
  - reflexivity.
  - reflexivity.
  - apply (bool_decide_unpack _). by vm_compute.
  - apply (bool_decide_unpack _). by vm_compute.
  - exact Hperm.
Defined.

(** X3: whatever the transition and whichever sets are controlled, the
    selection shown after a transition that emits is the emitted one. *)
Theorem displayed_selection_is_the_emitted_one p e internal out :
  (selectionStep p e internal).2 = Some out →
  selection p (selectionStep p e internal).1 = out.
Proof.
  destruct (selectionStep_emit p e internal) as [->|(nn & nc & _ & _ & _ & _ & ->)]; [done|].
  intros [= <-]. unfold selection, emitSelection; simpl.
  by destruct (selectedNodes p), (selectedConnections p).
Qed.

Lemma displayed_selection_is_the_emitted_one_witness :
  let p := {| selectedNodes := Some ["n1"]; selectedConnections := None; allowMultiSelect := true |} in
  let ev := {| metaKey := false; ctrlKey := false; shiftKey := false |} in
  selection p (selectionStep p (ConnectionClick "e7" (Some ev)) initialSelection).1
  = {| nodes := ["n1"]; connections := ["e7"] |}.
Proof.
  intros p ev.
  apply (displayed_selection_is_the_emitted_one p (ConnectionClick "e7" (Some ev)) initialSelection).
  reflexivity.
Defined.



End SelectionToggle.

(* --------------------------------------------------------------------- *)
(** ** Pan/zoom controller: stepping, reset, drag gesture, focus          *)
(* --------------------------------------------------------------------- *)

Section PanZoomGestures.

Local Open Scope Q_scope.

Implicit Types (cfg : ZoomConfig) (st : PanZoom) (g : PanGesture).

Lemma clampZoom_compat cfg v w : v == w → clampZoom cfg v == clampZoom cfg w.
Proof. intros Hvw. unfold clampZoom. by rewrite Hvw. Qed.

Lemma clampZoom_idempotent cfg v : clampZoom cfg (clampZoom cfg v) == clampZoom cfg v.
Proof.
  unfold clampZoom. set (y := Qmax (minZoom cfg) v).
  destruct (Q.min_spec (maxZoom cfg) y) as [[Hlt Heq]|[Hle Heq]]; rewrite Heq.
  - apply Q.min_l. apply Q.le_max_r.
  - rewrite (Q.max_r (minZoom cfg) y) by apply Q.le_max_l. exact Heq.
Qed.

Lemma clampZoom_steps cfg z :
  inZoomRange cfg z → 0 <= zoomStep cfg →
  z <= clampZoom cfg (z + zoomStep cfg) ∧ clampZoom cfg (z - zoomStep cfg) <= z.
Proof.
  intros [Hlo Hhi] Hstep. unfold clampZoom.
  assert (z <= z + zoomStep cfg) as Hup.
  { rewrite <- (Qplus_0_r z) at 1. by apply Qplus_le_r. }
  assert (z - zoomStep cfg <= z) as Hdown.
  { rewrite <- (Qplus_0_r z) at 2. unfold Qminus. apply Qplus_le_r.
    apply (Qopp_le_compat 0). exact Hstep. }
  split.
  - apply Q.min_glb; [done|]. eapply Qle_trans; [exact Hup|apply Q.le_max_r].
  - eapply Qle_trans; [apply Q.le_min_r|]. by apply Q.max_lub.
Qed.

(** Giving the controller its own zoom back changes nothing: a value
    that [setZoom] produced passes the clamp unchanged, whatever the
    bounds. *)
Theorem current_zoom_is_a_fixed_point_of_setZoom cfg v st :
  zoomRef (applyZoomProp cfg (Some (zoomRef (setZoom cfg v st))) (setZoom cfg v st))
  == zoomRef (setZoom cfg v st).
Proof. unfold applyZoomProp, setZoom. simpl. apply clampZoom_idempotent. Qed.

(** X6: with a zoom inside ordered bounds and a step that is not
    negative, [zoomIn] never lowers the zoom and [zoomOut] never raises
    it; at the upper bound [zoomIn] changes nothing, at the lower bound
    [zoomOut] changes nothing. *)
Theorem zoom_steps_are_monotone_and_saturate cfg st :
  inZoomRange cfg (zoomRef st) → 0 <= zoomStep cfg →
  zoomRef st <= zoomRef (zoomIn cfg st)
  ∧ zoomRef (zoomOut cfg st) <= zoomRef st
  ∧ (zoomRef st == maxZoom cfg → zoomRef (zoomIn cfg st) == zoomRef st)
  ∧ (zoomRef st == minZoom cfg → zoomRef (zoomOut cfg st) == zoomRef st).
Proof.
  intros Hrange Hstep. destruct (clampZoom_steps cfg (zoomRef st) Hrange Hstep) as [H1 H2].
  destruct Hrange as [Hlo Hhi]. unfold zoomIn, zoomOut. simpl.
  split_and!; [done..| |].
  - intros Hmax. apply Qle_antisym; [|done]. rewrite Hmax at 2. apply Q.le_min_l.
  - intros Hmin. apply Qle_antisym; [done|]. rewrite Hmin at 1.
    apply Q.min_glb; [by eapply Qle_trans|apply Q.le_max_l].
Qed.

Lemma zoom_steps_are_monotone_and_saturate_witness :
  let st := setZoom defaultZoomConfig 2 (initialPanZoom None None) in
  zoomRef (zoomIn defaultZoomConfig st) == zoomRef st.
Proof.
  intros st.
  destruct (zoom_steps_are_monotone_and_saturate defaultZoomConfig st) as (_ & _ & Hsat & _).
  - by vm_compute.
  - by vm_compute.
  - apply Hsat. by vm_compute.
Defined.

(** X7: [resetZoom] puts the pan at the origin and asks for zoom 1, which
    the clamp may change: the zoom is 1 when the bounds admit 1, the
    lower bound when that is above 1, the upper bound when that is below
    1. The engine instance is given the same zoom. *)
Theorem resetZoom_resets_pan_and_clamps_one cfg st :
  pan (resetZoom cfg st) = {| pt_x := 0; pt_y := 0 |}
  ∧ (inZoomRange cfg 1 → zoomRef (resetZoom cfg st) == 1)
  ∧ (1 <= minZoom cfg → minZoom cfg <= maxZoom cfg → zoomRef (resetZoom cfg st) == minZoom cfg)
  ∧ (maxZoom cfg <= 1 → zoomRef (resetZoom cfg st) == maxZoom cfg)
  ∧ (∀ z, instanceZoom st = Some z →
          instanceZoom (resetZoom cfg st) = Some (zoomRef (resetZoom cfg st))).
Proof.
  unfold resetZoom. simpl. split_and!; [done|by apply clampZoom_id| | |].
  - intros H1 Hle. unfold clampZoom. rewrite (Q.max_l _ _ H1). by apply Q.min_r.
  - intros H1. unfold clampZoom. apply Q.min_l.
    eapply Qle_trans; [exact H1|apply Q.le_max_r].
  - intros z ->. done.
Qed.

Lemma handlePanMove_fields x y g start :
  pg_panStart g = Some start →
  pg_panStart (handlePanMove x y g) = Some start
  ∧ pg_moveListener (handlePanMove x y g) = pg_moveListener g
  ∧ pg_upListener (handlePanMove x y g) = pg_upListener g
  ∧ zoomRef (pg_view (handlePanMove x y g)) = zoomRef (pg_view g)
  ∧ zoomState (pg_view (handlePanMove x y g)) = zoomState (pg_view g)
  ∧ instanceZoom (pg_view (handlePanMove x y g)) = instanceZoom (pg_view g)
  ∧ pan (pg_view (handlePanMove x y g))
    = {| pt_x := start_originX start + (x - start_x start);
         pt_y := start_originY start + (y - start_y start) |}.
Proof. intros Hs. unfold handlePanMove. rewrite Hs. done. Qed.

(** While a gesture is under way, moves keep it under way. *)
Lemma pointerMoves_during_gesture (moves : list (Q * Q)) g start :
  pg_panStart g = Some start → pg_moveListener g = true →
  let g' := fold_left pointerStep ((λ m, PointerMove m.1 m.2) <$> moves) g in
  pg_panStart g' = Some start ∧ pg_moveListener g' = true ∧ pg_upListener g' = pg_upListener g
  ∧ zoomRef (pg_view g') = zoomRef (pg_view g)
  ∧ zoomState (pg_view g') = zoomState (pg_view g)
  ∧ instanceZoom (pg_view g') = instanceZoom (pg_view g).
Proof.
  revert g. induction moves as [|[x y] moves IH]; intros g Hs Hl; simpl; [done|].
  rewrite Hl.
  destruct (handlePanMove_fields x y g start Hs) as (Hs' & Hm' & Hu' & Hz' & Hzs' & Hi' & _).
  rewrite Hl in Hm'. specialize (IH (handlePanMove x y g) Hs' Hm'). simpl in IH.
  by rewrite Hu', Hz', Hzs', Hi' in IH.
Qed.

Lemma pointerMoves_idle (moves : list (Q * Q)) g :
  pg_moveListener g = false →
  fold_left pointerStep ((λ m, PointerMove m.1 m.2) <$> moves) g = g.
Proof.
  revert g. induction moves as [|[x y] moves IH]; intros g Hl; simpl; [done|].
  rewrite Hl. by apply IH.
Qed.

(** X8: a drag on the canvas background moves the pan by the
    displacement of the pointer since the button went down, whatever the
    path in between, and leaves the zoom alone; after the button is
    released, pointer moves no longer reach the controller. *)
Theorem drag_pans_by_the_pointer_displacement g ev (moves later : list (Q * Q)) x y :
  down_button ev = 0%nat → down_inside ev = false →
  let dragged :=
    fold_left pointerStep
      (PointerDown ev :: ((λ m, PointerMove m.1 m.2) <$> moves) ++ [PointerMove x y])%list g in
  let released :=
    fold_left pointerStep (PointerUp :: ((λ m, PointerMove m.1 m.2) <$> later))%list dragged in
  pan (pg_view dragged)
  = {| pt_x := pt_x (pan (pg_view g)) + (x - down_clientX ev);
       pt_y := pt_y (pan (pg_view g)) + (y - down_clientY ev) |}
  ∧ zoomRef (pg_view dragged) = zoomRef (pg_view g)
  ∧ pg_view released = pg_view dragged
  ∧ pg_panStart released = None
  ∧ pg_moveListener released = false ∧ pg_upListener released = false.
Proof.
  intros Hb Hi dragged released.
  set (g1 := handleCanvasMouseDown ev g).
  set (start := {| start_x := down_clientX ev; start_y := down_clientY ev;
                   start_originX := pt_x (pan (pg_view g));
                   start_originY := pt_y (pan (pg_view g)) |}).
  assert (pg_panStart g1 = Some start ∧ pg_moveListener g1 = true ∧ pg_upListener g1 = true
          ∧ pg_view g1 = pg_view g) as (Hs1 & Hm1 & Hu1 & Hv1).
  { unfold g1, handleCanvasMouseDown. rewrite Hb, Hi. done. }
  destruct (pointerMoves_during_gesture moves g1 start Hs1 Hm1) as (Hs2 & Hm2 & Hu2 & Hz2 & _).
  set (g2 := fold_left pointerStep ((λ m, PointerMove m.1 m.2) <$> moves) g1) in *.
  assert (dragged = handlePanMove x y g2) as Hdragged.
  { unfold dragged. simpl. rewrite fold_left_app. simpl. fold g1. fold g2. by rewrite Hm2. }
  assert (released
          = fold_left pointerStep ((λ m, PointerMove m.1 m.2) <$> later) (handlePanEnd dragged))
    as Hreleased.
  { unfold released. simpl.
    destruct (handlePanMove_fields x y g2 start Hs2) as (_ & _ & Hu3 & _).
    by rewrite Hdragged, Hu3, Hu2, Hu1. }
  pose proof (pointerMoves_idle later) as Hidle.
  destruct (handlePanMove_fields x y g2 start Hs2) as (_ & _ & _ & Hz3 & _ & _ & Hp3).
  rewrite Hreleased, Hidle by done. rewrite Hdragged, Hp3, Hz3, Hz2, Hv1. done.
Qed.

Lemma drag_pans_by_the_pointer_displacement_witness :
  let g := initialPanGesture (initialPanZoom None None) in
  let ev := {| down_button := 0; down_inside := false; down_clientX := 100; down_clientY := 50 |} in
  pan (pg_view (fold_left pointerStep
                  [PointerDown ev; PointerMove 3 4; PointerMove 130 45] g))
  = {| pt_x := 0 + (130 - 100); pt_y := 0 + (45 - 50) |}.
Proof.
  intros g ev.
  by destruct (drag_pans_by_the_pointer_displacement g ev [(3, 4)] [] 130 45 eq_refl eq_refl)
    as [Hpan _].
Defined.

(** X9: outside a gesture nothing moves the view: pointer moves and
    releases, and presses with another button or on a node, a port or a
    delete button, leave the controller as it is. *)
Theorem pointer_events_outside_a_gesture_are_ignored g (events : list PointerEvent) :
  pg_moveListener g = false → pg_upListener g = false →
  Forall (λ e, match e with
               | PointerDown ev => down_button ev ≠ 0%nat ∨ down_inside ev = true
               | _ => True
               end) events →
  fold_left pointerStep events g = g.
Proof.
  intros Hm Hu Hall. induction Hall as [|e events He _ IH]; simpl; [done|].
  assert (pointerStep g e = g) as ->; [|done].
  destruct e as [ev|x y|]; simpl; [|by rewrite Hm|by rewrite Hu].
  unfold handleCanvasMouseDown. destruct He as [Hb| ->].
  - by rewrite bool_decide_eq_false_2.
  - by destruct (negb _).
Qed.

Lemma pointer_events_outside_a_gesture_are_ignored_witness :
  let g := initialPanGesture (initialPanZoom None None) in
  fold_left pointerStep
    [PointerMove 10 10; PointerUp;
     PointerDown {| down_button := 2; down_inside := false; down_clientX := 1; down_clientY := 1 |}]
    g = g.
Proof.
  intros g. apply pointer_events_outside_a_gesture_are_ignored; [done..|].
  apply Forall_cons; split; [done|]. apply Forall_cons; split; [done|].
  apply Forall_cons; split; [|by apply Forall_nil]. left. simpl. lia.
Defined.

(** X10: [focusNode] keeps the zoom and puts the centre of the node at
    the centre of the canvas: with the new pan, the viewport position of
    the node centre is the middle of the canvas, and the graph-space
    point under the middle of the canvas is the node centre. When the
    node is not declared, has no registered element, or there is no
    canvas, nothing changes. *)
Theorem focusNode_centres_the_node nodes (nodeRefs : gmap string Size) canvas id node rect st :
  List.find (λ entry, bool_decide (geo_id entry = id)) nodes = Some node →
  nodeRefs !! id = Some rect →
  ¬ zoomRef st == 0 →
  let st' := focusNode nodes nodeRefs (Some canvas) id st in
  let centreX := pt_x (geo_position node) + (size_width rect / zoomRef st) / 2 in
  let centreY := pt_y (geo_position node) + (size_height rect / zoomRef st) / 2 in
  zoomRef st' = zoomRef st
  ∧ centreX * zoomRef st' + pt_x (pan st') == size_width canvas / 2
  ∧ centreY * zoomRef st' + pt_y (pan st') == size_height canvas / 2
  ∧ pt_x (graphPoint {| pt_x := size_width canvas / 2; pt_y := size_height canvas / 2 |} st')
    == centreX
  ∧ pt_y (graphPoint {| pt_x := size_width canvas / 2; pt_y := size_height canvas / 2 |} st')
    == centreY.
Proof.
  intros Hfind Href Hz st' centreX centreY. unfold st', focusNode, graphPoint.
  rewrite Hfind, Href. simpl. fold centreX centreY.
  split_and!; [done|ring|ring|field; exact Hz|field; exact Hz].
Qed.

Lemma focusNode_centres_the_node_witness :
  let node := {| geo_id := "a"; geo_position := {| pt_x := 100; pt_y := 40 |} |} in
  let rect := {| size_width := 120; size_height := 60 |} in
  let canvas := {| size_width := 800; size_height := 600 |} in
  let st := setZoom defaultZoomConfig 2 (initialPanZoom None None) in
  let st' := focusNode [node] {[ "a" := rect ]} (Some canvas) "a" st in
  pt_x (graphPoint {| pt_x := 800 / 2; pt_y := 600 / 2 |} st') == 100 + (120 / zoomRef st) / 2.
Proof.
  intros node rect canvas st st'.
  destruct (focusNode_centres_the_node [node] {[ "a" := rect ]} canvas "a" node rect st)
    as (_ & _ & _ & Hx & _).
  - reflexivity.
  - by vm_compute.
  - by vm_compute.
  - exact Hx.
Defined.

(** A stale handle: [focusNode] on an identity that is not declared, not
    mounted, or without a canvas, is a no-op. *)
Lemma focusNode_missing nodes (nodeRefs : gmap string Size) canvas id st :
  List.find (λ entry, bool_decide (geo_id entry = id)) nodes = None
  ∨ nodeRefs !! id = None ∨ canvas = None →
  focusNode nodes nodeRefs canvas id st = st.
Proof.
  unfold focusNode. intros [->|[->| ->]]; [done| |].
  - by destruct (List.find _ _).
  - by destruct (List.find _ _), (nodeRefs !! id).
Qed.

(** X11: a wheel step, with the modifier held, a zoom inside ordered
    bounds and a step that is not negative, zooms out or not at all when
    [deltaY] is positive and zooms in or not at all otherwise. *)
Theorem wheel_zooms_in_its_direction cfg r ev st :
  wheel_ctrlKey ev || wheel_metaKey ev = true →
  inZoomRange cfg (zoomRef st) → 0 <= zoomStep cfg →
  let st' := handleWheel cfg (Some r) ev st in
  (0 < deltaY ev → zoomRef st' <= zoomRef st)
  ∧ (deltaY ev <= 0 → zoomRef st <= zoomRef st').
Proof.
  intros Hmod Hrange Hstep st'.
  destruct (clampZoom_steps cfg (zoomRef st) Hrange Hstep) as [Hin Hout].
  unfold st'. rewrite handleWheel_zoomRef by done. split_and!.
  - intros Hd. destruct (Qlt_le_dec 0 (deltaY ev)) as [_|Hle].
    + rewrite (clampZoom_compat cfg _ (zoomRef st - zoomStep cfg)); [done|ring].
    + exfalso. by apply (Qlt_not_le _ _ Hd).
  - intros Hd. destruct (Qlt_le_dec 0 (deltaY ev)) as [Hlt|_].
    + exfalso. by apply (Qlt_not_le _ _ Hlt).
    + rewrite (clampZoom_compat cfg _ (zoomRef st + zoomStep cfg)); [done|ring].
Qed.

Lemma wheel_zooms_in_its_direction_witness :
  let r := {| rect_left := 0; rect_top := 0 |} in
  let ev := {| wheel_ctrlKey := true; wheel_metaKey := false;
               clientX := 10; clientY := 20; deltaY := 3 |} in
  let st := initialPanZoom None None in
  zoomRef (handleWheel defaultZoomConfig (Some r) ev st) <= zoomRef st.
Proof.
  intros r ev st.
  destruct (wheel_zooms_in_its_direction defaultZoomConfig r ev st) as (Hout & _).
  - reflexivity.
  - split; by vm_compute.
  - by vm_compute.
  - apply Hout. by vm_compute.
Defined.

Lemma resetZoom_resets_pan_and_clamps_one_witness :
  let st := setZoom defaultZoomConfig (3 # 2) (initialPanZoom None (Some 1)) in
  zoomRef (resetZoom defaultZoomConfig st) == 1
  ∧ instanceZoom (resetZoom defaultZoomConfig st)
    = Some (zoomRef (resetZoom defaultZoomConfig st)).
Proof.
  intros st.
  destruct (resetZoom_resets_pan_and_clamps_one defaultZoomConfig st) as (_ & Hone & _ & _ & Hinst).
  split.
  - apply Hone. split; by vm_compute.
  - by apply (Hinst (zoomRef st)).
Defined.

End PanZoomGestures.

(* --------------------------------------------------------------------- *)
(** ** Node registry                                                      *)
(* --------------------------------------------------------------------- *)

Section NodeRegistry.

Implicit Types (r : Registry) (n p : string) (element : option nat).

Lemma registerPortRef_nonEmpty n p element r :
  portMapsNonEmpty r → portMapsNonEmpty (registerPortRef n p element r).
Proof.
  intros Hinv n' m. unfold registerPortRef.
  destruct element as [el|]; cbn [reg_portRefs].
  - destruct (decide (n' = n)) as [->|Hne].
    + rewrite lookup_insert_eq. intros [= <-]. apply insert_non_empty.
    + rewrite lookup_insert_ne by done. apply Hinv.
  - case_bool_decide as Hsize.
    + intros Hm. apply lookup_delete_Some in Hm as [_ Hm]. by apply (Hinv n').
    + destruct (decide (n' = n)) as [->|Hne].
      * rewrite lookup_insert_eq. intros [= <-] Hempty. apply Hsize.
        rewrite Hempty. apply map_size_empty.
      * rewrite lookup_insert_ne by done. apply Hinv.
Qed.

Lemma registerNodeRef_nonEmpty n (element : option nat) r :
  portMapsNonEmpty r → portMapsNonEmpty (registerNodeRef n element r).
Proof.
  intros Hinv n' m. unfold registerNodeRef. destruct element; cbn [reg_portRefs].
  - apply Hinv.
  - intros Hm. apply lookup_delete_Some in Hm as [_ Hm]. by apply (Hinv n').
Qed.

Lemma registryRun_nonEmpty (events : list RegistryEvent) r :
  portMapsNonEmpty r → portMapsNonEmpty (fold_left registryStep events r).
Proof.
  revert r. induction events as [|e events IH]; intros r Hinv; simpl; [done|].
  apply IH. destruct e; [by apply registerNodeRef_nonEmpty|by apply registerPortRef_nonEmpty].
Qed.

(** X12: whatever ref callbacks run, in whatever order, the registry
    never keeps an empty port table for a node: a node has an entry in
    [portRefs] exactly when one of its ports is registered. *)
Theorem registry_keeps_no_empty_port_table (events : list RegistryEvent) n :
  let r := fold_left registryStep events emptyRegistry in
  is_Some (reg_portRefs r !! n) ↔ ∃ p, is_Some (lookupPort r n p).
Proof.
  intros r.
  assert (portMapsNonEmpty r) as Hinv.
  { apply registryRun_nonEmpty. intros n' m. unfold emptyRegistry. simpl.
    by rewrite lookup_empty. }
  unfold lookupPort. split.
  - intros [m Hm]. rewrite Hm. specialize (Hinv n m Hm).
    destruct (map_choose m Hinv) as (p & el & Hp). exists p. by rewrite Hp.
  - intros [p Hp]. by destruct (reg_portRefs r !! n).
Qed.

Lemma lookupPort_registerPortRef n p element r n' p' :
  lookupPort (registerPortRef n p element r) n' p'
  = if bool_decide (n' = n ∧ p' = p) then element else lookupPort r n' p'.
Proof.
  unfold lookupPort, registerPortRef. destruct element as [el|]; cbn [reg_portRefs].
  - destruct (decide (n' = n)) as [->|Hn].
    + rewrite lookup_insert_eq. destruct (decide (p' = p)) as [->|Hp].
      * rewrite lookup_insert_eq. by rewrite bool_decide_eq_true_2.
      * rewrite lookup_insert_ne by done. rewrite bool_decide_eq_false_2 by (by intros [? ?]).
        destruct (reg_portRefs r !! n); [done|]. simpl. by rewrite lookup_empty.
    + rewrite lookup_insert_ne by done. by rewrite bool_decide_eq_false_2 by (by intros [? ?]).
  - case_bool_decide as Hsize.
    + destruct (decide (n' = n)) as [->|Hn].
      * rewrite lookup_delete_eq. apply map_size_empty_iff in Hsize.
        case_bool_decide as Hnp.
        { done. }
        destruct (decide (p' = p)) as [->|Hp]; [by destruct Hnp|].
        pose proof (f_equal (λ m, m !! p') Hsize) as Hp'. simpl in Hp'.
        rewrite lookup_delete_ne, lookup_empty in Hp' by done.
        destruct (reg_portRefs r !! n); simpl in Hp'; done.
      * rewrite lookup_delete_ne by done. by rewrite bool_decide_eq_false_2 by (by intros [? ?]).
    + destruct (decide (n' = n)) as [->|Hn].
      * rewrite lookup_insert_eq. destruct (decide (p' = p)) as [->|Hp].
        { rewrite lookup_delete_eq. by rewrite bool_decide_eq_true_2. }
        rewrite lookup_delete_ne by done. rewrite bool_decide_eq_false_2 by (by intros [? ?]).
        destruct (reg_portRefs r !! n); [done|]. simpl. by rewrite lookup_empty.
      * rewrite lookup_insert_ne by done. by rewrite bool_decide_eq_false_2 by (by intros [? ?]).
Qed.

(** X13: the port table behaves as one table keyed by the pair of node
    and port identities: a port callback sets or clears its own entry
    and changes no other, although clearing the last port of a node
    drops the table of the node. *)
Theorem registerPortRef_updates_one_port n p element r n' p' :
  lookupPort (registerPortRef n p element r) n' p'
  = if bool_decide (n' = n ∧ p' = p) then element else lookupPort r n' p'.
Proof. apply lookupPort_registerPortRef. Qed.

(** X14: unmounting a node forgets the node and all its ports, and
    mounting or unmounting a node changes nothing for another node; a
    port that registers under a node that is not mounted is in the table
    but gives no element to bind an endpoint to. *)
Theorem registerNodeRef_forgets_the_node_only n r n' p' :
  lookupPort (registerNodeRef n None r) n p' = None
  ∧ portElement (registerNodeRef n None r) n p' = None
  ∧ (n' ≠ n → ∀ element,
       lookupPort (registerNodeRef n element r) n' p' = lookupPort r n' p'
       ∧ portElement (registerNodeRef n element r) n' p' = portElement r n' p')
  ∧ (∀ el, lookupPort (registerPortRef n p' (Some el) (registerNodeRef n None r)) n p' = Some el
           ∧ portElement (registerPortRef n p' (Some el) (registerNodeRef n None r)) n p' = None).
Proof.
  split_and!.
  - unfold lookupPort, registerNodeRef. cbn [reg_portRefs]. by rewrite lookup_delete_eq.
  - unfold portElement, registerNodeRef. cbn [reg_nodeRefs]. by rewrite lookup_delete_eq.
  - intros Hne element. unfold lookupPort, portElement, registerNodeRef.
    destruct element; cbn [reg_nodeRefs reg_portRefs].
    + by rewrite lookup_insert_ne.
    + by rewrite !lookup_delete_ne.
  - intros el. split.
    + rewrite lookupPort_registerPortRef. by rewrite bool_decide_eq_true_2.
    + unfold portElement, registerPortRef, registerNodeRef. cbn [reg_nodeRefs].
      by rewrite lookup_delete_eq.
Qed.

End NodeRegistry.

(* --------------------------------------------------------------------- *)
(** ** The playground application                                         *)
(* --------------------------------------------------------------------- *)

Section Playground.

Implicit Types (s : AppState) (c : FlowConnection) (d draft : DraftConnection).

Lemma edge_id_inj (j k : nat) : "edge-" +:+ pretty j = "edge-" +:+ pretty k → j = k.
Proof. intros H. simpl in H. injection H as H. by apply (inj pretty). Qed.

Lemma edge_id_nonempty (k : nat) : "edge-" +:+ pretty k ≠ EmptyString.
Proof. done. Qed.

Lemma filter_keeps_ids (P : FlowConnection → Prop) `{!∀ c, Decision (P c)}
    (l : list FlowConnection) :
  NoDup (fc_id <$> l) → NoDup (fc_id <$> filter P l).
Proof.
  intros Hnd. eapply sublist_NoDup; [exact Hnd|]. apply fmap_sublist, sublist_filter.
Qed.

Lemma filter_keeps_Forall (P Q : FlowConnection → Prop) `{!∀ c, Decision (P c)}
    (l : list FlowConnection) :
  Forall Q l → Forall Q (filter P l).
Proof.
  rewrite !Forall_forall. intros Hall c Hc. apply list_elem_of_filter in Hc as [_ Hc]. by apply Hall.
Qed.

Lemma appStep_ids s (e : AppEvent) :
  NoDup (fc_id <$> app_connections s) ∧ idsIssued s →
  NoDup (fc_id <$> app_connections (appStep s e)) ∧ idsIssued (appStep s e).
Proof.
  intros [Hnd Hiss]. unfold idsIssued in *.
  destruct e as [d|d|c|n]; simpl.
  - split.
    + rewrite fmap_app. simpl. apply NoDup_app. split_and!; [done| |apply NoDup_singleton].
      intros x Hx Hx'. apply list_elem_of_singleton in Hx'. subst x.
      apply list_elem_of_fmap in Hx as (c & Hc & Hin).
      rewrite Forall_forall in Hiss. destruct (Hiss c Hin) as (k & Hk & Hid).
      rewrite Hid in Hc. apply edge_id_inj in Hc. lia.
    + apply Forall_app. split.
      * eapply Forall_impl; [exact Hiss|]. intros c (k & Hk & Hid). exists k. split; [lia|done].
      * apply Forall_singleton. exists (app_counter s). split; [lia|done].
  - split; [by apply filter_keeps_ids|]. by apply filter_keeps_Forall.
  - split; [by apply filter_keeps_ids|]. by apply filter_keeps_Forall.
  - split; [by apply filter_keeps_ids|]. by apply filter_keeps_Forall.
Qed.

Lemma appRun_ids (events : list AppEvent) s :
  NoDup (fc_id <$> app_connections s) ∧ idsIssued s →
  NoDup (fc_id <$> app_connections (fold_left appStep events s))
  ∧ idsIssued (fold_left appStep events s).
Proof.
  revert s. induction events as [|e events IH]; intros s Hinv; simpl; [done|].
  apply IH. by apply appStep_ids.
Qed.

(** X15: whatever links the user creates, detaches and deletes, and
    whatever nodes are deleted, the connection list the playground hands
    to the canvas has unique identities, none of them empty: the counter
    never issues an identity twice. *)
Theorem playground_identities_stay_well_formed (events : list AppEvent) :
  wellFormedIds (app_connections (fold_left appStep events initialAppState)).
Proof.
  destruct (appRun_ids events initialAppState) as [Hnd Hiss].
  { split.
    - apply (bool_decide_unpack _). by vm_compute.
    - unfold idsIssued, initialAppState. simpl.
      apply Forall_cons; split; [exists 1; split; [lia|done]|].
      apply Forall_cons; split; [exists 2; split; [lia|done]|].
      apply Forall_cons; split; [exists 3; split; [lia|done]|]. by apply Forall_nil. }
  split; [done|]. unfold idsIssued in Hiss.
  eapply Forall_impl; [exact Hiss|]. intros c (k & _ & ->). apply edge_id_nonempty.
Qed.

Lemma matchesDraft_refl d label id :
  matchesDraft {| fc_id := id; fc_source := draft_source d; fc_target := draft_target d;
                  fc_label := label; fc_className := None; fc_editable := None |} d = true.
Proof. unfold matchesDraft. simpl. by rewrite !bool_decide_eq_true_2. Qed.

(** A link that is created and then detached leaves the declared
    connections as a detachment alone would: the matcher recognises the
    connection the application built from the same draft. *)
Theorem detaching_a_created_link_removes_it d s :
  app_connections (handleLinkDetached d (handleLinkCreate d s))
  = app_connections (handleLinkDetached d s)
  ∧ app_counter (handleLinkDetached d (handleLinkCreate d s)) = S (app_counter s).
Proof.
  unfold handleLinkDetached, handleLinkCreate. simpl. split; [|done].
  rewrite filter_app. rewrite filter_cons_False; [by rewrite filter_nil, app_nil_r|].
  by rewrite matchesDraft_refl.
Qed.

Lemma normalize_uuid (endpoint : PortRef) :
  normalize endpoint = getEndpointUuid (nodeId endpoint) (portId endpoint).
Proof. done. Qed.

Lemma getEndpointUuid_normalizePortId n (p : option string) :
  getEndpointUuid n (normalizePortId (Some (portOrDefault p))) = getEndpointUuid n p.
Proof.
  unfold getEndpointUuid, normalizePortId. f_equal. f_equal.
  case_bool_decide as Hp.
  - injection Hp as Hp. by rewrite Hp.
  - done.
Qed.

(** X16: the draft delivered when the engine connection of a declared
    connection is detached leads the playground to drop exactly the
    declared connections that resolve to the same endpoint pair, whether
    they name the default port or leave the port out. The endpoints are
    as the endpoint synchronizer registers them: the node element
    carries the node identity, the endpoint the effective port
    identity. *)
Theorem detached_draft_drops_the_declared_connection c (info : ConnectionInfo) s :
  endpointNodeId (info_sourceEndpoint info) = Some (nodeId (fc_source c)) →
  endpointPortId (info_sourceEndpoint info) = Some (portOrDefault (portId (fc_source c))) →
  endpointNodeId (info_targetEndpoint info) = Some (nodeId (fc_target c)) →
  endpointPortId (info_targetEndpoint info) = Some (portOrDefault (portId (fc_target c))) →
  nodeId (fc_source c) ≠ EmptyString → nodeId (fc_target c) ≠ EmptyString →
  ∃ d, toDraftConnection info = Some d
       ∧ matchesDraft c d = true
       ∧ ∀ c', c' ∈ app_connections (handleLinkDetached d s)
               ↔ c' ∈ app_connections s
                 ∧ ¬ (sourceUuidOf c' = sourceUuidOf c ∧ targetUuidOf c' = targetUuidOf c).
Proof.
  intros Hsn Hsp Htn Htp Hs Ht.
  set (d := {| draft_source := {| nodeId := nodeId (fc_source c);
                                  portId := normalizePortId (Some (portOrDefault (portId (fc_source c)))) |};
               draft_target := {| nodeId := nodeId (fc_target c);
                                  portId := normalizePortId (Some (portOrDefault (portId (fc_target c)))) |} |}).
  assert (∀ c', matchesDraft c' d = true
                ↔ sourceUuidOf c' = sourceUuidOf c ∧ targetUuidOf c' = targetUuidOf c) as Hmatch.
  { intros c'. unfold matchesDraft. rewrite andb_true_iff, !bool_decide_eq_true.
    rewrite !normalize_uuid. unfold d. cbn [draft_source draft_target nodeId portId].
    by rewrite !getEndpointUuid_normalizePortId. }
  exists d. split_and!.
  - unfold toDraftConnection. rewrite Hsn, Hsp, Htn, Htp. unfold truthy.
    by rewrite !bool_decide_eq_false_2.
  - by apply Hmatch.
  - intros c'. unfold handleLinkDetached. cbn [app_connections].
    rewrite list_elem_of_filter. rewrite <- Hmatch. clear Hmatch.
    destruct (matchesDraft c' d); split; intros [H1 H2]; (split; [done|]); try done.
Qed.

Lemma detached_draft_drops_the_declared_connection_witness :
  let c := {| fc_id := "edge-1"; fc_source := {| nodeId := "capture"; portId := Some "out" |};
              fc_target := {| nodeId := "enrich"; portId := None |};
              fc_label := None; fc_className := None; fc_editable := None |} in
  let element n := Some {| closest_jr_node := Some {| attributes := {[ NODE_ID_ATTRIBUTE := n ]} |} |} in
  let info := {| info_connection := 0;
                 info_sourceEndpoint := Some {| ep_portId := Some "out"; ep_element := element "capture" |};
                 info_targetEndpoint := Some {| ep_portId := Some "default"; ep_element := element "enrich" |} |} in
  ∃ d, toDraftConnection info = Some d ∧ matchesDraft c d = true.
Proof.
  intros c element info.
  destruct (detached_draft_drops_the_declared_connection c info initialAppState)
    as (d & Hd & Hm & _); [done..|].
  by exists d.
Defined.

End Playground.

(* --------------------------------------------------------------------- *)
(** ** Connection metadata and classes                                    *)
(* --------------------------------------------------------------------- *)

Section ConnectionMetadata.

Implicit Types (c : EngineConnection) (data : FlowConnection) (selected : list string).

Lemma addClass_elem (l : list string) (v x : string) : x ∈ addClass v l ↔ x ∈ l ∨ x = v.
Proof. unfold addClass. by rewrite elem_of_app, list_elem_of_singleton. Qed.

Lemma removeClass_elem (l : list string) (v x : string) : x ∈ removeClass v l ↔ x ∈ l ∧ x ≠ v.
Proof. unfold removeClass. rewrite list_elem_of_filter. tauto. Qed.

Lemma removeClass_absent (l : list string) (v : string) : v ∉ l → removeClass v l = l.
Proof. apply setDelete_absent. Qed.

Lemma removeClass_app (l l' : list string) (v : string) :
  removeClass v (l ++ l') = (removeClass v l ++ removeClass v l')%list.
Proof. unfold removeClass. apply filter_app. Qed.

Lemma removeClass_again (l : list string) (v : string) :
  removeClass v (removeClass v l) = removeClass v l.
Proof. apply removeClass_absent. rewrite removeClass_elem. by intros [_ ?]. Qed.

Lemma removeClass_length (l : list string) (v : string) :
  (length (removeClass v l) ≤ length l)%nat.
Proof. unfold removeClass. apply length_filter. Qed.

Lemma EngineConnection_eq c c' :
  conn_sourceUuid c = conn_sourceUuid c' → conn_targetUuid c = conn_targetUuid c' →
  conn_deleted c = conn_deleted c' → conn_idParam c = conn_idParam c' →
  conn_classParam c = conn_classParam c' → conn_handlersParam c = conn_handlersParam c' →
  conn_clickData c = conn_clickData c' → conn_overlays c = conn_overlays c' →
  conn_detachable c = conn_detachable c' → conn_label c = conn_label c' →
  conn_classes c = conn_classes c' → c = c'.
Proof. destruct c, c'; simpl; intros; by subst. Qed.

Lemma sameClassNames_elem (l l' : list string) :
  sameClassNames l l' ↔ ∀ x, x ∈ l ↔ x ∈ l'.
Proof.
  unfold sameClassNames. rewrite !Forall_forall. split.
  - intros [H1 H2] x. split; auto.
  - intros H. split; intros x; apply H.
Qed.

Lemma setClasses_swap c c' :
  setClasses (conn_classes c) c' = c ↔ c' = setClasses (conn_classes c') c.
Proof. destruct c, c'; unfold setClasses; simpl. split; intros [=]; by subst. Qed.

Lemma sameButClasses_refl c : sameButClasses c c.
Proof. split; [by destruct c|]. by apply sameClassNames_elem. Qed.

Lemma sameButClasses_sym c c' : sameButClasses c c' → sameButClasses c' c.
Proof.
  intros [Hf Hn]. split.
  - apply setClasses_swap in Hf. by rewrite Hf at 2.
  - apply sameClassNames_elem. intros x. symmetry. by apply sameClassNames_elem.
Qed.

Lemma sameButClasses_trans c1 c2 c3 :
  sameButClasses c1 c2 → sameButClasses c2 c3 → sameButClasses c1 c3.
Proof.
  intros [Hf Hn] [Hf' Hn']. split.
  - rewrite <- Hf at 2. rewrite <- Hf'. by destruct c3.
  - apply sameClassNames_elem. intros x.
    rewrite sameClassNames_elem in Hn, Hn'. by rewrite Hn, Hn'.
Qed.

(** The class list after [updateConnectionMetadata], written out. *)
Lemma metadata_classes selected data c :
  conn_classes (updateConnectionMetadata selected data c)
  = (removeClass "jr-selected"
       ((if truthy (conn_classParam c) && bool_decide (conn_classParam c ≠ fc_className data)
         then removeClass (default EmptyString (conn_classParam c)) (conn_classes c)
         else conn_classes c)
        ++ (if truthy (fc_className data) then [default EmptyString (fc_className data)] else [])
        ++ ["jr-connection"])
     ++ (if bool_decide (fc_id data ∈ selected) then ["jr-selected"] else []))%list.
Proof.
  unfold updateConnectionMetadata, addClass. cbn [conn_classes].
  destruct (truthy (fc_className data)); case_bool_decide; simpl;
    rewrite ?app_nil_r, <- ?app_assoc; done.
Qed.

(** The class names after [updateConnectionMetadata]. *)
Lemma metadata_class_names selected data c x :
  x ∈ conn_classes (updateConnectionMetadata selected data c)
  ↔ (((x ∈ conn_classes c
       ∧ (truthy (conn_classParam c) && bool_decide (conn_classParam c ≠ fc_className data) = true →
          x ≠ default EmptyString (conn_classParam c)))
      ∨ (truthy (fc_className data) = true ∧ x = default EmptyString (fc_className data))
      ∨ x = "jr-connection")
     ∧ x ≠ "jr-selected")
    ∨ (x = "jr-selected" ∧ fc_id data ∈ selected).
Proof.
  rewrite metadata_classes, elem_of_app, removeClass_elem, !elem_of_app, list_elem_of_singleton.
  assert (x ∈ (if bool_decide (fc_id data ∈ selected) then ["jr-selected"] else [])
          ↔ x = "jr-selected" ∧ fc_id data ∈ selected) as ->.
  { case_bool_decide; [rewrite list_elem_of_singleton; tauto|].
    split; [by intros ?%elem_of_nil|tauto]. }
  assert (x ∈ (if truthy (fc_className data) then [default EmptyString (fc_className data)] else [])
          ↔ truthy (fc_className data) = true ∧ x = default EmptyString (fc_className data)) as ->.
  { destruct (truthy (fc_className data)); [rewrite list_elem_of_singleton; tauto|].
    split; [by intros ?%elem_of_nil|by intros [? _]]. }
  destruct (truthy (conn_classParam c) && bool_decide (conn_classParam c ≠ fc_className data)).
  - rewrite removeClass_elem. tauto.
  - assert (x ∈ conn_classes c ∧ (false = true → x ≠ default EmptyString (conn_classParam c))
            ↔ x ∈ conn_classes c) as -> by (split; [tauto|done]).
    tauto.
Qed.

Lemma touch_classes selected data c :
  conn_classes (touch selected data c) = conn_classes (updateConnectionMetadata selected data c)
  ∧ conn_classParam (ensureDeleteOverlay data (attachConnectionHandlers data c)) = conn_classParam c
  ∧ conn_classes (ensureDeleteOverlay data (attachConnectionHandlers data c)) = conn_classes c.
Proof.
  unfold touch, ensureDeleteOverlay, attachConnectionHandlers.
  destruct (conn_handlersParam c); case_bool_decide; done.
Qed.

(** A declared class is never removed as the class of the previous
    declaration by the update that follows its own. *)
Lemma metadata_keeps_its_class selected data c :
  let c1 := updateConnectionMetadata selected data c in
  truthy (conn_classParam c1) && bool_decide (conn_classParam c1 ≠ fc_className data) = false.
Proof.
  cbn [updateConnectionMetadata conn_classParam].
  destruct (fc_className data) as [cn|]; simpl; [|done].
  rewrite (bool_decide_eq_false_2 (Some cn ≠ Some cn)) by (by intros H; apply H).
  by rewrite andb_false_r.
Qed.

(** On a claimed connection the handlers are bound and the overlay is
    there: a second claim is its metadata update alone. *)
Lemma touch_touch selected data c :
  touch selected data (touch selected data c)
  = updateConnectionMetadata selected data (touch selected data c).
Proof.
  unfold touch at 1.
  set (c1 := ensureDeleteOverlay data (attachConnectionHandlers data c)).
  assert (conn_handlersParam c1 = true) as Hh.
  { unfold c1, ensureDeleteOverlay, attachConnectionHandlers.
    destruct (conn_handlersParam c) eqn:E; case_bool_decide; simpl; done. }
  assert (("delete-" +:+ fc_id data) ∈ conn_overlays c1) as Ho.
  { unfold c1, ensureDeleteOverlay. case_bool_decide as Hin; [done|]. cbn [conn_overlays].
    apply elem_of_app. right. by apply list_elem_of_singleton. }
  unfold touch. fold c1.
  assert (attachConnectionHandlers data (updateConnectionMetadata selected data c1)
          = updateConnectionMetadata selected data c1) as ->.
  { unfold attachConnectionHandlers. cbn [updateConnectionMetadata conn_handlersParam].
    by rewrite Hh. }
  assert (ensureDeleteOverlay data (updateConnectionMetadata selected data c1)
          = updateConnectionMetadata selected data c1) as ->.
  { unfold ensureDeleteOverlay. cbn [updateConnectionMetadata conn_overlays].
    by rewrite bool_decide_eq_true_2. }
  done.
Qed.

(** The class list after a second claim: the list after the first one,
    with the declared class and [jr-connection] pushed once more. *)
Lemma touch_touch_classes selected data c :
  conn_classes (touch selected data (touch selected data c))
  = (removeClass "jr-selected"
       (conn_classes (touch selected data c)
        ++ (if truthy (fc_className data) then [default EmptyString (fc_className data)] else [])
        ++ ["jr-connection"])
     ++ (if bool_decide (fc_id data ∈ selected) then ["jr-selected"] else []))%list.
Proof.
  rewrite touch_touch, metadata_classes. unfold touch at 1 2.
  by rewrite metadata_keeps_its_class.
Qed.

Lemma touch_again selected data c :
  sameButClasses (touch selected data c) (touch selected data (touch selected data c)).
Proof.
  split.
  - rewrite touch_touch. by apply EngineConnection_eq.
  - apply sameClassNames_elem. intros x. rewrite touch_touch.
    rewrite (metadata_class_names selected data (touch selected data c)).
    unfold touch at 2 3. rewrite metadata_keeps_its_class. fold (touch selected data c).
    destruct (touch_classes selected data c) as (-> & _ & _).
    rewrite (metadata_class_names selected data c).
    assert (∀ P : Prop, (false = true → P) ↔ True) as Hf
      by (intros P; split; [done|intros _ ?; done]).
    rewrite Hf. tauto.
Qed.

(** A claim reads the class list of a connection only for the class
    names in it. *)
Lemma touch_sameButClasses selected data c c' :
  sameButClasses c c' → sameButClasses (touch selected data c) (touch selected data c').
Proof.
  intros [Hf Hn]. rewrite sameClassNames_elem in Hn. split.
  - apply setClasses_swap in Hf. rewrite Hf. clear Hf Hn.
    destruct c as [s t d i cp hp cd o dt lb cl].
    unfold touch, attachConnectionHandlers, ensureDeleteOverlay.
    cbn [setClasses conn_handlersParam conn_sourceUuid conn_targetUuid conn_deleted conn_idParam
         conn_classParam conn_clickData conn_overlays conn_detachable conn_label conn_classes].
    destruct hp;
      cbn [setClasses conn_handlersParam conn_sourceUuid conn_targetUuid conn_deleted
           conn_idParam conn_classParam conn_clickData conn_overlays conn_detachable conn_label
           conn_classes];
      destruct (bool_decide (("delete-" +:+ fc_id data) ∈ o)); reflexivity.
  - apply sameClassNames_elem. intros x.
    destruct (touch_classes selected data c) as (-> & _ & _).
    destruct (touch_classes selected data c') as (-> & _ & _).
    rewrite !metadata_class_names.
    assert (conn_classParam c' = conn_classParam c) as -> by (by rewrite <- Hf).
    by rewrite (Hn x).
Qed.

(** X17: claiming a connection a second time for the same declared
    connection and selection changes no field of it but the class list:
    handlers and overlay are guarded, and identity, declared class,
    detachability and label are written again as they are. The class
    list keeps its class names, but it is not left as it is:
    [jr-selected] is filtered out, the declared class and
    [jr-connection] are pushed once more behind the names already there,
    and [jr-selected] is pushed again for a selected connection, so the
    list is longer after every claim. *)
Theorem claiming_twice_repeats_class_names selected data c :
  let c1 := touch selected data c in
  let c2 := touch selected data c1 in
  sameButClasses c1 c2
  ∧ conn_classes c2
    = (removeClass "jr-selected"
         (conn_classes c1
          ++ (if truthy (fc_className data) then [default EmptyString (fc_className data)] else [])
          ++ ["jr-connection"])
       ++ (if bool_decide (fc_id data ∈ selected) then ["jr-selected"] else []))%list
  ∧ (length (conn_classes c1) < length (conn_classes c2))%nat.
Proof.
  intros c1 c2. split_and!.
  - apply touch_again.
  - apply touch_touch_classes.
  - unfold c2, c1. rewrite touch_touch_classes.
    destruct (touch_classes selected data c) as (-> & _ & _). rewrite metadata_classes.
    set (l := ((if truthy (conn_classParam c) && bool_decide (conn_classParam c ≠ fc_className data)
                then removeClass (default EmptyString (conn_classParam c)) (conn_classes c)
                else conn_classes c)
               ++ (if truthy (fc_className data) then [default EmptyString (fc_className data)]
                   else [])
               ++ ["jr-connection"])%list).
    set (sel := if bool_decide (fc_id data ∈ selected) then ["jr-selected"] else []).
    set (cls := if truthy (fc_className data) then [default EmptyString (fc_className data)]
                else []).
    assert (removeClass "jr-selected" sel = []) as Hsel.
    { unfold sel. case_bool_decide; [|done]. unfold removeClass.
      by rewrite filter_cons_False by (by intros Hne; apply Hne). }
    rewrite !removeClass_app, removeClass_again, Hsel, app_nil_r, !length_app.
    assert (removeClass "jr-selected" ["jr-connection"] = ["jr-connection"]) as ->.
    { by vm_compute. }
    simpl. lia.
Qed.

Lemma claiming_twice_repeats_class_names_witness :
  let data := {| fc_id := "e1"; fc_source := {| nodeId := "A"; portId := None |};
                 fc_target := {| nodeId := "B"; portId := None |};
                 fc_label := None; fc_className := Some "flow"; fc_editable := None |} in
  let c1 := touch ["e1"] data (newConnection "A:default" "B:default" true) in
  conn_classes c1 = ["flow"; "jr-connection"; "jr-selected"]
  ∧ conn_classes (touch ["e1"] data c1)
    = ["flow"; "jr-connection"; "flow"; "jr-connection"; "jr-selected"].
Proof.
  intros data c1.
  destruct (claiming_twice_repeats_class_names ["e1"] data
              (newConnection "A:default" "B:default" true)) as (_ & -> & _).
  split; by vm_compute.
Defined.



End ConnectionMetadata.

(* --------------------------------------------------------------------- *)
(** ** The selection effect on connection classes                         *)
(* --------------------------------------------------------------------- *)

Section SelectionClasses.

Implicit Types (c : EngineConnection) (eng : Engine) (selected : list string).

Lemma markSelected_classes selected id c x :
  x ∈ conn_classes (markSelected selected id c)
  ↔ (x ∈ conn_classes c ∧ x ≠ "jr-selected") ∨ (x = "jr-selected" ∧ id ∈ selected).
Proof.
  unfold markSelected. case_bool_decide as Hs; cbn [setClasses conn_classes].
  - rewrite addClass_elem.
    destruct (decide (x = "jr-selected")) as [->|Hne]; tauto.
  - rewrite removeClass_elem. tauto.
Qed.

Lemma touch_selected_class selected data c :
  "jr-selected" ∈ conn_classes (touch selected data c) ↔ fc_id data ∈ selected.
Proof.
  destruct (touch_classes selected data c) as (-> & _ & _).
  rewrite metadata_class_names. split; [|by right]. intros [[_ Hne]|[_ Hs]]; done.
Qed.

Lemma selectionClassEffect_lookup selected (connectionMap : gmap string nat) eng :
  (∀ id id' h, connectionMap !! id = Some h → connectionMap !! id' = Some h → id = id') →
  eng_endpoints (selectionClassEffect selected connectionMap eng) = eng_endpoints eng
  ∧ ∀ h, (∀ id, connectionMap !! id = Some h →
                eng_connections (selectionClassEffect selected connectionMap eng) !! h
                = markSelected selected id <$> eng_connections eng !! h)
         ∧ ((∀ id, connectionMap !! id ≠ Some h) →
            eng_connections (selectionClassEffect selected connectionMap eng) !! h
            = eng_connections eng !! h).
Proof.
  unfold selectionClassEffect.
  apply (map_fold_weak_ind
    (λ (r : Engine) (m : gmap string nat),
       (∀ id id' h, m !! id = Some h → m !! id' = Some h → id = id') →
       eng_endpoints r = eng_endpoints eng
       ∧ ∀ h, (∀ id, m !! id = Some h →
                     eng_connections r !! h = markSelected selected id <$> eng_connections eng !! h)
              ∧ ((∀ id, m !! id ≠ Some h) → eng_connections r !! h = eng_connections eng !! h))).
  - intros _. split; [done|]. intros h. split; [|done]. intros id Hid.
    by rewrite lookup_empty in Hid.
  - intros id h m r Hfresh IH Hinj.
    assert (∀ id', m !! id' ≠ Some h) as Hnew.
    { intros id' Hid'. assert (id = id') as <-.
      { apply (Hinj id id' h); [by rewrite lookup_insert_eq|].
        rewrite lookup_insert_ne; [done|]. intros <-. by rewrite Hfresh in Hid'. }
      by rewrite Hfresh in Hid'. }
    destruct IH as [Hep Hconn].
    { intros i i' x Hi Hi'. apply (Hinj i i' x).
      - rewrite lookup_insert_ne; [done|]. intros <-. by rewrite Hfresh in Hi.
      - rewrite lookup_insert_ne; [done|]. intros <-. by rewrite Hfresh in Hi'. }
    split; [done|]. intros h'. rewrite updateConnection_lookup. split.
    + intros id' Hid'. destruct (decide (id' = id)) as [->|Hne].
      * rewrite lookup_insert_eq in Hid'. injection Hid' as <-.
        rewrite decide_True by done. destruct (Hconn h) as [_ Hsame]. by rewrite Hsame.
      * rewrite lookup_insert_ne in Hid' by done.
        rewrite decide_False; [by apply Hconn|]. intros <-. by apply (Hnew id').
    + intros Hnone. rewrite decide_False.
      * apply Hconn. intros id' Hid'. apply (Hnone id').
        rewrite lookup_insert_ne; [done|]. intros <-. by rewrite Hfresh in Hid'.
      * intros <-. apply (Hnone id). by rewrite lookup_insert_eq.
Qed.

(** X19: when no connection object is filed under two identities, the
    effect on the selection leaves every tracked connection with the
    class [jr-selected] exactly when its identity is selected, changes
    no other class and no other field, and leaves the connections it
    does not track as they are. *)
Theorem selection_effect_marks_the_selected_connections selected
    (connectionMap : gmap string nat) eng id h c :
  (∀ id id' h, connectionMap !! id = Some h → connectionMap !! id' = Some h → id = id') →
  connectionMap !! id = Some h →
  eng_connections eng !! h = Some c →
  let eng' := selectionClassEffect selected connectionMap eng in
  (∃ c', eng_connections eng' !! h = Some c'
         ∧ ("jr-selected" ∈ conn_classes c' ↔ id ∈ selected)
         ∧ (∀ x, x ≠ "jr-selected" → x ∈ conn_classes c' ↔ x ∈ conn_classes c)
         ∧ setClasses (conn_classes c) c' = c)
  ∧ (∀ h', (∀ id', connectionMap !! id' ≠ Some h') →
           eng_connections eng' !! h' = eng_connections eng !! h').
Proof.
  intros Hinj Hid Hc eng'.
  destruct (selectionClassEffect_lookup selected connectionMap eng Hinj) as [_ Hlookup].
  split.
  - exists (markSelected selected id c). split_and!.
    + destruct (Hlookup h) as [Hh _]. unfold eng'. by rewrite (Hh id Hid), Hc.
    + rewrite markSelected_classes. split; [|by right]. intros [[_ Hne]|[_ Hs]]; done.
    + intros x Hx. rewrite markSelected_classes. split; [|by left].
      intros [[Hin _]|[Heq _]]; done.
    + unfold markSelected. by destruct c; case_bool_decide.
  - intros h' Hnone. by apply Hlookup.
Qed.

Lemma selection_effect_marks_the_selected_connections_witness :
  let eng := {| eng_endpoints := ∅;
                eng_connections := [ newConnection "A:default" "B:default" true;
                                     onMouseEnter (newConnection "B:default" "A:default" true) ] |} in
  let connectionMap : gmap string nat := {[ "e1" := 0; "e2" := 1 ]} in
  ∃ c', eng_connections (selectionClassEffect ["e2"] connectionMap eng) !! 1 = Some c'
        ∧ "jr-selected" ∈ conn_classes c' ∧ "jr-hover" ∈ conn_classes c'.
Proof.
  intros eng connectionMap.
  destruct (selection_effect_marks_the_selected_connections ["e2"] connectionMap eng "e2" 1
              (onMouseEnter (newConnection "B:default" "A:default" true)))
    as [(c' & Hc' & Hsel & Hother & _) _].
  - intros id id' h Hid Hid'.
    apply lookup_insert_Some in Hid as [[<- <-]|[Hne Hid]];
      apply lookup_insert_Some in Hid' as [[<- Heq]|[Hne' Hid']]; try done.
    + apply lookup_singleton_Some in Hid' as [<- ?]. lia.
    + apply lookup_singleton_Some in Hid as [<- ?]. lia.
    + apply lookup_singleton_Some in Hid as [<- ?].
      apply lookup_singleton_Some in Hid' as [<- ?]. done.
  - done.
  - done.
  - exists c'. split_and!; [done| |].
    + apply Hsel. by apply list_elem_of_singleton.
    + apply Hother; [done|]. apply (bool_decide_unpack _). by vm_compute.
Defined.

(** X20: the selection effect after a pass with the same selection
    changes no field of a claimed connection but the class list, and
    adds no class name to it and removes none. When the identity of the
    connection is not selected the connection is left as it is; when it
    is selected, [jr-selected], which the pass has pushed already, is
    pushed once more. *)
Theorem selection_effect_after_a_pass_keeps_the_class_names selected data c :
  let c1 := touch selected data c in
  let c2 := markSelected selected (fc_id data) c1 in
  sameButClasses c1 c2
  ∧ (fc_id data ∉ selected → c2 = c1)
  ∧ (fc_id data ∈ selected → conn_classes c2 = (conn_classes c1 ++ ["jr-selected"])%list).
Proof.
  intros c1 c2. pose proof (touch_selected_class selected data c) as Hsel. fold c1 in Hsel.
  split_and!.
  - split.
    + unfold c2, markSelected. by destruct c1; case_bool_decide.
    + apply sameClassNames_elem. intros x. unfold c2. rewrite markSelected_classes.
      destruct (decide (x = "jr-selected")) as [->|Hne]; [|tauto].
      rewrite Hsel. tauto.
  - intros Hs. unfold c2, markSelected. rewrite bool_decide_eq_false_2 by done.
    rewrite removeClass_absent; [by destruct c1|]. intros Hin. by apply Hs, Hsel.
  - intros Hs. unfold c2, markSelected. by rewrite bool_decide_eq_true_2.
Qed.

Lemma selection_effect_after_a_pass_keeps_the_class_names_witness :
  let data := {| fc_id := "e1"; fc_source := {| nodeId := "A"; portId := None |};
                 fc_target := {| nodeId := "B"; portId := None |};
                 fc_label := None; fc_className := Some "flow"; fc_editable := None |} in
  let c := newConnection "A:default" "B:default" true in
  conn_classes (markSelected ["e1"] "e1" (touch ["e1"] data c))
  = ["flow"; "jr-connection"; "jr-selected"; "jr-selected"]
  ∧ markSelected [] "e1" (touch [] data c) = touch [] data c.
Proof.
  intros data c. split.
  - destruct (selection_effect_after_a_pass_keeps_the_class_names ["e1"] data c)
      as (_ & _ & Hpush).
    change (fc_id data) with "e1" in Hpush. rewrite Hpush; [by vm_compute|].
    by apply list_elem_of_singleton.
  - destruct (selection_effect_after_a_pass_keeps_the_class_names [] data c) as (_ & Hsame & _).
    apply Hsame. by intros ?%elem_of_nil.
Defined.

End SelectionClasses.

(* --------------------------------------------------------------------- *)
(** ** What a reconciliation pass keeps                                   *)
(* --------------------------------------------------------------------- *)

Section PassFrame.

Implicit Types (c : EngineConnection) (eng : Engine) (data : FlowConnection)
  (selected : list string) (st : PassState).

Lemma connectionKept_refl c : connectionKept c c.
Proof. by unfold connectionKept. Qed.

Lemma connectionKept_trans c1 c2 c3 :
  connectionKept c1 c2 → connectionKept c2 c3 → connectionKept c1 c3.
Proof.
  intros (Hs & Ht & Hd & Hh & Ho) (Hs' & Ht' & Hd' & Hh' & Ho'). unfold connectionKept.
  split_and!.
  - by rewrite Hs', Hs.
  - by rewrite Ht', Ht.
  - intros H. by apply Hd', Hd.
  - intros H. destruct (Hh H) as [H2 Hc]. destruct (Hh' H2) as [H3 Hc'].
    split; [done|]. by rewrite Hc', Hc.
  - intros o Hin. by apply Ho', Ho.
Qed.

Lemma connectionKept_markDeleted c : connectionKept c (markDeleted c).
Proof. by unfold connectionKept. Qed.

Lemma connectionKept_touch selected data c : connectionKept c (touch selected data c).
Proof.
  unfold connectionKept, touch, updateConnectionMetadata, ensureDeleteOverlay,
    attachConnectionHandlers.
  destruct (conn_handlersParam c) eqn:Hh; case_bool_decide; simpl; split_and!; try done.
  all: try (intros o Hin; apply elem_of_app; by left).
  all: by rewrite ?Hh.
Qed.

Lemma engineKept_refl eng : engineKept 0 eng eng.
Proof.
  unfold engineKept. split_and!; [done| |lia..].
  intros h c Hc. exists c. split; [done|apply connectionKept_refl].
Qed.

Lemma engineKept_trans n m eng1 eng2 eng3 :
  engineKept n eng1 eng2 → engineKept m eng2 eng3 → engineKept (n + m) eng1 eng3.
Proof.
  intros (Hep & Hc & Hl & Hu) (Hep' & Hc' & Hl' & Hu'). unfold engineKept. split_and!.
  - by rewrite Hep', Hep.
  - intros h c1 H1. destruct (Hc h c1 H1) as (c2 & H2 & Hk). destruct (Hc' h c2 H2) as (c3 & H3 & Hk').
    exists c3. split; [done|]. by eapply connectionKept_trans.
  - lia.
  - lia.
Qed.

Lemma engineKept_weaken (n m : nat) eng eng' :
  (n ≤ m)%nat → engineKept n eng eng' → engineKept m eng eng'.
Proof. intros Hnm (Hep & Hc & Hl & Hu). unfold engineKept. split_and!; [done..|lia]. Qed.

Lemma engineKept_update (f : EngineConnection → EngineConnection) h eng :
  (∀ c, connectionKept c (f c)) → engineKept 0 eng (updateConnection f h eng).
Proof.
  intros Hf. unfold engineKept. split_and!.
  - done.
  - intros h' c Hc. rewrite updateConnection_lookup. case_decide as Hh.
    + rewrite Hc. simpl. eauto.
    + exists c. split; [done|apply connectionKept_refl].
  - unfold updateConnection. simpl. by rewrite length_alter.
  - unfold updateConnection. simpl. rewrite length_alter. lia.
Qed.

Lemma engineKept_delete h eng : engineKept 0 eng (engineDelete h eng).
Proof. apply (engineKept_update markDeleted), connectionKept_markDeleted. Qed.

Lemma engineKept_connect s t d eng :
  engineKept 1 eng (engineConnect s t d eng).1.
Proof.
  unfold engineConnect. destruct (eng_endpoints eng !! s), (eng_endpoints eng !! t); simpl.
  2-4: apply (engineKept_weaken 0); [lia|apply engineKept_refl].
  unfold engineKept. simpl. split_and!; [done| |rewrite length_app; simpl; lia..].
  intros h c Hc. exists c. split; [|apply connectionKept_refl].
  by apply lookup_app_l_Some.
Qed.

Lemma engineKept_claim selected data h st :
  engineKept 0 (ps_engine st) (ps_engine (claimConnection selected data h st)).
Proof.
  destruct (claimConnection_engine selected data h st) as [Hep Hc].
  unfold engineKept. split_and!; [done| | |].
  - intros h' c Hh'. rewrite Hc. case_decide.
    + rewrite Hh'. simpl. eexists. split; [done|]. apply connectionKept_touch.
    + exists c. split; [done|apply connectionKept_refl].
  - unfold claimConnection, updateConnection. simpl. by rewrite !length_alter.
  - unfold claimConnection, updateConnection. simpl. rewrite !length_alter. lia.
Qed.

Lemma engineKept_reconcileOne endpointMap selected st data :
  engineKept (if resolvable endpointMap data then 1 else 0)
    (ps_engine st) (ps_engine (reconcileOne endpointMap selected st data)).
Proof.
  unfold reconcileOne. destruct (resolvable endpointMap data); simpl; [|apply engineKept_refl].
  assert (engineKept 0 (ps_engine st) (ps_engine (lookupByTag data st).1)) as Htag.
  { unfold lookupByTag. destruct (ps_existing st !! fc_id data) as [h|]; [|apply engineKept_refl].
    destruct (eng_connections (ps_engine st) !! h) as [c|]; [|apply engineKept_refl].
    destruct (isSameUuid _ _ _); [apply engineKept_refl|]. simpl. apply engineKept_delete. }
  destruct (lookupByTag data st) as [st1 byTag]. simpl in Htag.
  destruct byTag as [h|].
  - apply (engineKept_weaken 0); [lia|].
    apply (engineKept_trans 0 0 _ _ _ Htag), engineKept_claim.
  - apply (engineKept_trans 0 1 _ _ _ Htag).
    unfold reuseOrCreate, lookupByPair.
    destruct (ps_byUuid st1 !! _) as [u|].
    + apply (engineKept_weaken 0); [lia|].
      apply (engineKept_claim selected data u
               {| ps_engine := ps_engine st1; ps_existing := ps_existing st1;
                  ps_byUuid := delete (pairKey (sourceUuidOf data) (targetUuidOf data))
                                      (ps_byUuid st1);
                  ps_connectionMap := ps_connectionMap st1 |}).
    + unfold connectAndClaim.
      pose proof (engineKept_connect (sourceUuidOf data) (targetUuidOf data)
                    (negb (bool_decide (fc_editable data = Some false))) (ps_engine st1)) as Hconn.
      destruct (engineConnect _ _ _ _) as [eng' [h|]]; simpl in Hconn.
      * apply (engineKept_trans 1 0 _ _ _ Hconn).
        apply (engineKept_claim selected data h
                 {| ps_engine := eng'; ps_existing := ps_existing st1;
                    ps_byUuid := ps_byUuid st1; ps_connectionMap := ps_connectionMap st1 |}).
      * apply (engineKept_weaken 0); [lia|]. apply engineKept_refl.
Qed.

Lemma engineKept_loop endpointMap selected (declared : list FlowConnection) st :
  engineKept (length (filter (λ data, resolvable endpointMap data = true) declared))
    (ps_engine st) (ps_engine (fold_left (reconcileOne endpointMap selected) declared st)).
Proof.
  revert st. induction declared as [|data declared IH]; intros st; simpl; [apply engineKept_refl|].
  pose proof (engineKept_reconcileOne endpointMap selected st data) as Hone.
  specialize (IH (reconcileOne endpointMap selected st data)).
  destruct (resolvable endpointMap data) eqn:Hres.
  - rewrite filter_cons_True by done. simpl.
    apply (engineKept_trans 1 _ _ _ _ Hone IH).
  - rewrite filter_cons_False by (by rewrite Hres).
    apply (engineKept_trans 0 _ _ _ _ Hone IH).
Qed.

Lemma engineKept_sweep st : engineKept 0 (ps_engine st) (sweep st).1.
Proof.
  destruct (sweep_engine st) as [Hep Hc].
  assert (∀ h, is_Some (eng_connections (sweep st).1 !! h)
               ↔ is_Some (eng_connections (ps_engine st) !! h)) as Hsome.
  { intros h. destruct (Hc h) as (b & -> & _). destruct b; [|done].
    by rewrite fmap_is_Some. }
  assert (length (eng_connections (sweep st).1) = length (eng_connections (ps_engine st))) as Hlen.
  { destruct (decide (length (eng_connections (sweep st).1)
                      < length (eng_connections (ps_engine st)))) as [Hlt|Hge].
    - apply lookup_lt_is_Some in Hlt. apply Hsome in Hlt. apply lookup_lt_is_Some in Hlt. lia.
    - destruct (decide (length (eng_connections (ps_engine st))
                        < length (eng_connections (sweep st).1))) as [Hlt|Hge'].
      + apply lookup_lt_is_Some in Hlt. apply Hsome in Hlt. apply lookup_lt_is_Some in Hlt. lia.
      + lia. }
  unfold engineKept. split_and!; [done| |lia..].
  intros h c Hh. destruct (Hc h) as (b & Hb & _). rewrite Hh in Hb. destruct b; simpl in Hb.
  - eexists. split; [done|]. apply connectionKept_markDeleted.
  - exists c. split; [done|apply connectionKept_refl].
Qed.

(** X21: whatever the engine holds and whatever is declared, a pass
    keeps the endpoints of the engine; it keeps every connection object
    with its two endpoints, never revives a deleted connection, never
    rebinds the handlers of a connection (they keep the connection data
    they were bound with) and never drops an overlay; and it creates at
    most one connection for each declared connection that resolves. *)
Theorem pass_keeps_what_the_engine_holds endpointMap selected (declared : list FlowConnection)
    (connectionMap : gmap string nat) eng :
  engineKept (length (filter (λ data, resolvable endpointMap data = true) declared))
    eng (reconcileConnections endpointMap selected declared connectionMap eng).1.
Proof.
  unfold reconcileConnections.
  pose proof (engineKept_loop endpointMap selected declared (startPass connectionMap eng)) as Hloop.
  pose proof (engineKept_sweep
                (fold_left (reconcileOne endpointMap selected) declared
                   (startPass connectionMap eng))) as Hsweep.
  pose proof (engineKept_trans _ _ _ _ _ Hloop Hsweep) as Hall.
  by rewrite Nat.add_0_r in Hall.
Qed.

End PassFrame.

Section BoundHandlers.

Implicit Types (c : EngineConnection) (data : FlowConnection) (selected : list string).

Lemma touch_binds_handlers selected data c :
  conn_handlersParam (touch selected data c) = true
  ∧ (conn_handlersParam c = false → conn_clickData (touch selected data c) = Some data)
  ∧ conn_label (touch selected data c) = default EmptyString (fc_label data)
  ∧ conn_detachable (touch selected data c) = negb (bool_decide (fc_editable data = Some false)).
Proof.
  unfold touch.
  set (c1 := ensureDeleteOverlay data (attachConnectionHandlers data c)).
  assert (conn_handlersParam c1 = true
          ∧ (conn_handlersParam c = false → conn_clickData c1 = Some data)) as [Hh Hd].
  { unfold c1, ensureDeleteOverlay, attachConnectionHandlers.
    destruct (conn_handlersParam c) eqn:E; case_bool_decide; cbn [conn_handlersParam conn_clickData];
      by split. }
  unfold updateConnectionMetadata.
  cbn [conn_handlersParam conn_clickData conn_label conn_detachable]. by split_and!.
Qed.

(** X22: the handlers of a connection report the declaration they were
    bound with. After the declaration of a connection changes, a pass
    updates label and detachability from the new declaration, and the
    click handlers still carry the old one. *)
Theorem bound_handlers_keep_the_first_declaration selected selected' data data' c :
  conn_handlersParam c = false →
  let c' := touch selected' data' (touch selected data c) in
  conn_clickData c' = Some data
  ∧ conn_label c' = default EmptyString (fc_label data')
  ∧ conn_detachable c' = negb (bool_decide (fc_editable data' = Some false)).
Proof.
  intros Hh c'. unfold c'.
  destruct (touch_binds_handlers selected data c) as (Hbound & Hdata & _).
  destruct (touch_binds_handlers selected' data' (touch selected data c)) as (_ & _ & Hlabel & Hdet).
  destruct (connectionKept_touch selected' data' (touch selected data c))
    as (_ & _ & _ & Hkeep & _).
  destruct (Hkeep Hbound) as [_ Hclick]. rewrite Hclick, Hdata by done. by split_and!.
Qed.

Lemma bound_handlers_keep_the_first_declaration_witness :
  let declare label :=
    {| fc_id := "e1"; fc_source := {| nodeId := "A"; portId := None |};
       fc_target := {| nodeId := "B"; portId := None |};
       fc_label := Some label; fc_className := None; fc_editable := None |} in
  let c' := touch [] (declare "new") (touch [] (declare "old") (newConnection "A:default" "B:default" true)) in
  conn_clickData c' = Some (declare "old") ∧ conn_label c' = "new".
Proof.
  intros declare c'.
  destruct (bound_handlers_keep_the_first_declaration [] [] (declare "old") (declare "new")
              (newConnection "A:default" "B:default" true) eq_refl) as (Hclick & Hlabel & _).
  by split.
Defined.

End BoundHandlers.

(* --------------------------------------------------------------------- *)
(** ** A pass on a settled engine                                         *)
(* --------------------------------------------------------------------- *)

Section SettledEngine.

Variables (endpointMap : gmap string Endpoint) (selected : list string)
  (declared : list FlowConnection) (eng : Engine).

Hypothesis Hsettled : settled endpointMap selected declared eng.

Local Abbreviation existing0 := ((indexConnections eng).1).
Local Abbreviation conns st := (eng_connections (ps_engine st)).

(** What a pass reads of a connection besides its class list is the
    same on two connections that differ in the class list only. *)
Lemma sameButClasses_seen (c c' : EngineConnection) :
  sameButClasses c c' →
  conn_deleted c' = conn_deleted c ∧ tagOf c' = tagOf c
  ∧ ∀ s t, isSameUuid c' s t = isSameUuid c s t.
Proof.
  intros [Hf _]. apply setClasses_swap in Hf. rewrite Hf. by destruct c.
Qed.

Lemma sameButClassLists_refl (e : Engine) : sameButClassLists e e.
Proof.
  split; [done|]. apply Forall2_lookup. intros i.
  destruct (eng_connections e !! i); constructor. apply sameButClasses_refl.
Qed.

Lemma sameButClassLists_trans (e1 e2 e3 : Engine) :
  sameButClassLists e1 e2 → sameButClassLists e2 e3 → sameButClassLists e1 e3.
Proof.
  intros [Hep H12] [Hep' H23]. split; [congruence|].
  rewrite Forall2_lookup in H12, H23. apply Forall2_lookup. intros i.
  specialize (H12 i). specialize (H23 i).
  destruct H12 as [c1 c2 H12|]; inversion H23 as [c2' c3 H23' E2 E3|]; subst; constructor.
  by apply (sameButClasses_trans c1 c2 c3).
Qed.

Lemma liveTags_offset (f : nat → nat) (l l' : list EngineConnection) :
  Forall2 sameButClasses l l' →
  omap (λ hc : nat * EngineConnection, tagOf hc.2)
    (filter (λ hc, conn_deleted hc.2 = false) (imap (λ h c, (f h, c)) l))
  = omap (λ hc : nat * EngineConnection, tagOf hc.2)
      (filter (λ hc, conn_deleted hc.2 = false) (imap (λ h c, (f h, c)) l')).
Proof.
  intros Hl. revert f. induction Hl as [|c c' l l' Hc Hl IH]; intros f; [done|].
  rewrite !imap_cons. destruct (sameButClasses_seen c c' Hc) as (Hd & Ht & _).
  specialize (IH (f ∘ S)).
  destruct (conn_deleted c) eqn:Hdel.
  - rewrite !filter_cons_False by (simpl; congruence). exact IH.
  - rewrite !filter_cons_True by (simpl; congruence). simpl. rewrite Ht.
    destruct (tagOf c); [f_equal|]; exact IH.
Qed.

Lemma sameButClassLists_liveTags (e e' : Engine) :
  sameButClassLists e e' → liveTags e' = liveTags e.
Proof. intros [_ Hl]. symmetry. exact (liveTags_offset (λ h, h) _ _ Hl). Qed.

Lemma settled_owner data :
  data ∈ declared → resolvable endpointMap data = true →
  ∃ h c, existing0 !! fc_id data = Some h
         ∧ eng_connections eng !! h = Some c
         ∧ conn_deleted c = false
         ∧ tagOf c = Some (fc_id data)
         ∧ isSameUuid c (sourceUuidOf data) (targetUuidOf data) = true
         ∧ sameButClasses c (touch selected data c).
Proof.
  intros Hin Hres. destruct Hsettled as (_ & Huniq & Hown & _).
  rewrite Forall_forall in Hown. specialize (Hown data Hin Hres).
  apply Exists_exists in Hown as ([h c] & Hhc & Htag & Hsame & Hfix). simpl in *.
  apply elem_of_flattenConnections in Hhc as [Hc Hlive].
  destruct (indexConnections_existing_complete eng h c (fc_id data) Hc Hlive Htag) as [h' Hh'].
  destruct (indexConnections_existing eng (fc_id data) h' Hh') as (c' & Hc' & Hlive' & Htag').
  assert (h' = h) as -> by (by eapply (uniqueTags_inj eng h' h c' c)).
  exists h, c. done.
Qed.

Lemma settled_tags t h :
  existing0 !! t = Some h →
  ∃ data, data ∈ declared ∧ resolvable endpointMap data = true ∧ fc_id data = t.
Proof.
  intros Ht. destruct (indexConnections_existing eng t h Ht) as (c & Hc & Hlive & Htag).
  destruct Hsettled as (_ & _ & _ & Htags). rewrite Forall_forall in Htags.
  assert (t ∈ liveTags eng) as Hin.
  { unfold liveTags. apply list_elem_of_omap. exists (h, c). split; [|done].
    by apply elem_of_flattenConnections. }
  specialize (Htags t Hin). apply Exists_exists in Htags as (data & Hd & Hres & Hid). eauto.
Qed.

(** An engine that differs from a settled one in class lists only, and
    not in the names they hold, is settled. *)
Lemma settled_sameButClassLists (eng' : Engine) :
  sameButClassLists eng eng' → settled endpointMap selected declared eng'.
Proof.
  intros Hsame. pose proof (sameButClassLists_liveTags eng eng' Hsame) as Htags.
  destruct Hsame as [_ Hl].
  destruct Hsettled as (Hids & Huniq & Hown & Hlive). unfold settled. split_and!.
  - done.
  - unfold uniqueTags. by rewrite Htags.
  - apply Forall_forall. intros data Hin Hres.
    destruct (settled_owner data Hin Hres) as (h & c & _ & Hc & Hlv & Htag & Huu & Hfix).
    destruct (Forall2_lookup_l _ _ _ h c Hl Hc) as (c' & Hc' & Hcc').
    destruct (sameButClasses_seen c c' Hcc') as (Hd' & Ht' & Hu').
    apply Exists_exists. exists (h, c'). split_and!.
    + apply elem_of_flattenConnections. split; [done|congruence].
    + simpl. congruence.
    + simpl. by rewrite Hu'.
    + simpl. apply (sameButClasses_trans c' c (touch selected data c')).
      * by apply sameButClasses_sym.
      * apply (sameButClasses_trans c (touch selected data c)); [done|].
        by apply touch_sameButClasses.
  - by rewrite Htags.
Qed.

(** Claiming the connection that already carries the metadata of [data]
    keeps the engine as it is but for class lists, and leaves every
    connection that is deleted or carries no tag as it is. *)
Lemma claim_settled data h c st :
  sameButClassLists eng (ps_engine st) →
  (∀ h' c', eng_connections eng !! h' = Some c' → conn_deleted c' = true ∨ tagOf c' = None →
            conns st !! h' = Some c') →
  eng_connections eng !! h = Some c → conn_deleted c = false → tagOf c = Some (fc_id data) →
  sameButClasses c (touch selected data c) →
  sameButClassLists eng (ps_engine (claimConnection selected data h st))
  ∧ (∀ h' c', eng_connections eng !! h' = Some c' → conn_deleted c' = true ∨ tagOf c' = None →
              conns (claimConnection selected data h st) !! h' = Some c').
Proof.
  intros [Hep Hl] Hkeep Hc Hlive Htag Hfix.
  destruct (claimConnection_engine selected data h st) as [Hep' Hconn]. split; [split|].
  - congruence.
  - apply Forall2_lookup. intros i. rewrite Hconn.
    rewrite Forall2_lookup in Hl. specialize (Hl i). case_decide as Hi; [|done]. subst i.
    rewrite Hc in Hl |- *. inversion Hl as [c0 c' Hcc' E0 E'|]; subst. simpl. constructor.
    apply (sameButClasses_trans c (touch selected data c)); [done|].
    by apply touch_sameButClasses.
  - intros h' c' Hc' Hidle. rewrite Hconn. case_decide as Hi; [|by apply Hkeep]. subst h'.
    rewrite Hc in Hc'. injection Hc' as <-. destruct Hidle; congruence.
Qed.

Lemma settled_loop (processed rest : list FlowConnection) st :
  (processed ++ rest)%list = declared →
  sameButClassLists eng (ps_engine st) →
  (∀ h c, eng_connections eng !! h = Some c → conn_deleted c = true ∨ tagOf c = None →
          conns st !! h = Some c) →
  (∀ t, ps_existing st !! t
        = if bool_decide (t ∈ fc_id <$> filter (λ d, resolvable endpointMap d = true) processed)
          then None else existing0 !! t) →
  let st' := fold_left (reconcileOne endpointMap selected) rest st in
  sameButClassLists eng (ps_engine st')
  ∧ (∀ h c, eng_connections eng !! h = Some c → conn_deleted c = true ∨ tagOf c = None →
            conns st' !! h = Some c)
  ∧ ∀ t, ps_existing st' !! t
         = if bool_decide (t ∈ fc_id <$> filter (λ d, resolvable endpointMap d = true) declared)
           then None else existing0 !! t.
Proof.
  revert processed st.
  induction rest as [|data rest IH]; intros processed st Hsplit Heng Hkeep Hex; simpl.
  - rewrite app_nil_r in Hsplit. by subst processed.
  - assert (((processed ++ [data]) ++ rest)%list = declared) as Hsplit'
      by (by rewrite <- app_assoc).
    destruct (resolvable endpointMap data) eqn:Hres.
    + destruct (settled_owner data) as (h & c & Hh & Hc & Hlive & Htag & Hsame & Hfix); [|done|].
      { rewrite <- Hsplit. apply elem_of_app. right. by left. }
      assert (ps_existing st !! fc_id data = Some h) as Hfound.
      { rewrite Hex. rewrite bool_decide_eq_false_2; [done|].
        intros Hin. apply list_elem_of_fmap in Hin as (d & Hid & Hd).
        apply list_elem_of_filter in Hd as [_ Hd].
        destruct Hsettled as ([Hnd _] & _). rewrite <- Hsplit in Hnd.
        rewrite fmap_app in Hnd. apply NoDup_app in Hnd as (_ & Hdisj & _).
        apply (Hdisj (fc_id data)).
        - rewrite Hid. by apply list_elem_of_fmap_2.
        - simpl. by left. }
      destruct Heng as [Hep Hl].
      destruct (Forall2_lookup_l _ _ _ h c Hl Hc) as (c' & Hc' & Hcc').
      destruct (sameButClasses_seen c c' Hcc') as (_ & _ & Huu).
      assert (reconcileOne endpointMap selected st data = claimConnection selected data h st)
        as Hstep.
      { unfold reconcileOne. rewrite Hres. simpl. unfold lookupByTag.
        by rewrite Hfound, Hc', Huu, Hsame. }
      rewrite Hstep.
      destruct (claim_settled data h c st) as [Heng' Hkeep']; try done.
      apply (IH (processed ++ [data])%list); try done.
      intros t. unfold claimConnection. cbn [ps_existing].
      rewrite filter_app, fmap_app, filter_cons_True, filter_nil by done. simpl.
      destruct (decide (t = fc_id data)) as [->|Hne].
      * rewrite lookup_delete_eq. rewrite bool_decide_eq_true_2; [done|].
        apply elem_of_app. right. by left.
      * rewrite lookup_delete_ne by done. rewrite Hex.
        rewrite (bool_decide_ext (t ∈ (_ ++ [fc_id data])%list)
                   (t ∈ fc_id <$> filter (λ d, resolvable endpointMap d = true) processed));
          [done|].
        rewrite elem_of_app, list_elem_of_singleton. tauto.
    + rewrite reconcileOne_unresolvable by done.
      apply (IH (processed ++ [data])%list); try done.
      intros t. rewrite filter_app, fmap_app, filter_cons_False, filter_nil by (by rewrite Hres).
      simpl. by rewrite app_nil_r.
Qed.

Lemma settled_pass (connectionMap : gmap string nat) :
  let eng' := (reconcileConnections endpointMap selected declared connectionMap eng).1 in
  sameButClassLists eng eng'
  ∧ (∀ h c, eng_connections eng !! h = Some c → conn_deleted c = true ∨ tagOf c = None →
            eng_connections eng' !! h = Some c).
Proof.
  unfold reconcileConnections.
  destruct (settled_loop [] declared (startPass connectionMap eng)) as (Heng & Hkeep & Hex).
  { done. }
  { apply sameButClassLists_refl. }
  { done. }
  { intros t. done. }
  set (st := fold_left (reconcileOne endpointMap selected) declared (startPass connectionMap eng))
    in *.
  assert (ps_existing st = ∅) as Hempty.
  { apply map_eq. intros t. rewrite lookup_empty, Hex. case_bool_decide as Hin; [done|].
    destruct (existing0 !! t) as [h|] eqn:Ht; [|done].
    destruct (settled_tags t h Ht) as (data & Hd & Hres & Hid). exfalso. apply Hin.
    rewrite <- Hid. apply list_elem_of_fmap_2. by apply list_elem_of_filter. }
  unfold sweep. rewrite Hempty. by rewrite map_fold_empty.
Qed.

End SettledEngine.

Section SettledPass.

(** X23: a pass on a settled engine creates nothing, deletes nothing and
    retags nothing: every declared connection finds its connection by
    its tag and claims it, and nothing is left to sweep. The engine
    after the pass has the endpoints of the engine before it and,
    handle by handle, its connection objects, equal in every field but
    the class list, whose class names are the same (a claim pushes
    names that are there already); a connection that is deleted or
    carries no tag is left as it is; and the engine is settled again.
    An engine is settled when every resolvable declared connection has a
    live connection tagged with its identity between its resolved
    endpoints on which a claim changes the class list only, and no name
    in it, tags are unique, and every live tag is the identity of a
    resolvable declared connection. *)
Theorem pass_on_a_settled_engine_repeats_class_names_only (endpointMap : gmap string Endpoint)
    (selected : list string) (declared : list FlowConnection) (connectionMap : gmap string nat)
    (eng : Engine) :
  settled endpointMap selected declared eng →
  let eng' := (reconcileConnections endpointMap selected declared connectionMap eng).1 in
  sameButClassLists eng eng'
  ∧ (∀ h c, eng_connections eng !! h = Some c → conn_deleted c = true ∨ tagOf c = None →
            eng_connections eng' !! h = Some c)
  ∧ settled endpointMap selected declared eng'.
Proof.
  intros Hsettled eng'.
  destruct (settled_pass endpointMap selected declared eng Hsettled connectionMap)
    as [Hsame Hkeep].
  split_and!; [done..|]. by apply (settled_sameButClassLists endpointMap selected declared eng).
Qed.

Lemma pass_on_a_settled_engine_repeats_class_names_only_witness :
  let endpoint := {| ep_portId := None; ep_element := None |} in
  let endpoints : gmap string Endpoint :=
    {[ "A:out" := endpoint; "B:in" := endpoint; "C:default" := endpoint ]} in
  let eng0 :=
    {| eng_endpoints := endpoints;
       eng_connections := [ newConnection "A:out" "B:in" true ] |} in
  let declare id s sp t tp :=
    {| fc_id := id; fc_source := {| nodeId := s; portId := sp |};
       fc_target := {| nodeId := t; portId := tp |};
       fc_label := Some "link"; fc_className := Some "flow"; fc_editable := None |} in
  let declared :=
    [ declare "e1" "A" (Some "out") "B" (Some "in");
      declare "e2" "A" (Some "out") "C" None;
      declare "e3" "Z" None "A" (Some "out") ] in
  let eng1 := (reconcileConnections endpoints ["e2"] declared ∅ eng0).1 in
  let eng2 := (reconcileConnections endpoints ["e2"] declared ∅ eng1).1 in
  sameButClassLists eng1 eng2
  ∧ conn_classes <$> eng_connections eng1
    = [ ["flow"; "jr-connection"]; ["flow"; "jr-connection"; "jr-selected"] ]
  ∧ conn_classes <$> eng_connections eng2
    = [ ["flow"; "jr-connection"; "flow"; "jr-connection"];
        ["flow"; "jr-connection"; "flow"; "jr-connection"; "jr-selected"] ].
Proof.
  intros endpoint endpoints eng0 declare declared eng1 eng2.
  split; [|split; by vm_compute].
  apply (pass_on_a_settled_engine_repeats_class_names_only endpoints ["e2"] declared ∅ eng1).
  unfold settled, wellFormedIds, uniqueTags. apply (bool_decide_unpack _). by vm_compute.
Defined.

End SettledPass.

(* --------------------------------------------------------------------- *)
(** ** Endpoint synchronizer                                              *)
(* --------------------------------------------------------------------- *)

Section EndpointSynchronizer.

Implicit Types (r : Registry) (node : CanvasNode) (port : AnchoredPort)
  (st : EndpointState) (acc : list EndpointObject * gmap string nat)
  (current next : gmap string nat) (e : EndpointObject).

Local Abbreviation uuidOf n port := (getEndpointUuid n (Some (port_id (ap_port port)))).

Lemma effectivePorts_flowNodeOf node :
  effectivePorts (flowNodeOf node) = ap_port <$> declaredPorts node.
Proof.
  unfold effectivePorts, declaredPorts, flowNodeOf. simpl.
  by destruct (cn_ports node) as [[|p ps]|].
Qed.

Lemma endpointUuids_flowNodeOf (nodes : list CanvasNode) :
  endpointUuids (flowNodeOf <$> nodes)
  = node ← nodes; (λ port, uuidOf (cn_id node) port) <$> declaredPorts node.
Proof.
  unfold endpointUuids. induction nodes as [|node nodes IH]; [done|].
  rewrite fmap_cons, !bind_cons, IH. f_equal.
  rewrite effectivePorts_flowNodeOf. by rewrite <- list_fmap_compose.
Qed.

Lemma portElement_mounted r n p :
  is_Some (reg_nodeRefs r !! n) → is_Some (portElement r n p).
Proof.
  intros [el Hel]. unfold portElement. rewrite Hel. by destruct (reg_portRefs r !! n).
Qed.

(** *** The table the loop builds *)

Lemma syncPort_keys r current n acc port u :
  is_Some (reg_nodeRefs r !! n) →
  is_Some ((syncPort r current n acc port).2 !! u)
  ↔ is_Some (acc.2 !! u) ∨ u = uuidOf n port.
Proof.
  intros Hn. unfold syncPort.
  destruct (portElement_mounted r n (port_id (ap_port port)) Hn) as [el ->].
  destruct (current !! _) as [h|]; cbn [snd]; rewrite lookup_insert_is_Some';
    split; intros [H|H]; auto.
Qed.

Lemma syncPorts_keys r current n (ports : list AnchoredPort) acc u :
  is_Some (reg_nodeRefs r !! n) →
  is_Some ((fold_left (syncPort r current n) ports acc).2 !! u)
  ↔ is_Some (acc.2 !! u) ∨ u ∈ (λ port, uuidOf n port) <$> ports.
Proof.
  intros Hn. revert acc. induction ports as [|port ports IH]; intros acc; simpl.
  - rewrite elem_of_nil. tauto.
  - rewrite IH, syncPort_keys by done. rewrite elem_of_cons. tauto.
Qed.

Lemma syncNodes_keys r current (nodes : list CanvasNode) acc u :
  is_Some ((fold_left (syncNode r current) nodes acc).2 !! u)
  ↔ is_Some (acc.2 !! u) ∨ u ∈ endpointUuids (flowNodeOf <$> mountedNodes r nodes).
Proof.
  rewrite endpointUuids_flowNodeOf.
  revert acc. induction nodes as [|node nodes IH]; intros acc; simpl.
  - rewrite elem_of_nil. tauto.
  - rewrite IH. unfold syncNode, mountedNodes.
    destruct (reg_nodeRefs r !! cn_id node) as [el|] eqn:Hel.
    + rewrite filter_cons_True by (by rewrite Hel). simpl.
      rewrite syncPorts_keys by (by rewrite Hel). rewrite elem_of_app. tauto.
    + rewrite filter_cons_False; [done|]. rewrite Hel. by intros [? ?].
Qed.

(** X24: after a run the endpoint table has an entry for exactly the
    endpoint identities of the effective ports of the mounted nodes:
    the declared ports of a node with ports, the default port of a node
    without, and nothing for a node whose element is not registered. *)
Theorem synchronizer_tracks_the_ports_of_mounted_nodes r (nodes : list CanvasNode) st u :
  is_Some (es_endpointMap (synchronizeEndpoints r nodes st) !! u)
  ↔ u ∈ endpointUuids (flowNodeOf <$> mountedNodes r nodes).
Proof.
  unfold synchronizeEndpoints. cbn [es_endpointMap]. rewrite syncNodes_keys. simpl.
  rewrite lookup_empty. split; [|by right]. intros [[? ?]|?]; done.
Qed.

(** *** The store during the loop *)

Lemma syncPort_invariant r st n acc port :
  endpointsTracked st → SyncInvariant st acc →
  SyncInvariant st (syncPort r (es_endpointMap st) n acc port).
Proof.
  intros Htracked [Hgrow Hkeep Htrk Horig]. unfold syncPort.
  destruct (portElement r n _) as [el|]; [|done].
  destruct (es_endpointMap st !! uuidOf n port) as [h|] eqn:Hcur; cbn [fst snd].
  - (* the endpoint exists: it is configured and kept *)
    destruct (Htracked _ _ Hcur) as (e0 & He0 & Hu0 & Hd0).
    destruct (Hkeep h e0 He0) as (e & He & Hu & Hd & _).
    split; cbn [fst snd].
    + by rewrite length_alter.
    + intros h' e0' He0'. destruct (Hkeep h' e0' He0') as (e' & He' & Hu' & Hd' & Hel' & Hp' & Hsame).
      destruct (decide (h' = h)) as [->|Hne].
      * exists (configureEndpoint port e'). rewrite list_lookup_alter_eq, He'.
        split_and!; try done. intros Hnone. by destruct (Hnone _ Hcur).
      * exists e'. by rewrite list_lookup_alter_ne.
    + intros u h' Hu'. destruct (decide (u = uuidOf n port)) as [->|Hne].
      * rewrite lookup_insert_eq in Hu'. injection Hu' as <-.
        exists (configureEndpoint port e). rewrite list_lookup_alter_eq, He. simpl.
        split_and!; [done|by rewrite Hu, Hu0|by rewrite Hd, Hd0].
      * rewrite lookup_insert_ne in Hu' by done.
        destruct (Htrk u h' Hu') as (e' & He' & Hue' & Hde').
        destruct (decide (h' = h)) as [->|Hneh].
        -- exists (configureEndpoint port e'). by rewrite list_lookup_alter_eq, He'.
        -- exists e'. by rewrite list_lookup_alter_ne.
    + intros u h' Hu'. destruct (decide (u = uuidOf n port)) as [->|Hne].
      * rewrite lookup_insert_eq in Hu'. injection Hu' as <-. by left.
      * rewrite lookup_insert_ne in Hu' by done. by apply Horig.
  - (* no endpoint under this uuid: one is created *)
    split; cbn [fst snd].
    + rewrite length_app. simpl. lia.
    + intros h' e0' He0'. destruct (Hkeep h' e0' He0') as (e' & He' & Hrest).
      exists e'. split; [|done]. by apply lookup_app_l_Some.
    + intros u h' Hu'. destruct (decide (u = uuidOf n port)) as [->|Hne].
      * rewrite lookup_insert_eq in Hu'. injection Hu' as <-.
        exists (newEndpoint el (uuidOf n port) port). split; [|done].
        by rewrite list_lookup_middle.
      * rewrite lookup_insert_ne in Hu' by done.
        destruct (Htrk u h' Hu') as (e' & He' & Hrest). exists e'. split; [|done].
        by apply lookup_app_l_Some.
    + intros u h' Hu'. destruct (decide (u = uuidOf n port)) as [->|Hne].
      * rewrite lookup_insert_eq in Hu'. injection Hu' as <-. right. done.
      * rewrite lookup_insert_ne in Hu' by done. by apply Horig.
Qed.

Lemma syncNodes_invariant r st (nodes : list CanvasNode) acc :
  endpointsTracked st → SyncInvariant st acc →
  SyncInvariant st (fold_left (syncNode r (es_endpointMap st)) nodes acc).
Proof.
  intros Htracked. revert acc. induction nodes as [|node nodes IH]; intros acc Hinv; simpl; [done|].
  apply IH. unfold syncNode. destruct (reg_nodeRefs r !! cn_id node); [|done].
  generalize (declaredPorts node). intros ports. revert acc Hinv.
  induction ports as [|port ports IHp]; intros acc Hinv; simpl; [done|].
  apply IHp. by apply syncPort_invariant.
Qed.

Lemma syncStart_invariant st : SyncInvariant st (es_store st, ∅).
Proof.
  split; cbn [fst snd].
  - done.
  - intros h e0 He0. exists e0. done.
  - intros u h Hu. by rewrite lookup_empty in Hu.
  - intros u h Hu. by rewrite lookup_empty in Hu.
Qed.

(** *** The deletion of the stale endpoints *)

Lemma deleteStale_lookup next (store : list EndpointObject) current h :
  ∃ b : bool,
    map_fold (deleteStale next) store current !! h
    = (if b then markEndpointDeleted <$> store !! h else store !! h)
    ∧ (b = true ↔ ∃ key, current !! key = Some h ∧ next !! key = None).
Proof.
  revert h.
  apply (map_fold_weak_ind (λ (s : list EndpointObject) (m : gmap string nat),
    ∀ h, ∃ b : bool,
      s !! h = (if b then markEndpointDeleted <$> store !! h else store !! h)
      ∧ (b = true ↔ ∃ key, m !! key = Some h ∧ next !! key = None))).
  - intros h. exists false. split; [done|]. split; [done|].
    intros (key & Hkey & _). by rewrite lookup_empty in Hkey.
  - intros key x m s Hfresh IH h. destruct (IH h) as (b & Hb & Hiff).
    unfold deleteStale. case_bool_decide as Hnext.
    + exists b. split; [done|]. rewrite Hiff. split.
      * intros (k & Hk & Hn). exists k. split; [|done].
        rewrite lookup_insert_ne; [done|]. intros ->. by rewrite Hfresh in Hk.
      * intros (k & Hk & Hn). exists k. split; [|done].
        destruct (decide (key = k)) as [->|Hne].
        -- rewrite Hn in Hnext. by destruct Hnext.
        -- by rewrite lookup_insert_ne in Hk.
    + destruct (decide (x = h)) as [->|Hne].
      * exists true. split.
        -- rewrite list_lookup_alter_eq, Hb. destruct b; [|done]. by destruct (store !! h).
        -- split; [|done]. intros _. exists key. split; [apply lookup_insert_eq|].
           by apply eq_None_not_Some.
      * exists b. split; [by rewrite list_lookup_alter_ne|]. rewrite Hiff. split.
        -- intros (k & Hk & Hn). exists k. split; [|done].
           rewrite lookup_insert_ne; [done|]. intros ->. by rewrite Hfresh in Hk.
        -- intros (k & Hk & Hn). exists k. split; [|done].
           destruct (decide (key = k)) as [->|Hne'].
           ++ rewrite lookup_insert_eq in Hk. by injection Hk.
           ++ by rewrite lookup_insert_ne in Hk.
Qed.

Lemma deleteStale_length next (store : list EndpointObject) current :
  length (map_fold (deleteStale next) store current) = length store.
Proof.
  apply (map_fold_weak_ind (λ (s : list EndpointObject) (m : gmap string nat),
           length s = length store)); [done|].
  intros key x m s _ IH. unfold deleteStale. case_bool_decide; [done|]. by rewrite length_alter.
Qed.

(** *** One run *)

Lemma synchronizeEndpoints_run r (nodes : list CanvasNode) st :
  endpointsTracked st →
  let st' := synchronizeEndpoints r nodes st in
  endpointsTracked st'
  ∧ (∀ u h, es_endpointMap st !! u = Some h →
       (is_Some (es_endpointMap st' !! u) →
        es_endpointMap st' !! u = Some h)
       ∧ (es_endpointMap st' !! u = None →
          ∃ e, es_store st' !! h = Some e ∧ eo_deleted e = true))
  ∧ (∀ h e0, es_store st !! h = Some e0 →
       ∃ e, es_store st' !! h = Some e
            ∧ eo_uuid e = eo_uuid e0 ∧ eo_element e = eo_element e0 ∧ eo_portId e = eo_portId e0
            ∧ (eo_deleted e0 = true → eo_deleted e = true)
            ∧ ((∀ k, es_endpointMap st !! k ≠ Some h) → e = e0)).
Proof.
  intros Htracked st'.
  pose proof (syncNodes_invariant r st nodes (es_store st, ∅) Htracked (syncStart_invariant st))
    as [Hgrow Hkeep Htrk Horig].
  set (loop := fold_left (syncNode r (es_endpointMap st)) nodes (es_store st, ∅)) in *.
  assert (∀ u h key, loop.2 !! u = Some h → es_endpointMap st !! key = Some h → key = u) as Hsame.
  { intros u h key Hu Hkey.
    destruct (Htrk u h Hu) as (e & He & Hue & _).
    destruct (Htracked key h Hkey) as (e0 & He0 & Hu0 & _).
    destruct (Hkeep h e0 He0) as (e' & He' & Hu' & _).
    rewrite He in He'. injection He' as <-. by rewrite <- Hu0, <- Hu', Hue. }
  split_and!.
  - intros u h Hu. unfold st', synchronizeEndpoints in Hu. cbn [es_endpointMap] in Hu. fold loop in Hu.
    destruct (Htrk u h Hu) as (e & He & Hue & Hde).
    exists e. split; [|done]. unfold st', synchronizeEndpoints. cbn [es_store]. fold loop.
    destruct (deleteStale_lookup loop.2 loop.1 (es_endpointMap st) h) as (b & -> & Hb).
    destruct b; [|done]. destruct Hb as [Hb _]. destruct (Hb eq_refl) as (key & Hkey & Hnone).
    rewrite (Hsame u h key Hu Hkey) in Hnone. by rewrite Hu in Hnone.
  - intros u h Hu. unfold st', synchronizeEndpoints. cbn [es_endpointMap es_store]. fold loop.
    split.
    + intros [h' Hh']. destruct (Horig u h' Hh') as [Hcur|[Hcur _]].
      * rewrite Hu in Hcur. injection Hcur as <-. done.
      * by rewrite Hu in Hcur.
    + intros Hnone. destruct (Htracked u h Hu) as (e0 & He0 & _).
      destruct (Hkeep h e0 He0) as (e & He & _).
      destruct (deleteStale_lookup loop.2 loop.1 (es_endpointMap st) h) as (b & Hb & Hiff).
      assert (b = true) as -> by (apply Hiff; eauto).
      rewrite He in Hb. simpl in Hb. eauto.
  - intros h e0 He0. destruct (Hkeep h e0 He0) as (e & He & Hu & Hd & Hel & Hp & Hsame').
    unfold st', synchronizeEndpoints. cbn [es_store]. fold loop.
    destruct (deleteStale_lookup loop.2 loop.1 (es_endpointMap st) h) as (b & -> & Hiff).
    rewrite He. destruct b; simpl.
    + eexists. split; [done|]. split_and!; try done.
      intros Hnone. destruct Hiff as [Hiff _]. destruct (Hiff eq_refl) as (key & Hkey & _).
      by destruct (Hnone key).
    + exists e. split; [done|]. split_and!; try done. intros Hdel. by rewrite Hd.
Qed.

Lemma synchronizeEndpoints_runs (renders : list (Registry * list CanvasNode)) st :
  endpointsTracked st →
  endpointsTracked (fold_left (λ st render, synchronizeEndpoints render.1 render.2 st) renders st).
Proof.
  revert st. induction renders as [|[r nodes] renders IH]; intros st Htracked; simpl; [done|].
  apply IH. by apply synchronizeEndpoints_run.
Qed.

(** X25: whatever the renders, every entry of the endpoint table leads
    to a live endpoint object that carries the uuid it is filed under;
    so no endpoint object is filed under two uuids. *)
Theorem tracked_endpoints_are_live_under_their_uuid
    (renders : list (Registry * list CanvasNode)) :
  let st := fold_left (λ st render, synchronizeEndpoints render.1 render.2 st)
              renders initialEndpointState in
  endpointsTracked st
  ∧ ∀ u u' h, es_endpointMap st !! u = Some h → es_endpointMap st !! u' = Some h → u = u'.
Proof.
  intros st.
  assert (endpointsTracked st) as Htracked.
  { apply synchronizeEndpoints_runs. intros u h Hu. simpl in Hu. by rewrite lookup_empty in Hu. }
  split; [done|]. intros u u' h Hu Hu'.
  destruct (Htracked u h Hu) as (e & He & Hue & _).
  destruct (Htracked u' h Hu') as (e' & He' & Hue' & _).
  rewrite He in He'. injection He' as <-. by rewrite <- Hue, <- Hue'.
Qed.

(** X26: a run keeps the endpoint object of every port that is still
    declared on a mounted node, and deletes the endpoint object of every
    other tracked port. An endpoint that is kept is the same object,
    on the same element, not deleted; an endpoint object that the table
    does not track is left as it is. *)
Theorem synchronizer_keeps_declared_and_deletes_stale_endpoints
    r (nodes : list CanvasNode) st u h :
  endpointsTracked st →
  es_endpointMap st !! u = Some h →
  let st' := synchronizeEndpoints r nodes st in
  (u ∈ endpointUuids (flowNodeOf <$> mountedNodes r nodes) →
   es_endpointMap st' !! u = Some h
   ∧ ∃ e0 e, es_store st !! h = Some e0 ∧ es_store st' !! h = Some e
             ∧ eo_deleted e = false ∧ eo_element e = eo_element e0 ∧ eo_portId e = eo_portId e0)
  ∧ (u ∉ endpointUuids (flowNodeOf <$> mountedNodes r nodes) →
     es_endpointMap st' !! u = None
     ∧ ∃ e, es_store st' !! h = Some e ∧ eo_deleted e = true)
  ∧ (∀ h' e', es_store st !! h' = Some e' → (∀ k, es_endpointMap st !! k ≠ Some h') →
              es_store st' !! h' = Some e').
Proof.
  intros Htracked Hu st'.
  destruct (synchronizeEndpoints_run r nodes st Htracked) as (Htracked' & Hmap & Hstore).
  fold st' in Htracked', Hmap, Hstore.
  destruct (Hmap u h Hu) as [Hkept Hgone].
  pose proof (syncNodes_keys r (es_endpointMap st) nodes (es_store st, ∅) u) as Hkeys.
  assert (is_Some (es_endpointMap st' !! u)
          ↔ u ∈ endpointUuids (flowNodeOf <$> mountedNodes r nodes)) as Hdom.
  { unfold st', synchronizeEndpoints. cbn [es_endpointMap]. rewrite Hkeys. simpl.
    rewrite lookup_empty. split; [|by right]. intros [[? ?]|?]; done. }
  split_and!.
  - intros Hin. apply Hdom in Hin. specialize (Hkept Hin). split; [done|].
    destruct (Htracked u h Hu) as (e0 & He0 & _).
    destruct (Htracked' u h Hkept) as (e & He & _ & Hde).
    destruct (Hstore h e0 He0) as (e' & He' & _ & Hel & Hp & _).
    rewrite He in He'. injection He' as <-. exists e0, e. done.
  - intros Hnin. assert (es_endpointMap st' !! u = None) as Hnone.
    { apply eq_None_not_Some. by rewrite Hdom. }
    split; [done|]. by apply Hgone.
  - intros h' e' He' Hnone. destruct (Hstore h' e' He') as (e & He & _ & _ & _ & _ & Hsame).
    by rewrite He, (Hsame Hnone).
Qed.

Lemma synchronizer_keeps_declared_and_deletes_stale_endpoints_witness :
  let r := registerNodeRef "b" (Some 2) (registerNodeRef "a" (Some 1) emptyRegistry) in
  let port id := {| ap_port := {| port_id := id; port_mode := None |}; ap_anchor := None |} in
  let before := [ {| cn_id := "a"; cn_ports := Some [port "in"; port "out"] |};
                  {| cn_id := "b"; cn_ports := None |} ] in
  let after := [ {| cn_id := "a"; cn_ports := Some [port "out"] |};
                 {| cn_id := "b"; cn_ports := None |} ] in
  let st := synchronizeEndpoints r before initialEndpointState in
  let st' := synchronizeEndpoints r after st in
  es_endpointMap st' !! "a:out" = Some 1
  ∧ es_endpointMap st' !! "a:in" = None
  ∧ ∃ e, es_store st' !! 0 = Some e ∧ eo_deleted e = true.
Proof.
  intros r port before after st st'.
  assert (endpointsTracked st) as Htracked.
  { apply (synchronizeEndpoints_runs [(r, before)] initialEndpointState).
    intros u h Hu. simpl in Hu. by rewrite lookup_empty in Hu. }
  destruct (synchronizer_keeps_declared_and_deletes_stale_endpoints r after st "a:out" 1
              Htracked eq_refl) as ([Hkept _] & _ & _).
  { apply (bool_decide_unpack _). by vm_compute. }
  destruct (synchronizer_keeps_declared_and_deletes_stale_endpoints r after st "a:in" 0
              Htracked eq_refl) as (_ & Hgone & _).
  destruct Hgone as [Hnone Hdel].
  { apply (bool_decide_unpack _). by vm_compute. }
  done.
Defined.

End EndpointSynchronizer.

(* --------------------------------------------------------------------- *)
(** ** Endpoint synchronizer: configuration, creation, stability          *)
(* --------------------------------------------------------------------- *)

Section SynchronizerRuns.

Implicit Types (r : Registry) (node : CanvasNode) (port : AnchoredPort)
  (st : EndpointState) (acc : list EndpointObject * gmap string nat)
  (current next : gmap string nat) (e : EndpointObject) (np : string * AnchoredPort).

Local Abbreviation uuidOf np := (getEndpointUuid np.1 (Some (port_id (ap_port np.2)))).
Local Abbreviation syncStep r current := (λ acc np, syncPort r current np.1 acc np.2).

(** The two nested loops visit the ports of [declaredEndpoints] in order. *)
Lemma syncNodes_flat r current (nodes : list CanvasNode) acc :
  fold_left (syncNode r current) nodes acc
  = fold_left (syncStep r current) (declaredEndpoints r nodes) acc.
Proof.
  unfold declaredEndpoints, mountedNodes.
  revert acc. induction nodes as [|node nodes IH]; intros acc; [done|].
  simpl. rewrite IH. unfold syncNode.
  destruct (reg_nodeRefs r !! cn_id node) as [el|] eqn:Hel.
  - rewrite filter_cons_True by (by rewrite Hel). rewrite bind_cons, fold_left_app. f_equal.
    generalize (declaredPorts node). intros ports. revert acc.
    induction ports as [|port ports IHp]; intros acc; [done|]. simpl. by rewrite IHp.
  - rewrite filter_cons_False; [done|]. rewrite Hel. by intros [? ?].
Qed.

Lemma declaredEndpoints_uuids r (nodes : list CanvasNode) :
  (λ np, uuidOf np) <$> declaredEndpoints r nodes
  = endpointUuids (flowNodeOf <$> mountedNodes r nodes).
Proof.
  rewrite endpointUuids_flowNodeOf. unfold declaredEndpoints.
  induction (mountedNodes r nodes) as [|node l IH]; [done|].
  rewrite !bind_cons, fmap_app, IH. f_equal. by rewrite <- list_fmap_compose.
Qed.

Lemma declaredEndpoints_mounted r (nodes : list CanvasNode) np :
  np ∈ declaredEndpoints r nodes → is_Some (reg_nodeRefs r !! np.1).
Proof.
  unfold declaredEndpoints. intros Hin. apply list_elem_of_bind in Hin as (node & Hnp & Hnode).
  apply list_elem_of_fmap in Hnp as (port & -> & _). simpl.
  unfold mountedNodes in Hnode. by apply list_elem_of_filter in Hnode as [? _].
Qed.

(** *** Creation *)

Lemma syncPort_length r current acc np :
  is_Some (reg_nodeRefs r !! np.1) →
  length (syncStep r current acc np).1
  = length acc.1 + (match current !! uuidOf np with Some _ => 0 | None => 1 end).
Proof.
  intros Hn. unfold syncPort.
  destruct (portElement_mounted r np.1 (port_id (ap_port np.2)) Hn) as [el ->].
  destruct (current !! _); cbn [fst].
  - rewrite length_alter. lia.
  - rewrite length_app. simpl. lia.
Qed.

Lemma syncSteps_length r current (l : list (string * AnchoredPort)) acc :
  Forall (λ np, is_Some (reg_nodeRefs r !! np.1)) l →
  length (fold_left (syncStep r current) l acc).1
  = length acc.1 + length (filter (λ u, current !! u = None) ((λ np, uuidOf np) <$> l)).
Proof.
  intros Hall. revert acc. induction Hall as [|np l Hnp _ IH]; intros acc.
  { simpl. lia. }
  rewrite fmap_cons. simpl.
  rewrite IH, (syncPort_length r current acc np Hnp).
  destruct (current !! uuidOf np) as [h|] eqn:Hcur.
  - rewrite filter_cons_False by (by rewrite Hcur). lia.
  - rewrite filter_cons_True by done. simpl. lia.
Qed.

Lemma syncSteps_new_tracked r current (l : list (string * AnchoredPort)) acc (base : nat) :
  NoDup ((λ np, uuidOf np) <$> l) →
  (∀ u, is_Some (acc.2 !! u) → u ∉ (λ np, uuidOf np) <$> l) →
  (∀ h : nat, (base ≤ h)%nat → (h < length acc.1)%nat → ∃ u, acc.2 !! u = Some h) →
  ∀ h : nat, (base ≤ h)%nat → (h < length (fold_left (syncStep r current) l acc).1)%nat →
       ∃ u, (fold_left (syncStep r current) l acc).2 !! u = Some h.
Proof.
  revert acc. induction l as [|np l IH]; intros acc Hnd Hdom Hnew; simpl; [done|].
  rewrite fmap_cons in Hnd. apply NoDup_cons in Hnd as [Hfresh Hnd].
  assert (acc.2 !! uuidOf np = None) as Hnone.
  { apply eq_None_not_Some. intros Hsome. apply (Hdom _ Hsome). rewrite fmap_cons. by left. }
  apply IH; [done| |].
  - intros u Hu Hin. unfold syncPort in Hu.
    destruct (portElement r np.1 _) as [el|].
    + assert (is_Some (acc.2 !! u) ∨ u = uuidOf np) as [Hold| ->].
      { destruct (current !! uuidOf np); cbn [snd] in Hu;
          apply lookup_insert_is_Some' in Hu as [Hu|Hu]; auto. }
      * apply (Hdom u Hold). rewrite fmap_cons. by right.
      * done.
    + apply (Hdom u Hu). rewrite fmap_cons. by right.
  - intros h Hbase Hlt. unfold syncPort in *.
    destruct (portElement r np.1 _) as [el|]; [|by apply Hnew].
    destruct (current !! uuidOf np) as [h'|]; cbn [fst snd] in *.
    + rewrite length_alter in Hlt. destruct (Hnew h Hbase Hlt) as [u Hu].
      exists u. rewrite lookup_insert_ne; [done|]. intros <-. by rewrite Hnone in Hu.
    + rewrite length_app in Hlt. simpl in Hlt.
      destruct (decide (h = length acc.1)) as [->|Hne].
      * exists (uuidOf np). by rewrite lookup_insert_eq.
      * destruct (Hnew h Hbase) as [u Hu]; [lia|].
        exists u. rewrite lookup_insert_ne; [done|]. intros <-. by rewrite Hnone in Hu.
Qed.

(** X27: a run creates one endpoint for every visited port whose uuid
    is not in the table, and deletes from the store nothing: the store
    grows by the number of such ports, counted with repetition, so a
    uuid that occurs twice among them gets two endpoints, of which the
    table holds one. When the visited uuids are distinct, every endpoint
    created is in the table. *)
Theorem synchronizer_creates_one_endpoint_per_unknown_port r (nodes : list CanvasNode) st :
  let st' := synchronizeEndpoints r nodes st in
  let uuids := endpointUuids (flowNodeOf <$> mountedNodes r nodes) in
  length (es_store st')
  = length (es_store st) + length (filter (λ u, es_endpointMap st !! u = None) uuids)
  ∧ (NoDup uuids →
     ∀ h : nat, (length (es_store st) ≤ h)%nat → (h < length (es_store st'))%nat →
          ∃ u, es_endpointMap st' !! u = Some h).
Proof.
  intros st' uuids. unfold st', synchronizeEndpoints. cbn [es_store es_endpointMap].
  rewrite deleteStale_length, syncNodes_flat. unfold uuids. rewrite <- declaredEndpoints_uuids.
  split.
  - rewrite syncSteps_length; [done|]. apply Forall_forall. apply declaredEndpoints_mounted.
  - intros Hnd h Hbase Hlt.
    apply (syncSteps_new_tracked r (es_endpointMap st) (declaredEndpoints r nodes)
             (es_store st, ∅) (length (es_store st))); try done.
    + intros u Hu. simpl in Hu. rewrite lookup_empty in Hu. by destruct Hu.
    + intros h' Hb Hl. simpl in Hl. lia.
Qed.

Lemma synchronizer_creates_one_endpoint_per_unknown_port_witness :
  let r := registerNodeRef "a" (Some 1) emptyRegistry in
  let port id := {| ap_port := {| port_id := id; port_mode := None |}; ap_anchor := None |} in
  let nodes := [ {| cn_id := "a"; cn_ports := Some [port "in"; port "out"] |} ] in
  let st' := synchronizeEndpoints r nodes initialEndpointState in
  ∃ u, es_endpointMap st' !! u = Some 1.
Proof.
  intros r port nodes st'.
  destruct (synchronizer_creates_one_endpoint_per_unknown_port r nodes initialEndpointState)
    as [Hlen Htracked].
  apply Htracked.
  - apply (bool_decide_unpack _). by vm_compute.
  - simpl. lia.
  - rewrite Hlen. by vm_compute.
Defined.

(** *** Configuration *)

Lemma configureEndpoint_id port e : configuredAs port e → configureEndpoint port e = e.
Proof. intros (Ha & Hs & Ht). destruct e; simpl in *. by subst. Qed.

Lemma syncSteps_invariant r st (l : list (string * AnchoredPort)) acc :
  endpointsTracked st → SyncInvariant st acc →
  SyncInvariant st (fold_left (syncStep r (es_endpointMap st)) l acc).
Proof.
  intros Htracked. revert acc. induction l as [|np l IH]; intros acc Hinv; simpl; [done|].
  apply IH. by apply syncPort_invariant.
Qed.

Lemma syncSteps_configured r st (l done_ : list (string * AnchoredPort)) acc :
  endpointsTracked st → SyncInvariant st acc →
  NoDup ((λ np, uuidOf np) <$> (done_ ++ l)%list) →
  Forall (λ np, is_Some (reg_nodeRefs r !! np.1)) l →
  (∀ np, np ∈ done_ →
     ∃ h e, acc.2 !! uuidOf np = Some h ∧ acc.1 !! h = Some e ∧ configuredAs np.2 e) →
  ∀ np, np ∈ (done_ ++ l)%list →
    ∃ h e, (fold_left (syncStep r (es_endpointMap st)) l acc).2 !! uuidOf np = Some h
           ∧ (fold_left (syncStep r (es_endpointMap st)) l acc).1 !! h = Some e
           ∧ configuredAs np.2 e.
Proof.
  intros Htracked. revert done_ acc.
  induction l as [|np' l IH]; intros done_ acc Hinv Hnd Hmounted Hdone; simpl.
  - intros np Hin. rewrite app_nil_r in Hin. by apply Hdone.
  - apply Forall_cons in Hmounted as [Hn Hmounted].
    intros np Hin. apply (IH (done_ ++ [np'])%list).
    + by apply syncPort_invariant.
    + by rewrite <- app_assoc.
    + done.
    + clear np Hin. intros np Hin.
      rewrite fmap_app, fmap_cons in Hnd. apply NoDup_app in Hnd as (_ & Hdisj & Hnd').
      destruct Hinv as [Hgrow Hkeep Htrk Horig].
      unfold syncPort.
      destruct (portElement_mounted r np'.1 (port_id (ap_port np'.2)) Hn) as [el ->].
      apply elem_of_app in Hin as [Hin|Hin].
      * (* a port visited before *)
        destruct (Hdone np Hin) as (h & e & Hh & He & Hcfg).
        assert (uuidOf np ≠ uuidOf np') as Hne.
        { intros Heq. apply (Hdisj (uuidOf np)); [apply list_elem_of_fmap; by exists np|].
          rewrite Heq. by left. }
        destruct (es_endpointMap st !! uuidOf np') as [h'|] eqn:Hcur; cbn [fst snd].
        -- exists h, e. rewrite lookup_insert_ne by done. split; [done|]. split; [|done].
           rewrite list_lookup_alter_ne; [done|]. intros ->.
           destruct (Htracked _ _ Hcur) as (e0 & He0 & Hu0 & _).
           destruct (Horig _ _ Hh) as [Hcur'|[_ Hge]].
           ++ destruct (Htracked _ _ Hcur') as (e1 & He1 & Hu1 & _).
              rewrite He0 in He1. injection He1 as <-. by rewrite <- Hu0, Hu1 in Hne.
           ++ apply lookup_lt_Some in He0. lia.
        -- exists h, e. rewrite lookup_insert_ne by done. split; [done|]. split; [|done].
           by apply lookup_app_l_Some.
      * (* the port of this step *)
        apply list_elem_of_singleton in Hin as ->.
        destruct (es_endpointMap st !! uuidOf np') as [h'|] eqn:Hcur; cbn [fst snd].
        -- destruct (Htracked _ _ Hcur) as (e0 & He0 & _).
           destruct (Hkeep h' e0 He0) as (e & He & _).
           exists h', (configureEndpoint np'.2 e). rewrite lookup_insert_eq.
           split; [done|]. split; [by rewrite list_lookup_alter_eq, He|]. done.
        -- exists (length acc.1), (newEndpoint el (uuidOf np') np'.2). rewrite lookup_insert_eq.
           split; [done|]. split; [by rewrite list_lookup_middle|]. done.
    + apply elem_of_app. apply elem_of_app in Hin as [Hin|Hin]; [left; apply elem_of_app; by left|].
      apply elem_of_cons in Hin as [->|Hin]; [left; apply elem_of_app; right; by left|by right].
Qed.

Lemma synchronizeEndpoints_configured r (nodes : list CanvasNode) st np :
  endpointsTracked st →
  NoDup (endpointUuids (flowNodeOf <$> mountedNodes r nodes)) →
  np ∈ declaredEndpoints r nodes →
  let st' := synchronizeEndpoints r nodes st in
  ∃ h e, es_endpointMap st' !! uuidOf np = Some h ∧ es_store st' !! h = Some e
         ∧ configuredAs np.2 e ∧ eo_deleted e = false ∧ eo_uuid e = uuidOf np.
Proof.
  intros Htracked Hnd Hin st'.
  destruct (synchronizeEndpoints_run r nodes st Htracked) as (Htracked' & _ & _).
  fold st' in Htracked'.
  rewrite <- declaredEndpoints_uuids in Hnd.
  destruct (syncSteps_configured r st (declaredEndpoints r nodes) [] (es_store st, ∅)
              Htracked (syncStart_invariant st)) with (np := np) as (h & e & Hh & He & Hcfg);
    try done.
  { apply Forall_forall. apply declaredEndpoints_mounted. }
  { intros np' Hnp'. by apply elem_of_nil in Hnp'. }
  rewrite <- syncNodes_flat in Hh, He.
  assert (es_endpointMap st' !! uuidOf np = Some h) as Hh' by done.
  destruct (Htracked' _ _ Hh') as (e' & He' & Hu' & Hd').
  exists h, e'. split_and!; try done.
  unfold st', synchronizeEndpoints in He'. cbn [es_store] in He'.
  destruct (deleteStale_lookup
              (fold_left (syncNode r (es_endpointMap st)) nodes (es_store st, ∅)).2
              (fold_left (syncNode r (es_endpointMap st)) nodes (es_store st, ∅)).1
              (es_endpointMap st) h) as (b & Hb & _).
  rewrite Hb, He in He'. destruct b; simpl in He'; injection He' as <-; [done|].
  done.
Qed.

(** X28: when the visited ports have distinct uuids, every port of a
    mounted node has, after a run, a live endpoint in the table under
    its uuid, with the anchor and the source and target flags of its
    declaration, whether the endpoint was created or kept. *)
Theorem every_declared_port_has_a_configured_endpoint r (nodes : list CanvasNode) st n port :
  endpointsTracked st →
  NoDup (endpointUuids (flowNodeOf <$> mountedNodes r nodes)) →
  (n, port) ∈ declaredEndpoints r nodes →
  let st' := synchronizeEndpoints r nodes st in
  ∃ h e, es_endpointMap st' !! getEndpointUuid n (Some (port_id (ap_port port))) = Some h
         ∧ es_store st' !! h = Some e
         ∧ eo_deleted e = false
         ∧ eo_anchor e = default "AutoDefault" (ap_anchor port)
         ∧ eo_isSource e = negb (bool_decide (port_mode (ap_port port) = Some ModeTarget))
         ∧ eo_isTarget e = negb (bool_decide (port_mode (ap_port port) = Some ModeSource)).
Proof.
  intros Htracked Hnd Hin st'.
  destruct (synchronizeEndpoints_configured r nodes st (n, port) Htracked Hnd Hin)
    as (h & e & Hh & He & (Ha & Hs & Ht) & Hd & _).
  exists h, e. done.
Qed.

Lemma every_declared_port_has_a_configured_endpoint_witness :
  let r := registerNodeRef "a" (Some 1) emptyRegistry in
  let port id mode := {| ap_port := {| port_id := id; port_mode := mode |}; ap_anchor := None |} in
  let before := [ {| cn_id := "a"; cn_ports := Some [port "in" None; port "out" None] |} ] in
  let after := [ {| cn_id := "a"; cn_ports := Some [port "in" (Some ModeTarget)] |} ] in
  let st := synchronizeEndpoints r before initialEndpointState in
  let st' := synchronizeEndpoints r after st in
  ∃ h e, es_endpointMap st' !! "a:in" = Some h ∧ es_store st' !! h = Some e
         ∧ eo_isSource e = false ∧ eo_isTarget e = true.
Proof.
  intros r port before after st st'.
  assert (endpointsTracked st) as Htracked.
  { apply (synchronizeEndpoints_runs [(r, before)] initialEndpointState).
    intros u h Hu. simpl in Hu. by rewrite lookup_empty in Hu. }
  destruct (every_declared_port_has_a_configured_endpoint r after st "a" (port "in" (Some ModeTarget))
              Htracked) as (h & e & Hh & He & _ & _ & Hs & Ht).
  - apply (bool_decide_unpack _). by vm_compute.
  - apply list_elem_of_singleton. reflexivity.
  - exists h, e. split; [exact Hh|]. split; [exact He|]. split; [exact Hs|exact Ht].
Defined.

(** *** A second run *)

Lemma EndpointState_eq (s1 s2 : EndpointState) :
  es_store s1 = es_store s2 → es_endpointMap s1 = es_endpointMap s2 → s1 = s2.
Proof. destruct s1, s2; simpl; intros; by subst. Qed.

Lemma syncSteps_settled r st (l : list (string * AnchoredPort)) acc :
  (∀ np, np ∈ l →
     ∃ h e, es_endpointMap st !! uuidOf np = Some h ∧ es_store st !! h = Some e
            ∧ configuredAs np.2 e) →
  Forall (λ np, is_Some (reg_nodeRefs r !! np.1)) l →
  acc.1 = es_store st →
  (∀ u h, acc.2 !! u = Some h → es_endpointMap st !! u = Some h) →
  (fold_left (syncStep r (es_endpointMap st)) l acc).1 = es_store st
  ∧ ∀ u h, (fold_left (syncStep r (es_endpointMap st)) l acc).2 !! u = Some h →
           es_endpointMap st !! u = Some h.
Proof.
  revert acc. induction l as [|np l IH]; intros acc Hcfg Hmounted Hstore Hsub; simpl; [done|].
  apply Forall_cons in Hmounted as [Hn Hmounted].
  destruct (Hcfg np) as (h & e & Hh & He & Hc); [by left|].
  apply IH; [intros np' Hnp'; apply Hcfg; by right|done|..].
  - unfold syncPort.
    destruct (portElement_mounted r np.1 (port_id (ap_port np.2)) Hn) as [el ->].
    rewrite Hh. cbn [fst]. rewrite Hstore. apply list_eq. intros h'.
    destruct (decide (h' = h)) as [->|Hne].
    + rewrite list_lookup_alter_eq, He. simpl. by rewrite configureEndpoint_id.
    + by rewrite list_lookup_alter_ne.
  - intros u h' Hu. unfold syncPort in Hu.
    destruct (portElement_mounted r np.1 (port_id (ap_port np.2)) Hn) as [el Hel].
    rewrite Hel, Hh in Hu. cbn [snd] in Hu.
    destruct (decide (u = uuidOf np)) as [->|Hne].
    + rewrite lookup_insert_eq in Hu. by injection Hu as <-.
    + rewrite lookup_insert_ne in Hu by done. by apply Hsub.
Qed.

Lemma deleteStale_none next (store : list EndpointObject) current :
  (∀ key, is_Some (current !! key) → is_Some (next !! key)) →
  map_fold (deleteStale next) store current = store.
Proof.
  intros Hsub. apply list_eq. intros h.
  destruct (deleteStale_lookup next store current h) as (b & -> & Hb).
  destruct b; [|done]. destruct Hb as [Hb _]. destruct (Hb eq_refl) as (key & Hkey & Hnone).
  destruct (Hsub key) as [x Hx]; [by rewrite Hkey|]. by rewrite Hx in Hnone.
Qed.

Lemma synchronizeEndpoints_settled r (nodes : list CanvasNode) st :
  endpointsTracked st →
  NoDup (endpointUuids (flowNodeOf <$> mountedNodes r nodes)) →
  synchronizeEndpoints r nodes (synchronizeEndpoints r nodes st)
  = synchronizeEndpoints r nodes st.
Proof.
  intros Htracked Hnd. set (st1 := synchronizeEndpoints r nodes st).
  assert (∀ u, is_Some (es_endpointMap st1 !! u)
               ↔ u ∈ endpointUuids (flowNodeOf <$> mountedNodes r nodes)) as Hdom1.
  { intros u. unfold st1, synchronizeEndpoints. cbn [es_endpointMap]. rewrite syncNodes_keys.
    simpl. rewrite lookup_empty. split; [|by right]. intros [[? ?]|?]; done. }
  destruct (syncSteps_settled r st1 (declaredEndpoints r nodes) (es_store st1, ∅))
    as [Hstore Hsub]; try done.
  { intros np Hnp.
    destruct (synchronizeEndpoints_configured r nodes st np Htracked Hnd Hnp)
      as (h & e & Hh & He & Hcfg & _). by exists h, e. }
  { apply Forall_forall. apply declaredEndpoints_mounted. }
  rewrite <- syncNodes_flat in Hstore, Hsub.
  set (loop := fold_left (syncNode r (es_endpointMap st1)) nodes (es_store st1, ∅)) in *.
  assert (loop.2 = es_endpointMap st1) as Hmap.
  { apply map_eq. intros u. destruct (loop.2 !! u) as [h|] eqn:Hu.
    - symmetry. by apply Hsub.
    - symmetry. apply eq_None_not_Some. rewrite Hdom1. intros Hin.
      assert (is_Some (loop.2 !! u)) as [x Hx].
      { unfold loop. rewrite syncNodes_keys. by right. }
      by rewrite Hx in Hu. }
  apply EndpointState_eq.
  - unfold synchronizeEndpoints at 1. cbn [es_store]. fold loop. rewrite Hstore.
    apply deleteStale_none. intros key Hkey. by rewrite Hmap.
  - unfold synchronizeEndpoints at 1. cbn [es_endpointMap]. by fold loop.
Qed.

(** X29: running the synchronizer again with the same nodes and the
    same registry changes nothing, neither in the table nor in any
    endpoint object, when the visited ports have distinct uuids: every
    port finds its endpoint, configured already, and nothing is stale. *)
Theorem synchronizing_twice_is_synchronizing_once r (nodes : list CanvasNode) st :
  endpointsTracked st →
  NoDup (endpointUuids (flowNodeOf <$> mountedNodes r nodes)) →
  synchronizeEndpoints r nodes (synchronizeEndpoints r nodes st)
  = synchronizeEndpoints r nodes st.
Proof. apply synchronizeEndpoints_settled. Qed.

Lemma synchronizing_twice_is_synchronizing_once_witness :
  let r := registerPortRef "a" "out" (Some 7) (registerNodeRef "a" (Some 1) emptyRegistry) in
  let port id := {| ap_port := {| port_id := id; port_mode := None |}; ap_anchor := Some "Right" |} in
  let nodes := [ {| cn_id := "a"; cn_ports := Some [port "in"; port "out"] |};
                 {| cn_id := "b"; cn_ports := None |} ] in
  synchronizeEndpoints r nodes (synchronizeEndpoints r nodes initialEndpointState)
  = synchronizeEndpoints r nodes initialEndpointState.
Proof.
  intros r port nodes.
  apply synchronizing_twice_is_synchronizing_once.
  - intros u h Hu. simpl in Hu. by rewrite lookup_empty in Hu.
  - apply (bool_decide_unpack _). by vm_compute.
Defined.

End SynchronizerRuns.

(* --------------------------------------------------------------------- *)
(** ** A pass settles the engine                                          *)
(* --------------------------------------------------------------------- *)

Section PassSettles.

Variable eng0 : Engine.
Variables (endpointMap : gmap string Endpoint) (selected : list string)
  (declared : list FlowConnection).

Hypothesis Hunique : uniqueTags eng0.
Hypothesis Hids : wellFormedIds declared.
Hypothesis Hregistered : endpointsRegistered endpointMap declared eng0.
Hypothesis Hpair : pairLookupMeetsUntagged endpointMap declared eng0.

Implicit Types (st : PassState) (data : FlowConnection) (c : EngineConnection).

Local Abbreviation conns st := (eng_connections (ps_engine st)).

Lemma declared_id_inj d d' : d ∈ declared → d' ∈ declared → fc_id d = fc_id d' → d = d'.
Proof.
  destruct Hids as [Hnd _]. intros Hd Hd' Heq.
  apply list_elem_of_lookup in Hd as [i Hi]. apply list_elem_of_lookup in Hd' as [j Hj].
  assert (i = j) as ->.
  { eapply NoDup_lookup; [exact Hnd|..].
    - by rewrite list_lookup_fmap, Hi.
    - by rewrite list_lookup_fmap, Hj, Heq. }
  rewrite Hi in Hj. by injection Hj.
Qed.

Lemma declared_id_nonempty d : d ∈ declared → fc_id d ≠ EmptyString.
Proof. destruct Hids as [_ Hne]. rewrite Forall_forall in Hne. apply Hne. Qed.

(** Every live connection after the step is the result of a claim for
    [data], or is as before and does not carry the identity of [data]. *)
Lemma claimsCarried_step (claimed : list FlowConnection) data eng eng' :
  claimsCarried selected claimed eng →
  data ∈ declared → (∀ d, d ∈ claimed → d ∈ declared) →
  (∀ h c', eng_connections eng' !! h = Some c' → conn_deleted c' = false →
           (∃ c, c' = touch selected data c)
           ∨ (eng_connections eng !! h = Some c' ∧ tagOf c' ≠ Some (fc_id data))) →
  claimsCarried selected (data :: claimed) eng'.
Proof.
  intros Hcarried Hdata Hclaimed Hshape d h c' Hd Hc' Hlive Htag.
  destruct (Hshape h c' Hc' Hlive) as [[c ->]|[Hc Hne]].
  - rewrite touch_tagOf in Htag by (by apply declared_id_nonempty).
    injection Htag as Heq.
    assert (d = data) as ->.
    { apply declared_id_inj; [|done..].
      apply elem_of_cons in Hd as [->|Hd]; [done|by apply Hclaimed]. }
    apply touch_again.
  - apply elem_of_cons in Hd as [->|Hd]; [done|]. by apply (Hcarried d h c').
Qed.

Lemma claim_shape (st1 : PassState) data u h c' :
  conns (claimConnection selected data u st1) !! h = Some c' →
  (∃ c, c' = touch selected data c) ∨ (h ≠ u ∧ conns st1 !! h = Some c').
Proof.
  destruct (claimConnection_engine selected data u st1) as [_ Hc]. rewrite Hc.
  case_decide as Hu.
  - destruct (conns st1 !! h) as [c|]; [|done]. simpl. intros [= <-]. left. eauto.
  - intros Hh. right. split; [by intros ->|done].
Qed.

Lemma reuseOrCreate_shape (st1 : PassState) data h c' :
  conns (reuseOrCreate selected data st1) !! h = Some c' →
  (∃ c, c' = touch selected data c) ∨ conns st1 !! h = Some c'.
Proof.
  unfold reuseOrCreate, lookupByPair.
  destruct (ps_byUuid st1 !! _) as [u|].
  - intros Hh. apply claim_shape in Hh as [?|[_ ?]]; auto.
  - unfold connectAndClaim.
    destruct (engineConnect _ _ _ _) as [eng' [hnew|]] eqn:Hconn.
    + intros Hh. apply claim_shape in Hh as [?|[Hne Hh]]; [by left|]. cbn [ps_engine] in Hh.
      apply engineConnect_Some in Hconn as (-> & _ & Heq). rewrite Heq in Hh.
      right. apply lookup_app_Some in Hh as [Hh|[Hge Hh]]; [done|].
      apply list_lookup_singleton_Some in Hh as [Hz _]. lia.
    + intros Hh. by right.
Qed.

Lemma reconcileOne_carried (claimed : list FlowConnection) swept st data :
  PassInvariant eng0 claimed swept st →
  claimsCarried selected claimed (ps_engine st) →
  data ∈ declared → (∀ d, d ∈ claimed → d ∈ declared) →
  resolvable endpointMap data = true →
  (∀ d, d ∈ claimed → fc_id d ≠ fc_id data) →
  claimsCarried selected (data :: claimed)
    (ps_engine (reconcileOne endpointMap selected st data)).
Proof.
  intros [Iep Iuu Iun Iex Itg Ius Isw Icl Iby Iix Iut] Hcarried Hdata Hclaimed Hres Hother.
  apply (claimsCarried_step claimed data (ps_engine st)); try done.
  assert (∀ h c, conns st !! h = Some c → conn_deleted c = false →
                 tagOf c = Some (fc_id data) → ps_existing st !! fc_id data = Some h) as Hindex.
  { intros h c Hc Hlive Htag. destruct (Itg h c _ Hc Hlive Htag) as [(d & Hd & Hid & _)|Hex];
      [|done]. by destruct (Hother d Hd). }
  unfold reconcileOne. rewrite Hres. simpl. unfold lookupByTag.
  destruct (ps_existing st !! fc_id data) as [x|] eqn:Hx.
  - destruct (Iex _ x Hx) as (cx & Hcx & Hlx & Htx). rewrite Hcx.
    destruct (isSameUuid cx (sourceUuidOf data) (targetUuidOf data)).
    + (* found by its tag *)
      intros h c' Hh Hlive. apply claim_shape in Hh as [?|[Hne Hh]]; [by left|].
      right. split; [done|]. intros Htag. apply Hne.
      specialize (Hindex h c' Hh Hlive Htag). by injection Hindex.
    + (* the tagged connection is deleted first *)
      intros h c' Hh Hlive. apply reuseOrCreate_shape in Hh as [?|Hh]; [by left|].
      cbn [ps_engine] in Hh. rewrite engineDelete_lookup in Hh. case_decide as Hxh.
      * subst h. rewrite Hcx in Hh. simpl in Hh. injection Hh as <-. done.
      * right. split; [done|]. intros Htag. apply Hxh.
        specialize (Hindex h c' Hh Hlive Htag). by injection Hindex.
  - intros h c' Hh Hlive. apply reuseOrCreate_shape in Hh as [?|Hh]; [by left|].
    right. split; [done|]. intros Htag. by specialize (Hindex h c' Hh Hlive Htag).
Qed.

Lemma loop_carried (rest processed claimed : list FlowConnection) swept st :
  (processed ++ rest)%list = declared →
  PassInvariant eng0 claimed swept st →
  (∀ d, d ∈ claimed ↔ d ∈ processed ∧ resolvable endpointMap d = true) →
  (∀ t, t ∈ swept ↔ ∃ d, d ∈ claimed ∧ fc_id d = t) →
  claimsCarried selected claimed (ps_engine st) →
  ∃ claimed' swept',
    PassInvariant eng0 claimed' swept' (fold_left (reconcileOne endpointMap selected) rest st)
    ∧ (∀ d, d ∈ claimed' ↔ d ∈ declared ∧ resolvable endpointMap d = true)
    ∧ (∀ t, t ∈ swept' ↔ ∃ d, d ∈ claimed' ∧ fc_id d = t)
    ∧ claimsCarried selected claimed'
        (ps_engine (fold_left (reconcileOne endpointMap selected) rest st)).
Proof.
  revert processed claimed swept st.
  induction rest as [|data rest IH]; intros processed claimed swept st Hsplit Hinv Hcl Hsw Hcarried;
    simpl.
  - rewrite app_nil_r in Hsplit. subst processed. exists claimed, swept. done.
  - assert (data ∈ declared) as Hin.
    { rewrite <- Hsplit. apply elem_of_app. right. left. }
    assert (∀ d, d ∈ processed → fc_id d ≠ fc_id data) as Hfresh.
    { destruct Hids as [Hnd _]. rewrite <- Hsplit, fmap_app, fmap_cons in Hnd.
      apply NoDup_app in Hnd as (_ & Hdisj & _).
      intros d Hd Heq. apply (Hdisj (fc_id d)).
      - by apply list_elem_of_fmap_2.
      - rewrite Heq. left. }
    assert (∀ d, d ∈ claimed → d ∈ declared) as Hdecl.
    { intros d Hd. apply Hcl in Hd as [Hd _]. rewrite <- Hsplit. apply elem_of_app. by left. }
    assert (((processed ++ [data]) ++ rest)%list = declared) as Hsplit'
      by (by rewrite <- app_assoc).
    destruct (resolvable endpointMap data) eqn:Hres.
    + destruct (reconcileOne_invariant eng0 endpointMap selected declared Hunique Hids
                  Hregistered Hpair claimed swept st data) as (swept' & Hinv' & Hsw');
        try done.
      * intros Hs. apply Hsw in Hs as (d & Hd & Heq). apply Hcl in Hd as [Hd _].
        by apply (Hfresh d).
      * intros d Hd. split; [by apply declared_id_nonempty, Hdecl|].
        apply Hcl in Hd as [Hd _]. by apply Hfresh.
      * apply (IH (processed ++ [data])%list (data :: claimed) swept'); try done.
        -- intros d. rewrite elem_of_cons, elem_of_app, list_elem_of_singleton, Hcl.
           split; [intros [->|[? ?]]; auto|intros [[?| ->] ?]; auto].
        -- intros t. rewrite Hsw', Hsw. split.
           ++ intros [->|(d & Hd & Heq)]; [exists data; split; [left|done]|].
              exists d. split; [by right|done].
           ++ intros (d & Hd & Heq). apply elem_of_cons in Hd as [->|Hd]; [by left|].
              right. eauto.
        -- apply (reconcileOne_carried claimed swept); try done.
           intros d Hd. apply Hcl in Hd as [Hd _]. by apply Hfresh.
    + rewrite reconcileOne_unresolvable by done.
      apply (IH (processed ++ [data])%list claimed swept); try done.
      intros d. rewrite Hcl, elem_of_app, list_elem_of_singleton. split.
      * intros [? ?]. auto.
      * intros [[?| ->] Hr]; [done|]. by rewrite Hres in Hr.
Qed.

Lemma NoDup_omap_intro {A B} (f : A → option B) (l : list A) :
  NoDup l → (∀ x y b, x ∈ l → y ∈ l → f x = Some b → f y = Some b → x = y) →
  NoDup (omap f l).
Proof.
  induction 1 as [|x l Hx Hnd IH]; intros Hinj; simpl; [constructor|].
  assert (NoDup (omap f l)) as Hrest.
  { apply IH. intros y z b Hy Hz. apply Hinj; by right. }
  destruct (f x) as [b|] eqn:Hfx; [|done].
  apply NoDup_cons. split; [|done]. intros Hb.
  apply list_elem_of_omap in Hb as (y & Hy & Hfy).
  assert (x = y) as -> by (apply (Hinj x y b); [by left|by right|done..]). done.
Qed.

Lemma flattenConnections_NoDup eng : NoDup (flattenConnections eng).
Proof.
  unfold flattenConnections. apply NoDup_filter. apply (NoDup_fmap_1 fst).
  rewrite fmap_imap.
  change (NoDup (imap (λ (j : nat) (_ : EngineConnection), id j) (eng_connections eng))).
  rewrite imap_seq_0. apply NoDup_fmap_2; [apply _|]. apply NoDup_seq.
Qed.

Lemma pass_settles (connectionMap : gmap string nat) :
  settled endpointMap selected declared
    (reconcileConnections endpointMap selected declared connectionMap eng0).1.
Proof.
  unfold reconcileConnections.
  destruct (loop_carried declared [] [] [] (startPass connectionMap eng0))
    as (claimed & swept & [Iep Iuu Iun Iex Itg Ius Isw Icl Iby Iix Iut] & Hcl & Hsw & Hcarried).
  { done. }
  { by apply startPass_invariant. }
  { intros d. split; [intros Hd|intros [Hd _]]; by apply elem_of_nil in Hd. }
  { intros t. split; [intros Ht; by apply elem_of_nil in Ht|].
    intros (d & Hd & _). by apply elem_of_nil in Hd. }
  { intros d h c Hd. by apply elem_of_nil in Hd. }
  set (st := fold_left (reconcileOne endpointMap selected) declared (startPass connectionMap eng0))
    in *.
  unfold settled. split_and!.
  - done.
  - unfold uniqueTags, liveTags. apply NoDup_omap_intro; [apply flattenConnections_NoDup|].
    intros [h1 c1] [h2 c2] t H1 H2 Ht1 Ht2. simpl in *.
    apply sweep_live in H1 as (Hc1 & Hl1 & _). apply sweep_live in H2 as (Hc2 & Hl2 & _).
    assert (h1 = h2) as -> by (by apply (Iun h1 h2 c1 c2 t)).
    rewrite Hc1 in Hc2. by injection Hc2 as ->.
  - apply Forall_forall. intros data Hin Hres.
    assert (data ∈ claimed) as Hd by (by apply Hcl).
    destruct (Icl data Hd) as (h & c & Hc & Hl & Hp & Hs & Hg).
    assert (tagOf c = Some (fc_id data)) as Htag.
    { apply tagOf_idParam; [done|]. by apply declared_id_nonempty. }
    apply Exists_exists. exists (h, c). split_and!.
    + apply sweep_live. split_and!; [done..|]. intros id Hid.
      destruct (Iex id h Hid) as (c' & Hc' & _ & Ht').
      rewrite Hc in Hc'. injection Hc' as <-. rewrite Htag in Ht'. injection Ht' as <-.
      rewrite Isw in Hid; [done|]. apply Hsw. eauto.
    + done.
    + by apply isSameUuid_true.
    + by apply (Hcarried data h c).
  - apply Forall_forall. intros t Ht. unfold liveTags in Ht.
    apply list_elem_of_omap in Ht as ([h c] & Hin & Htag). simpl in Htag.
    apply sweep_live in Hin as (Hc & Hl & Hnone).
    destruct (Itg h c t Hc Hl Htag) as [(data & Hd & Hid & _)|Hex]; [|by destruct (Hnone t)].
    apply Exists_exists. exists data. apply Hcl in Hd as [Hd Hres]. done.
Qed.

End PassSettles.

Section ReconcilingTwice.

(** X30: under the conditions of convergence, a pass settles the engine,
    and a second pass with the same declared connections, endpoint table
    and selection creates nothing, deletes nothing and retags nothing:
    the engine after two passes has the endpoints of the engine after
    one and, handle by handle, its connection objects, equal in every
    field but the class list, whose class names are the same; a
    connection that is deleted or carries no tag is left as it is; and
    the engine after two passes is settled as well. The class lists
    themselves are not kept: every claim pushes the declared class and
    [jr-connection] once more. *)
Theorem second_pass_repeats_class_names_only
    (endpointMap : gmap string Endpoint) (selected : list string)
    (declared : list FlowConnection) (connectionMap connectionMap' : gmap string nat)
    (eng0 : Engine) :
  wellFormedIds declared →
  uniqueTags eng0 →
  endpointsRegistered endpointMap declared eng0 →
  pairLookupMeetsUntagged endpointMap declared eng0 →
  let eng1 := (reconcileConnections endpointMap selected declared connectionMap eng0).1 in
  let eng2 := (reconcileConnections endpointMap selected declared connectionMap' eng1).1 in
  settled endpointMap selected declared eng1
  ∧ sameButClassLists eng1 eng2
  ∧ (∀ h c, eng_connections eng1 !! h = Some c → conn_deleted c = true ∨ tagOf c = None →
            eng_connections eng2 !! h = Some c)
  ∧ settled endpointMap selected declared eng2.
Proof.
  intros Hids Hunique Hreg Hpair eng1 eng2.
  assert (settled endpointMap selected declared eng1) as Hsettled.
  { by apply pass_settles. }
  destruct (settled_pass endpointMap selected declared eng1 Hsettled connectionMap')
    as [Hsame Hkeep].
  split_and!; [done..|].
  by apply (settled_sameButClassLists endpointMap selected declared eng1).
Qed.

Lemma second_pass_repeats_class_names_only_witness :
  let endpoint := {| ep_portId := None; ep_element := None |} in
  let endpoints : gmap string Endpoint :=
    {[ "A:out" := endpoint; "B:in" := endpoint; "C:default" := endpoint ]} in
  let tagged t c :=
    {| conn_sourceUuid := conn_sourceUuid c; conn_targetUuid := conn_targetUuid c;
       conn_deleted := false; conn_idParam := Some t; conn_classParam := Some EmptyString;
       conn_handlersParam := true; conn_clickData := None; conn_overlays := [];
       conn_detachable := true; conn_label := EmptyString; conn_classes := ["jr-connection"] |} in
  let eng0 :=
    {| eng_endpoints := endpoints;
       eng_connections :=
         [ newConnection "A:out" "B:in" true;
           tagged "old" (newConnection "B:in" "C:default" true);
           tagged "e2" (newConnection "A:out" "C:default" true) ] |} in
  let declare id s sp t tp :=
    {| fc_id := id; fc_source := {| nodeId := s; portId := sp |};
       fc_target := {| nodeId := t; portId := tp |};
       fc_label := None; fc_className := None; fc_editable := None |} in
  let declared :=
    [ declare "e1" "A" (Some "out") "B" (Some "in");
      declare "e2" "A" (Some "out") "C" None;
      declare "e3" "C" None "A" (Some "out");
      declare "e4" "Z" None "A" (Some "out") ] in
  let eng1 := (reconcileConnections endpoints ["e1"] declared ∅ eng0).1 in
  let eng2 := (reconcileConnections endpoints ["e1"] declared ∅ eng1).1 in
  sameButClassLists eng1 eng2
  ∧ eng_connections eng2 !! 1 = eng_connections eng1 !! 1
  ∧ conn_classes <$> eng_connections eng1 !! 0 = Some ["jr-connection"; "jr-selected"]
  ∧ conn_classes <$> eng_connections eng2 !! 0
    = Some ["jr-connection"; "jr-connection"; "jr-selected"].
Proof.
  intros endpoint endpoints tagged eng0 declare declared eng1 eng2.
  destruct (second_pass_repeats_class_names_only endpoints ["e1"] declared ∅ ∅ eng0)
    as (_ & Hsame & _).
  - unfold wellFormedIds. apply (bool_decide_unpack _). by vm_compute.
  - unfold uniqueTags. apply (bool_decide_unpack _). by vm_compute.
  - unfold endpointsRegistered. apply (bool_decide_unpack _). by vm_compute.
  - unfold pairLookupMeetsUntagged. apply (bool_decide_unpack _). by vm_compute.
  - split; [exact Hsame|]. split_and!; by vm_compute.
Defined.

End ReconcilingTwice.
